(** * Terrain Height Tools: the height map (src/module/geometry/height-map.mjs)

    A shallow embedding of the [HeightMap] class: the cell store with its
    undo history, the shape builder ([#combinePolygons]), the line-of-sight
    pre-filter and the region flattener; and of the tools of the layer that
    drives it (src/module/layers/terrain-height-layer.mjs).

    Conventions of the embedding.
    - A JavaScript number is an exact rational [Q]: no rounding, no NaN from
      arithmetic on numbers, no infinities.  A value that may be [undefined]
      (a missing object field) is an [option Q]; arithmetic on [undefined]
      yields NaN, also written [None], and every ordering test on it is
      false.
    - Grid positions are pairs of integers.
    - The instance state ([data], [_history], [#shapes]) is threaded through
      a small state-and-exception monad; a [throw] keeps the state reached so
      far, as a JavaScript exception does.
    - [async]/[await] is sequential here; the write to the scene flag in
      [#saveChanges] belongs to the persistence sink and is not modelled.
    - The classes and helpers imported from files outside this module
      (the terrain catalogue, the grid adapter, [Polygon], [LineSegment])
      are interfaces: type classes whose fields are the methods used. *)

From Stdlib Require Import List String ZArith QArith Bool Lia Lqa Arith Sorted Permutation.
Import ListNotations.

Set Implicit Arguments.
Local Open Scope Q_scope.

(** ** JavaScript values *)

Module Js.

(** [number | undefined]. *)
Definition num := option Q.

Definition Qltb (a b : Q) : bool := negb (Qle_bool b a).

(** [a === b] on [number | undefined]. *)
Definition strict_eq (a b : num) : bool :=
  match a, b with
  | Some p, Some q => Qeq_bool p q
  | None, None => true
  | _, _ => false
  end.

(** [a < b], [a <= b], [a > b]: false as soon as one side is not a number. *)
Definition lt (a b : num) : bool :=
  match a, b with Some p, Some q => Qltb p q | _, _ => false end.
Definition le (a b : num) : bool :=
  match a, b with Some p, Some q => Qle_bool p q | _, _ => false end.
Definition gt (a b : num) : bool := lt b a.

(** [a + b] and [a - b]. *)
Definition add (a b : num) : num :=
  match a, b with Some p, Some q => Some (p + q) | _, _ => None end.
Definition sub (a b : num) : num :=
  match a, b with Some p, Some q => Some (p - q) | _, _ => None end.

Definition Qmin2 (a b : Q) : Q := if Qle_bool a b then a else b.
Definition Qmax2 (a b : Q) : Q := if Qle_bool a b then b else a.

(** [Math.min] and [Math.max] of two values: NaN is contagious. *)
Definition min2 (a b : num) : num :=
  match a, b with Some p, Some q => Some (Qmin2 p q) | _, _ => None end.
Definition max2 (a b : num) : num :=
  match a, b with Some p, Some q => Some (Qmax2 p q) | _, _ => None end.

(** [Math.min.apply(null, x :: xs)] and [Math.max.apply(null, x :: xs)],
    for a list that is not empty (the only way the code calls them). *)
Definition min_of (x : num) (xs : list num) : num := fold_left min2 xs x.
Definition max_of (x : num) (xs : list num) : num := fold_left max2 xs x.

(** What a function of the class can throw.  [OutOfFuel] is not a
    JavaScript exception: it marks a loop of the model that was cut short.
    The shape builder never yields it ([combinePolygons_throws]); the flood
    fill does when its fuel is too small for the region it walks. *)
Inductive exn : Type :=
| Error (msg : string)
| TypeError
| OutOfFuel.

Inductive result (A : Type) : Type :=
| Ok (a : A)
| Throw (e : exn).
Arguments Ok {A} a.
Arguments Throw {A} e.

(** [Array.prototype.sort] is stable.  [before a b] says the comparator is
    negative on [(a, b)]. *)
Section Sort.
Variable A : Type.
Variable before : A -> A -> bool.

Fixpoint insert (a : A) (l : list A) : list A :=
  match l with
  | [] => [a]
  | b :: l' => if before b a then b :: insert a l' else a :: l
  end.

Fixpoint sort (l : list A) : list A :=
  match l with
  | [] => []
  | a :: l' => insert a (sort l')
  end.
End Sort.

(** [l.splice(i, 1)]: the list without its element of index [i]. *)
Fixpoint removeAt (A : Type) (i : nat) (l : list A) : list A :=
  match l, i with
  | [], _ => []
  | _ :: l', O => l'
  | a :: l', S i' => a :: removeAt i' l'
  end.

(** [l.findIndex(p)], with [None] for [-1]. *)
Fixpoint findIndex (A : Type) (p : A -> bool) (l : list A) : option nat :=
  match l with
  | [] => None
  | a :: l' => if p a then Some O else option_map S (findIndex p l')
  end.

(** [l[i] = f(l[i])] for an index in range. *)
Fixpoint updateAt (A : Type) (i : nat) (f : A -> A) (l : list A) : list A :=
  match l, i with
  | [], _ => []
  | a :: l', O => f a :: l'
  | a :: l', S i' => a :: updateAt i' f l'
  end.

(** [l.map((x, idx) => (idx, x))]. *)
Definition indexed (A : Type) (l : list A) : list (nat * A) :=
  combine (seq 0 (List.length l)) l.

End Js.

Import Js.

(** ** Helpers of utils/array-utils.mjs *)

Module ArrayUtils.
Section GroupBy.
Variables (A K : Type).
Variable keyEq : K -> K -> bool.
Variable key : A -> K.

Fixpoint addToGroup (a : A) (groups : list (K * list A)) : list (K * list A) :=
  match groups with
  | [] => [(key a, [a])]
  | (k, items) :: rest =>
      if keyEq k (key a) then (k, items ++ [a]) :: rest
      else (k, items) :: addToGroup a rest
  end.

(** Modelled from the spec: [groupBy] of utils/array-utils.mjs, which is
    not part of the sources.  The spec groups cells by their attribute
    tuple; the result is a [Map], so the groups come in the order in which
    their keys first occur and every group keeps the order of the
    array. *)
Definition groupBy (l : list A) : list (K * list A) :=
  fold_left (fun groups a => addToGroup a groups) l [].

Fixpoint addDistinct (a : A) (seen : list A) : list A :=
  match seen with
  | [] => [a]
  | b :: rest => if keyEq (key b) (key a) then seen else b :: addDistinct a rest
  end.

(** Modelled from the spec: [distinctBy] of utils/array-utils.mjs, which
    is not part of the sources.  The spec collects the set of distinct
    keys; the first element of every key is the one kept, in the order of
    the array. *)
Definition distinctBy (l : list A) : list A :=
  fold_left (fun seen a => addDistinct a seen) l [].
End GroupBy.
End ArrayUtils.

Import ArrayUtils.

(** ** Data model *)

Definition Position := (Z * Z)%type.

Definition position_eqb (a b : Position) : bool :=
  (fst a =? fst b)%Z && (snd a =? snd b)%Z.

(** An element of [HeightMap.data]. *)
Record Cell : Type := mkCell {
  position : Position;
  terrainTypeId : string;
  height : num;
  elevation : num
}.

(** An element of an entry of [HeightMap._history]; [h_terrainTypeId = None]
    says the cell was not painted before the change. *)
Record HistoryItem : Type := mkHistoryItem {
  h_position : Position;
  h_terrainTypeId : option string;
  h_height : num;
  h_elevation : num
}.

Definition HistoryEntry := list HistoryItem.

Record Point : Type := mkPoint { x : Q; y : Q }.

(** [point.offset({ y: dy })]. *)
Definition offset_y (p : Point) (dy : Q) : Point :=
  {| x := x p; y := y p + dy |}.

(** ** The collaborators *)

(** utils/terrain-types.mjs and api.mjs: the terrain catalogue. *)
Record TerrainType : Type := mkTerrainType {
  tt_id : string;
  usesHeight : bool
}.

Class TerrainCatalog : Type := {
  (** [getTerrainTypes()] *)
  getTerrainTypes : list TerrainType
}.

(** [game.canvas.grid] and utils/grid-utils.mjs. *)
Class Grid : Type := {
  (** [game.canvas.grid.type === CONST.GRID_TYPES.GRIDLESS] *)
  gridless : bool;
  (** [game.canvas.grid.isHex] *)
  isHex : bool;
  (** [game.canvas.grid.w] and [game.canvas.grid.h] *)
  grid_w : Q;
  grid_h : Q;
  (** [game.canvas.dimensions] *)
  canvasWidth : Q;
  canvasHeight : Q;
  (** [getGridCellPolygon(row, col)] *)
  getGridCellPolygon : Z -> Z -> list Point;
  (** [game.canvas.grid.getNeighbors(row, col)] *)
  getNeighbors : Z -> Z -> list Position;
  (** [game.canvas.grid.getPixelsFromGridPosition(row, col)] *)
  getPixelsFromGridPosition : Z -> Z -> Q * Q
}.

(** geometry/polygon.mjs and geometry/line-segment.mjs. *)
Class Geometry : Type := {
  LineSegment : Type;
  Polygon : Type;
  (** [new Polygon(vertices)] *)
  newPolygon : list Point -> Polygon;
  vertices : Polygon -> list Point;
  edges : Polygon -> list LineSegment;
  (** [polygon.boundingBox.y1] *)
  boundingBox_y1 : Polygon -> Q;
  (** [polygon.containsPolygon(other)] *)
  containsPolygon : Polygon -> Polygon -> bool;
  p1 : LineSegment -> Point;
  p2 : LineSegment -> Point;
  clockwise : LineSegment -> bool;
  (** [edge.equals(other)] *)
  seg_equals : LineSegment -> LineSegment -> bool;
  (** [edge.angleBetween(other)] *)
  angleBetween : LineSegment -> LineSegment -> Q;
  (** [edge.intersectsYAt(y)], [None] for [undefined] *)
  intersectsYAt : LineSegment -> Q -> option Q;
  (** [point.equals(other)] *)
  point_equals : Point -> Point -> bool
}.


(** ** The state-and-exception monad *)

Definition M (St A : Type) : Type := St -> result A * St.

Definition ret {St A : Type} (a : A) : M St A := fun s => (Ok a, s).

Definition bind {St A B : Type} (c : M St A) (k : A -> M St B) : M St B :=
  fun s =>
    match c s with
    | (Ok a, s') => k a s'
    | (Throw e, s') => (Throw e, s')
    end.

Definition throw {St A : Type} (e : exn) : M St A := fun s => (Throw e, s).

Definition gets {St A : Type} (f : St -> A) : M St A := fun s => (Ok (f s), s).

Definition modify {St : Type} (f : St -> St) : M St unit := fun s => (Ok tt, f s).

(** A pure computation that may throw, run inside the monad. *)
Definition lift {St A : Type} (r : result A) : M St A := fun s => (r, s).

Declare Scope hm_scope.
Delimit Scope hm_scope with hm.
Notation "x <- c ;; k" := (bind c (fun x => k))
  (at level 100, c at next level, right associativity) : hm_scope.
Notation "c ;;; k" := (bind c (fun _ => k))
  (at level 100, right associativity) : hm_scope.

(** The same sequencing for pure computations that may throw. *)
Definition rbind {A B : Type} (r : result A) (k : A -> result B) : result B :=
  match r with
  | Ok a => k a
  | Throw e => Throw e
  end.

Fixpoint rmap {A B : Type} (f : A -> result B) (l : list A) : result (list B) :=
  match l with
  | [] => Ok []
  | a :: l' => rbind (f a) (fun b => rbind (rmap f l') (fun bs => Ok (b :: bs)))
  end.

Fixpoint rfold {A B : Type} (f : B -> A -> result B) (l : list A) (b : B) : result B :=
  match l with
  | [] => Ok b
  | a :: l' => rbind (f b a) (rfold f l')
  end.

(** ** Shape builder: [#combinePolygons] and [_recalculateShapes] *)

Definition msgMissingEdge : string := "Invalid graph detected. Missing edge.".
Definition msgNoParent : string := "Could not find a parent polygon for this hole.".

Section ShapeBuilder.
Context {GE : Geometry} {GR : Grid}.

(** [HeightMapShape]. *)
Record HeightMapShape : Type := mkShape {
  polygon : Polygon;
  holes : list Polygon;
  shape_terrainTypeId : string;
  shape_height : num;
  shape_elevation : num
}.

(** Lines 242-251: an edge that equals a later one is removed together with
    it, and the scan resumes at the same index.  Every round shortens the
    list, so [length allEdges] rounds of fuel are enough. *)
Fixpoint removeDuplicateEdges (fuel : nat) (allEdges : list LineSegment)
  : list LineSegment :=
  match fuel with
  | O => allEdges
  | S fuel' =>
      match allEdges with
      | [] => []
      | e :: rest =>
          match findIndex (fun e' => seg_equals e e') rest with
          | Some j => removeDuplicateEdges fuel' (removeAt j rest)
          | None => e :: removeDuplicateEdges fuel' rest
          end
      end
  end.

(** Lines 267-269: the edges that start where the last edge ends, with their
    indices in [allEdges]. *)
Definition nextEdgeCandidates (lastEdge : LineSegment) (allEdges : list LineSegment)
  : list (nat * LineSegment) :=
  filter (fun c => point_equals (p1 (snd c)) (p2 lastEdge)) (indexed allEdges).

(** Lines 274-278, for a list of candidates [c :: cs] that is not empty. *)
Definition nextEdgeIndex (lastEdge : LineSegment) (c : nat * LineSegment)
  (cs : list (nat * LineSegment)) : nat :=
  match cs with
  | [] => fst c
  | _ =>
      match sort (fun a b => Qltb (fst a) (fst b))
                 (map (fun d => (angleBetween lastEdge (snd d), fst d)) (c :: cs)) with
      | (_, idx) :: _ => idx
      | [] => fst c
      end
  end.

(** [edges[0].p1.equals(edges[edges.length - 1].p2)] *)
Definition loopClosed (first : LineSegment) (edges : list LineSegment) : bool :=
  point_equals (p1 first) (p2 (last edges first)).

(** Lines 261-282: the inner loop, which follows edges until the loop closes.
    Every round moves one edge from [allEdges] to [edges]. *)
Fixpoint walkLoop (fuel : nat) (edges allEdges : list LineSegment)
  : result (list LineSegment * list LineSegment) :=
  match edges with
  | [] => Throw TypeError
  | first :: _ =>
      if loopClosed first edges then Ok (edges, allEdges)
      else
        match nextEdgeCandidates (last edges first) allEdges with
        | [] => Throw (Error msgMissingEdge)
        | c :: cs =>
            let nextEdgeIndex := nextEdgeIndex (last edges first) c cs in
            match fuel with
            | O => Throw OutOfFuel
            | S fuel' =>
                match nth_error allEdges nextEdgeIndex with
                | Some nextEdge =>
                    walkLoop fuel' (edges ++ [nextEdge]) (removeAt nextEdgeIndex allEdges)
                | None => Throw TypeError
                end
            end
        end
  end.

(** Lines 258-286: the outer loop, one closed polygon per round. *)
Fixpoint walkLoops (fuel : nat) (allEdges : list LineSegment)
  (combinedPolygons : list Polygon) : result (list Polygon) :=
  match allEdges with
  | [] => Ok combinedPolygons
  | first :: rest =>
      match fuel with
      | O => Throw OutOfFuel
      | S fuel' =>
          match walkLoop (List.length rest) [first] rest with
          | Ok (edges, rest') =>
              walkLoops fuel' rest' (combinedPolygons ++ [newPolygon (map p1 edges)])
          | Throw e => Throw e
          end
      end
  end.

(** [!polygon.edges[0].clockwise], the key of line 295. *)
Definition isHole (polygon : Polygon) : result bool :=
  match edges polygon with
  | e :: _ => Ok (negb (clockwise e))
  | [] => Throw TypeError
  end.

Definition addHole (hole : Polygon) (s : HeightMapShape) : HeightMapShape :=
  {| polygon := polygon s;
     holes := holes s ++ [hole];
     shape_terrainTypeId := shape_terrainTypeId s;
     shape_height := shape_height s;
     shape_elevation := shape_elevation s |}.

(** Line 313: the solid polygons that contain the hole, by index. *)
Definition containingPolygons (solidPolygons : list HeightMapShape) (hole : Polygon)
  : list (nat * HeightMapShape) :=
  filter (fun c => containsPolygon (polygon (snd c)) hole) (indexed solidPolygons).

(** Lines 323-325. *)
Definition testPointOf (hole : Polygon) : option Point :=
  option_map (fun p => offset_y p (grid_h * (5 # 100)))
    (find (fun p => Qeq_bool (y p) (boundingBox_y1 hole)) (vertices hole)).

(** Lines 327-333: where the edges of the containing polygons meet the
    horizontal line through the test point, left of it.  The filter
    [x.intersectsAt && x.intersectsAt < testPoint.x] drops [undefined] and,
    [0] being falsy, a crossing at [0]. *)
Definition intersectsWithEdges (testPoint : Point)
  (containing : list (nat * HeightMapShape)) : list (Q * nat) :=
  flat_map
    (fun c =>
       flat_map
         (fun edge =>
            match intersectsYAt edge (y testPoint) with
            | Some at_ =>
                if negb (Qeq_bool at_ 0) && Qltb at_ (x testPoint)
                then [(at_, fst c)] else []
            | None => []
            end)
         (edges (polygon (snd c))))
    containing.

(** Lines 312-343, the body of the loop for one hole. *)
Definition assignHole (solidPolygons : list HeightMapShape) (hole : Polygon)
  : result (list HeightMapShape) :=
  match containingPolygons solidPolygons hole with
  | [] => Throw (Error msgNoParent)
  | [c] => Ok (updateAt (fst c) (addHole hole) solidPolygons)
  | containing =>
      match testPointOf hole with
      | None => Throw TypeError
      | Some testPoint =>
          match intersectsWithEdges testPoint containing with
          | [] => Throw (Error msgNoParent)
          | crossings =>
              match sort (fun a b => Qltb (fst b) (fst a)) crossings with
              | (_, idx) :: _ => Ok (updateAt idx (addHole hole) solidPolygons)
              | [] => Throw TypeError
              end
          end
      end
  end.

(** Lines 295-306: the loops by winding. *)
Definition classifyPolygons (combinedPolygons : list Polygon)
  : result (list Polygon * list Polygon) :=
  rbind (rmap (fun p => rbind (isHole p) (fun b => Ok (b, p))) combinedPolygons)
    (fun keyed =>
       Ok (map snd (filter (fun kp => negb (fst kp)) keyed),
           map snd (filter (fun kp => fst kp) keyed))).

Definition solidShape (terrainTypeId' : string) (height' elevation' : num)
  (p : Polygon) : HeightMapShape :=
  {| polygon := p; holes := [];
     shape_terrainTypeId := terrainTypeId';
     shape_height := height';
     shape_elevation := elevation' |}.

(** The edges left after lines 239-251. *)
Definition outlineEdges (originalPolygons : list (Position * Polygon))
  : list LineSegment :=
  let allEdges := flat_map (fun p => edges (snd p)) originalPolygons in
  removeDuplicateEdges (List.length allEdges) allEdges.

Definition combinePolygons (originalPolygons : list (Position * Polygon))
  (terrainTypeId' : string) (height' elevation' : num)
  : result (list HeightMapShape) :=
  let allEdges := outlineEdges originalPolygons in
  rbind (walkLoops (List.length allEdges) allEdges [])
    (fun combinedPolygons =>
       rbind (classifyPolygons combinedPolygons)
         (fun sh =>
            rfold assignHole (snd sh)
              (map (solidShape terrainTypeId' height' elevation') (fst sh)))).

End ShapeBuilder.

(** ** The cell store and its history *)

Definition maxHistoryItems : nat := 10.

Definition msgHeight : string := "`height` must be a positive, non-zero number.".
Definition msgElevation : string := "`elevation` must be a positive number or zero.".

(** What a mutation hands back to its caller: [true], [false], or (one
    [return] of [fillCells]) an array. *)
Inductive value : Type :=
| VBool (b : bool)
| VArray (items : list Position).

Section CellStore.
Context {TC : TerrainCatalog} {GE : Geometry} {GR : Grid}.

(** The fields of a [HeightMap] instance. *)
Record HeightMap : Type := mkHeightMap {
  data : list Cell;
  _history : list HistoryEntry;
  shapes : list HeightMapShape
}.

Definition setData (d : list Cell) (s : HeightMap) : HeightMap :=
  {| data := d; _history := _history s; shapes := shapes s |}.
Definition setHistory (h : list HistoryEntry) (s : HeightMap) : HeightMap :=
  {| data := data s; _history := h; shapes := shapes s |}.
Definition setShapes (sh : list HeightMapShape) (s : HeightMap) : HeightMap :=
  {| data := data s; _history := _history s; shapes := sh |}.

(** Modelled from the spec: [getTerrainType({ id })] of api.mjs and
    [getTerrainTypeMap().get(id)] of utils/terrain-types.mjs, which are not
    part of the sources; both look the id up in the catalogue. *)
Definition getTerrainType (id : string) : option TerrainType :=
  find (fun t => String.eqb (tt_id t) id) getTerrainTypes.

Definition samePosition (cell : Position) (c : Cell) : bool :=
  position_eqb (position c) cell.

(** [get(row, col)] *)
Definition get (d : list Cell) (cell : Position) : option Cell :=
  find (samePosition cell) d.

(** [#sortData]: the comparator is [a[0] - b[0] || a[1] - b[1]]. *)
Definition positionBefore (a b : Cell) : bool :=
  (fst (position a) <? fst (position b))%Z
  || ((fst (position a) =? fst (position b))%Z
      && (snd (position a) <? snd (position b))%Z).

Definition sortData : M HeightMap unit :=
  modify (fun s => setData (sort positionBefore (data s)) s).

(** [#saveChanges]: the cells of a deleted terrain type are dropped. *)
Definition saveChanges : M HeightMap unit :=
  modify (fun s =>
    setData
      (filter (fun c => existsb (String.eqb (terrainTypeId c)) (map tt_id getTerrainTypes))
              (data s))
      s).

(** The [while] of [#pushHistory]: [shift] until at most ten entries are
    left. *)
Fixpoint limitHistory (h : list HistoryEntry) : list HistoryEntry :=
  match h with
  | [] => []
  | _ :: h' => if (maxHistoryItems <? List.length h)%nat then limitHistory h' else h
  end.

Definition pushHistory (historyEntry : HistoryEntry) : M HeightMap unit :=
  modify (fun s => setHistory (limitHistory (_history s ++ [historyEntry])) s).

(** The key of line 214, [`${terrainTypeId}.${height}.${elevation}`], compared
    as the three values it is printed from. *)
Definition groupKey (c : Cell) : string * num * num :=
  (terrainTypeId c, height c, elevation c).

Definition groupKeyEq (a b : string * num * num) : bool :=
  String.eqb (fst (fst a)) (fst (fst b))
  && strict_eq (snd (fst a)) (snd (fst b))
  && strict_eq (snd a) (snd b).

Definition cellPolygons (cells : list Cell) : list (Position * Polygon) :=
  map (fun c => (position c,
                 newPolygon (getGridCellPolygon (fst (position c)) (snd (position c)))))
      cells.

(** One round of the loop of [_recalculateShapes]. *)
Definition recalculateGroup (cells : list Cell) : M HeightMap unit :=
  match cells with
  | [] => throw TypeError
  | c :: _ =>
      (sh <- lift (combinePolygons (cellPolygons cells)
                     (terrainTypeId c) (height c) (elevation c)) ;;
       modify (fun s => setShapes (shapes s ++ sh) s))%hm
  end.

Fixpoint forEach {A : Type} (f : A -> M HeightMap unit) (l : list A) : M HeightMap unit :=
  match l with
  | [] => ret tt
  | a :: l' => (f a ;;; forEach f l')%hm
  end.

Definition _recalculateShapes : M HeightMap unit :=
  (modify (setShapes []) ;;;
   if gridless then ret tt
   else
     (d <- gets data ;;
      forEach (fun g => recalculateGroup (snd g)) (groupBy groupKeyEq groupKey d)))%hm.

(** *** Painting *)

Definition paintedCell (cell : Position) (terrainTypeId' : string)
  (height' elevation' : Q) : Cell :=
  {| position := cell; terrainTypeId := terrainTypeId';
     height := Some height'; elevation := Some elevation' |}.

(** The three assignments of lines 118-120, on the object [existing]. *)
Definition repaint (terrainTypeId' : string) (height' elevation' : Q) (c : Cell) : Cell :=
  paintedCell (position c) terrainTypeId' height' elevation'.

(** An update of the object that [get] returned: the first cell of the
    position. *)
Fixpoint updateFirst (p : Cell -> bool) (f : Cell -> Cell) (d : list Cell) : list Cell :=
  match d with
  | [] => []
  | c :: d' => if p c then f c :: d' else c :: updateFirst p f d'
  end.

(** Lines 111-125, one cell: the pending data, the history entry under
    construction and [anyAdded]. *)
Definition paintCell (terrainTypeId' : string) (height' elevation' : Q) (overwrite : bool)
  (acc : list Cell * HistoryEntry * bool) (cell : Position)
  : list Cell * HistoryEntry * bool :=
  let '(d, history, anyAdded) := acc in
  match get d cell with
  | Some existing =>
      if negb overwrite then acc
      else if String.eqb (terrainTypeId existing) terrainTypeId'
              && strict_eq (height existing) (Some height')
              && strict_eq (elevation existing) (Some elevation')
      then acc
      else (updateFirst (samePosition cell) (repaint terrainTypeId' height' elevation') d,
            history ++ [ {| h_position := cell;
                            h_terrainTypeId := Some (terrainTypeId existing);
                            h_height := height existing;
                            h_elevation := elevation existing |} ],
            anyAdded)
  | None =>
      (d ++ [paintedCell cell terrainTypeId' height' elevation'],
       history ++ [ {| h_position := cell; h_terrainTypeId := None;
                       h_height := None; h_elevation := None |} ],
       true)
  end.

Definition when (b : bool) (c : M HeightMap unit) : M HeightMap unit :=
  if b then c else ret tt.

Definition nonEmpty {A : Type} (l : list A) : bool :=
  match l with [] => false | _ => true end.

Definition paintCells (cells : list Position) (terrainTypeId' : string)
  (height' elevation' : Q) (overwrite : bool) : M HeightMap bool :=
  match getTerrainType terrainTypeId' with
  | None => throw TypeError
  | Some terrainType =>
      if usesHeight terrainType && Qle_bool height' 0 then throw (Error msgHeight)
      else if usesHeight terrainType && Qltb elevation' 0 then throw (Error msgElevation)
      else
        (d <- gets data ;;
         let '(d', history, anyAdded) :=
           fold_left (paintCell terrainTypeId' height' elevation' overwrite) cells (d, [], false) in
         modify (setData d') ;;;
         when anyAdded sortData ;;;
         when (nonEmpty history)
           (pushHistory history ;;; saveChanges ;;; _recalculateShapes) ;;;
         ret (nonEmpty history))%hm
  end.

(** *** Erasing *)

(** Lines 166-172, one cell.  The history item has no [elevation] field. *)
Definition eraseCell (acc : list Cell * HistoryEntry) (cell : Position)
  : list Cell * HistoryEntry :=
  let '(d, history) := acc in
  match findIndex (samePosition cell) d with
  | None => acc
  | Some idx =>
      match nth_error d idx with
      | Some c =>
          (removeAt idx d,
           history ++ [ {| h_position := cell;
                           h_terrainTypeId := Some (terrainTypeId c);
                           h_height := height c;
                           h_elevation := None |} ])
      | None => acc
      end
  end.

Definition eraseCells (cells : list Position) : M HeightMap bool :=
  (d <- gets data ;;
   let '(d', history) := fold_left eraseCell cells (d, []) in
   modify (setData d') ;;;
   when (nonEmpty history)
     (pushHistory history ;;; saveChanges ;;; _recalculateShapes) ;;;
   ret (nonEmpty history))%hm.

Definition clear : M HeightMap bool :=
  (d <- gets data ;;
   match d with
   | [] => ret false
   | _ =>
       modify (setData []) ;;;
       saveChanges ;;;
       modify (setShapes []) ;;;
       ret true
   end)%hm.

End CellStore.

Section FillAndUndo.
Context {TC : TerrainCatalog} {GE : Geometry} {GR : Grid}.

(** *** Filling *)

(** [#getNeighboringFillCells] *)
Definition getNeighboringFillCells (cell : Position) : list Position :=
  let '(x, y) := cell in
  if isHex then getNeighbors x y
  else [ (x, y - 1); (x - 1, y); (x + 1, y); (x, y + 1) ]%Z.

(** Lines 897-901: is the neighbour on the canvas? *)
Definition onCanvas (neighbor : Position) : bool :=
  let '(x, y) := getPixelsFromGridPosition (fst neighbor) (snd neighbor) in
  negb (Qltb (x + grid_w) 0)
  && negb (Qle_bool canvasWidth x)
  && negb (Qltb (y + grid_h) 0)
  && negb (Qle_bool canvasHeight y).

(** The configuration read by [this.get(...cell) ?? {}]. *)
Definition configAt (d : list Cell) (cell : Position) : option string * num * num :=
  match get d cell with
  | Some c => (Some (terrainTypeId c), height c, elevation c)
  | None => (None, None, None)
  end.

Definition sameConfig (a b : option string * num * num) : bool :=
  match fst (fst a), fst (fst b) with
  | Some s, Some s' => String.eqb s s'
  | None, None => true
  | _, _ => false
  end
  && strict_eq (snd (fst a)) (snd (fst b))
  && strict_eq (snd a) (snd b).

(** The [while] of [#findFillCells].  The walk stops when the queue is
    empty, which depends on the canvas and on the grid: every round costs one
    unit of fuel. *)
Fixpoint fillWalk (fuel : nat) (d : list Cell) (start : option string * num * num)
  (visitQueue visitedCells cellsToPaint : list Position) : result (list Position) :=
  match visitQueue with
  | [] => Ok cellsToPaint
  | nextCell :: visitQueue' =>
      match fuel with
      | O => Throw OutOfFuel
      | S fuel' =>
          if existsb (position_eqb nextCell) visitedCells
          then fillWalk fuel' d start visitQueue' visitedCells cellsToPaint
          else if negb (sameConfig (configAt d nextCell) start)
          then fillWalk fuel' d start visitQueue' (nextCell :: visitedCells) cellsToPaint
          else fillWalk fuel' d start
                 (visitQueue' ++ filter onCanvas (getNeighboringFillCells nextCell))
                 (nextCell :: visitedCells)
                 (cellsToPaint ++ [nextCell])
      end
  end.

Definition findFillCells (fuel : nat) (d : list Cell) (startCell : Position)
  : result (list Position) :=
  fillWalk fuel d (configAt d startCell) [startCell] [] [].

Definition fillCells (fuel : nat) (startCell : Position) (terrainTypeId' : string)
  (height' elevation' : Q) : M HeightMap value :=
  (d <- gets data ;;
   let startTerrainTypeId := option_map terrainTypeId (get d startCell) in
   let startHeight := match get d startCell with Some c => height c | None => None end in
   if match startTerrainTypeId with
      | Some s => String.eqb s terrainTypeId'
      | None => false
      end
      && strict_eq startHeight (Some height')
   then ret (VArray [])
   else
     (cellsToPaint <- lift (findFillCells fuel d startCell) ;;
      match cellsToPaint with
      | [] => ret (VBool false)
      | _ =>
          (b <- paintCells cellsToPaint terrainTypeId' height' elevation' true ;;
           ret (VBool b))
      end))%hm.

Definition eraseFillCells (fuel : nat) (startCell : Position) : M HeightMap bool :=
  (d <- gets data ;;
   cellsToErase <- lift (findFillCells fuel d startCell) ;;
   match cellsToErase with
   | [] => ret false
   | _ => eraseCells cellsToErase
   end)%hm.

(** *** Undo *)

(** [{ ...revert }], and the three assignments of lines 822-824. *)
Definition restoredCell (cell : Position) (terrainTypeId' : string)
  (revert : HistoryItem) : Cell :=
  {| position := cell; terrainTypeId := terrainTypeId';
     height := h_height revert; elevation := h_elevation revert |}.

(** Lines 812-832, one item of the entry: the data and [anyAdded]. *)
Definition revertItem (acc : list Cell * bool) (revert : HistoryItem)
  : list Cell * bool :=
  let '(d, anyAdded) := acc in
  match h_terrainTypeId revert, findIndex (samePosition (h_position revert)) d with
  | None, Some existingIndex => (removeAt existingIndex d, anyAdded)
  | Some tid, Some existingIndex =>
      (updateAt existingIndex (fun c => restoredCell (position c) tid revert) d, anyAdded)
  | Some tid, None => (d ++ [restoredCell (h_position revert) tid revert], true)
  | None, None => acc
  end.

Definition undo : M HeightMap bool :=
  (h <- gets _history ;;
   match h with
   | [] => ret false
   | first :: _ =>
       let revertChanges := last h first in
       modify (setHistory (removelast h)) ;;;
       d <- gets data ;;
       let '(d', anyAdded) := fold_left revertItem revertChanges (d, false) in
       modify (setData d') ;;;
       when anyAdded sortData ;;;
       saveChanges ;;;
       ret true
   end)%hm.

End FillAndUndo.

(** ** Line of sight *)

(** [{ x, y, h }], an end of the ray. *)
Record Point3 : Type := mkPoint3 { p_x : Q; p_y : Q; p_h : Q }.

(** [{ x, y, h, t }], an end of a region. *)
Record RegionPoint : Type := mkRegionPoint { r_x : Q; r_y : Q; r_h : Q; t : Q }.

(** [LineOfSightIntersectionRegion]. *)
Record LineOfSightIntersectionRegion : Type := mkRegion {
  r_start : RegionPoint;
  r_end : RegionPoint;
  skimmed : bool
}.

Section LineOfSight.
Context {TC : TerrainCatalog} {GE : Geometry} {GR : Grid}.

(** Lines 402-723 of [getIntersectionsOfShape]: the clipping of the ray to
    the heights of the shape, the sweep over its edges and the skim pass.
    They work on floating-point angles and tolerances; what follows needs
    only that they produce a list of regions. *)
Variable sweepRegions :
  HeightMapShape -> Point3 -> Point3 -> bool -> list LineOfSightIntersectionRegion.

(** [shapeTop] and [shapeBottom] when [usesHeight] holds; when it does not
    they are infinite and every test on them is skipped. *)
Definition shapeTop (shape : HeightMapShape) : num :=
  add (shape_elevation shape) (shape_height shape).
Definition shapeBottom (shape : HeightMapShape) : num := shape_elevation shape.

Definition getIntersectionsOfShape (shape : HeightMapShape) (p1 p2 : Point3)
  (usesHeight' : bool) : list LineOfSightIntersectionRegion :=
  if usesHeight' && gt (Some (p_h p1)) (shapeTop shape)
                 && gt (Some (p_h p2)) (shapeTop shape) then []
  else if usesHeight' && lt (Some (p_h p1)) (shapeBottom shape)
                      && lt (Some (p_h p2)) (shapeBottom shape) then []
  else sweepRegions shape p1 p2 usesHeight'.

(** Lines 368-380, one shape. *)
Definition lineOfSightOfShape (p1 p2 : Point3) (includeNoHeightTerrain : bool)
  (shape : HeightMapShape)
  : list (HeightMapShape * list LineOfSightIntersectionRegion) :=
  match getTerrainType (shape_terrainTypeId shape) with
  | None => []
  | Some terrainType =>
      if negb (usesHeight terrainType) && negb includeNoHeightTerrain then []
      else
        let regions := getIntersectionsOfShape shape p1 p2 (usesHeight terrainType) in
        if nonEmpty regions then [(shape, regions)] else []
  end.

Definition calculateLineOfSight (s : HeightMap) (p1 p2 : Point3)
  (includeNoHeightTerrain : bool)
  : list (HeightMapShape * list LineOfSightIntersectionRegion) :=
  flat_map (lineOfSightOfShape p1 p2 includeNoHeightTerrain) (shapes s).

End LineOfSight.

(** ** Region flattener *)

Section Flattener.
Context {GE : Geometry}.

Definition ShapeRegions : Type :=
  (HeightMapShape * list LineOfSightIntersectionRegion)%type.

(** An element of the array returned by the flattener; [f_start] is
    [undefined] when no boundary came before. *)
Record FlatRegion : Type := mkFlatRegion {
  f_start : option RegionPoint;
  f_end : RegionPoint;
  f_terrainTypeId : string;
  f_height : num;
  f_elevation : num;
  f_skimmed : bool
}.

(** Lines 736-739: the ends of all regions, one per value of [t], by
    ascending [t]. *)
Definition regionEnds (shapeRegions : list ShapeRegions) : list RegionPoint :=
  flat_map (fun s => flat_map (fun r => [r_start r; r_end r]) (snd s)) shapeRegions.

Definition boundaries (shapeRegions : list ShapeRegions) : list RegionPoint :=
  sort (fun a b => Qltb (t a) (t b)) (distinctBy Qeq_bool t (regionEnds shapeRegions)).

(** [r.start.t < t && r.end.t >= t] *)
Definition activeAt (t' : Q) (r : LineOfSightIntersectionRegion) : bool :=
  Qltb (t (r_start r)) t' && Qle_bool t' (t (r_end r)).

(** Lines 757-759. *)
Definition activeRegions (shapeRegions : list ShapeRegions) (t' : Q)
  : list (HeightMapShape * LineOfSightIntersectionRegion) :=
  flat_map
    (fun s =>
       match find (activeAt t') (snd s) with
       | Some region => [(fst s, region)]
       | None => []
       end)
    shapeRegions.

(** [r.shape.height + r.shape.elevation] *)
Definition topOf (r : HeightMapShape * LineOfSightIntersectionRegion) : num :=
  add (shape_height (fst r)) (shape_elevation (fst r)).

(** Lines 744-781, one boundary: [lastPosition] and [flatIntersections]. *)
Definition flattenStep (shapeRegions : list ShapeRegions)
  (acc : option RegionPoint * list FlatRegion) (boundary : RegionPoint)
  : option RegionPoint * list FlatRegion :=
  let '(lastPosition, flatIntersections) := acc in
  match activeRegions shapeRegions (t boundary) with
  | [] => (Some boundary, flatIntersections)
  | first :: others =>
      let elevation' :=
        min_of (shape_elevation (fst first)) (map (fun r => shape_elevation (fst r)) others) in
      let height' := sub (max_of (topOf first) (map topOf others)) elevation' in
      (Some boundary,
       flatIntersections ++
         [ {| f_start := lastPosition;
              f_end := boundary;
              f_terrainTypeId := shape_terrainTypeId (fst first);
              f_height := height';
              f_elevation := elevation';
              f_skimmed := (List.length (first :: others) =? 1)%nat && skimmed (snd first) |} ])
  end.

Definition flattenLineOfSightIntersectionRegions (shapeRegions : list ShapeRegions)
  : list FlatRegion :=
  snd (fold_left (flattenStep shapeRegions) (boundaries shapeRegions) (None, [])).

End Flattener.

(** ** The end of a recorded mutation *)

Section Commit.
Context {TC : TerrainCatalog} {GE : Geometry} {GR : Grid}.

(** The tail shared by [paintCells] and [eraseCells]: lines 130-136 and
    174-180. *)
Definition commit (history : HistoryEntry) : M HeightMap bool :=
  (when (nonEmpty history)
     (pushHistory history ;;; saveChanges ;;; _recalculateShapes) ;;;
   ret (nonEmpty history))%hm.

(** The instance when [_recalculateShapes] is called: the entry is pushed
    and the cells of deleted terrain types are gone. *)
Definition committed (history : HistoryEntry) (s : HeightMap) : HeightMap :=
  snd (saveChanges (snd (pushHistory history s))).

End Commit.

(** ** The mutation operations, as the layer calls them *)

Section Mutations.
Context {TC : TerrainCatalog} {GE : Geometry} {GR : Grid}.

Inductive Mutation : Type :=
| PaintCells (cells : list Position) (terrainTypeId' : string)
    (height' elevation' : Q) (overwrite : bool)
| FillCells (fuel : nat) (startCell : Position) (terrainTypeId' : string)
    (height' elevation' : Q)
| EraseCells (cells : list Position)
| EraseFillCells (fuel : nat) (startCell : Position)
| Clear
| Undo.

Definition asValue (c : M HeightMap bool) : M HeightMap value :=
  (b <- c ;; ret (VBool b))%hm.

Definition perform (m : Mutation) : M HeightMap value :=
  match m with
  | PaintCells cells tid h e overwrite => asValue (paintCells cells tid h e overwrite)
  | FillCells fuel startCell tid h e => fillCells fuel startCell tid h e
  | EraseCells cells => asValue (eraseCells cells)
  | EraseFillCells fuel startCell => asValue (eraseFillCells fuel startCell)
  | Clear => asValue clear
  | Undo => asValue undo
  end.


(** The instance after a sequence of calls; a call that throws leaves the
    instance as it was when the exception left it. *)
Definition performAll (ms : list Mutation) (s : HeightMap) : HeightMap :=
  fold_left (fun s' m => snd (perform m s')) ms s.


End Mutations.


(** ** The flattener, as the spec words it *)

Section FlattenerSpec.
Context {GE : Geometry}.




(** What one round of the loop appends. *)
Definition entryAt (shapeRegions : list ShapeRegions)
  (lastPosition : option RegionPoint) (boundary : RegionPoint) : list FlatRegion :=
  match activeRegions shapeRegions (t boundary) with
  | [] => []
  | first :: others =>
      let elevation' :=
        min_of (shape_elevation (fst first)) (map (fun r => shape_elevation (fst r)) others) in
      [ {| f_start := lastPosition;
           f_end := boundary;
           f_terrainTypeId := shape_terrainTypeId (fst first);
           f_height := sub (max_of (topOf first) (map topOf others)) elevation';
           f_elevation := elevation';
           f_skimmed := (List.length (first :: others) =? 1)%nat && skimmed (snd first) |} ]
  end.

(** What the rounds over [bs] append, one after the other. *)
Fixpoint entriesFrom (shapeRegions : list ShapeRegions)
  (lastPosition : option RegionPoint) (bs : list RegionPoint) : list FlatRegion :=
  match bs with
  | [] => []
  | b :: bs' =>
      entryAt shapeRegions lastPosition b ++ entriesFrom shapeRegions (Some b) bs'
  end.

End FlattenerSpec.


(** ** The rounds of the loop walk, for the statements about it *)

Section LoopWalk.
Context {GE : Geometry} {GR : Grid}.

(** The state of the inner loop: [edges] and [allEdges]. *)
Definition WalkState : Type := (list LineSegment * list LineSegment)%type.

(** One round of the inner loop, when there is one: the loop is still open
    and a next edge is found. *)
Definition walkNext (s : WalkState) : option WalkState :=
  match fst s with
  | [] => None
  | first :: _ =>
      if loopClosed first (fst s) then None
      else
        match nextEdgeCandidates (last (fst s) first) (snd s) with
        | [] => None
        | c :: cs =>
            let i := nextEdgeIndex (last (fst s) first) c cs in
            match nth_error (snd s) i with
            | Some nextEdge => Some (fst s ++ [nextEdge], removeAt i (snd s))
            | None => None
            end
        end
  end.

(** The loop is open and no remaining edge starts where its last edge
    ends. *)
Definition walkStuck (s : WalkState) : Prop :=
  match fst s with
  | [] => False
  | first :: _ =>
      loopClosed first (fst s) = false
      /\ nextEdgeCandidates (last (fst s) first) (snd s) = []
  end.

(** The states the inner loop goes through from a given state. *)
Inductive walkVisits : WalkState -> WalkState -> Prop :=
| wv_here (s : WalkState) : walkVisits s s
| wv_next (s s' s'' : WalkState) :
    walkNext s = Some s' -> walkVisits s' s'' -> walkVisits s s''.

(** The values of [allEdges] at the beginning of the rounds of the outer
    loop. *)
Inductive roundStarts : list LineSegment -> list LineSegment -> Prop :=
| rs_here (allEdges : list LineSegment) : roundStarts allEdges allEdges
| rs_next (first : LineSegment) (rest edges rest' allEdges' : list LineSegment) :
    walkLoop (List.length rest) [first] rest = Ok (edges, rest') ->
    roundStarts rest' allEdges' ->
    roundStarts (first :: rest) allEdges'.

(** The loop walk over [allEdges] goes through the state [s]. *)
Definition loopWalkVisits (allEdges : list LineSegment) (s : WalkState) : Prop :=
  exists first rest,
    roundStarts allEdges (first :: rest) /\ walkVisits ([first], rest) s.

End LoopWalk.


(** ** Holes without a parent, for the statements about them *)

Section Orphans.
Context {GE : Geometry} {GR : Grid}.

(** No solid polygon contains the hole, or several do and the ray from the
    test point crosses none of their edges. *)
Definition orphaned (solidPolygons : list HeightMapShape) (hole : Polygon) : Prop :=
  containingPolygons solidPolygons hole = []
  \/ ((2 <= List.length (containingPolygons solidPolygons hole))%nat
      /\ exists testPoint,
           testPointOf hole = Some testPoint
           /\ intersectsWithEdges testPoint (containingPolygons solidPolygons hole) = []).

(** The candidates with their polygons only: what the assignment of a hole
    reads of the shapes. *)
Definition outlined (cs : list (nat * HeightMapShape)) : list (nat * Polygon) :=
  map (fun c => (fst c, polygon (snd c))) cs.

(** What [#combinePolygons] can throw. *)
Definition builderError (e : exn) : Prop :=
  e = Error msgMissingEdge \/ e = Error msgNoParent \/ e = TypeError.

End Orphans.


(** ** The layer: layers/terrain-height-layer.mjs *)

(** Modelled from the spec: consts.mjs is not part of the sources; the five
    entries of [tools] that the layer switches on are taken to be five
    distinct names.  [OtherTool] is any other value of [game.activeTool]. *)
Inductive Tool : Type :=
| Paint
| Fill
| Pipette
| Erase
| EraseFill
| OtherTool.

(** The calls the layer makes on its graphics objects and on the tool
    panel, in the order it makes them. *)
Inductive GraphicsCall : Type :=
| UpdateGraphics
| SetColorFromTerrainTypeId (id : option string)
| SetColor (color : Z)
| Highlight (cell : Position)
| ClearHighlight
| ClickPaintTool.

(** [if (v)] on what a mutation hands back: an array is truthy. *)
Definition truthy (v : value) : bool :=
  match v with
  | VBool b => b
  | VArray _ => true
  end.

(** [if (id)] on [string | undefined]: the empty string is falsy. *)
Definition truthyId (id : option string) : bool :=
  match id with
  | Some s => negb (String.eqb s "")
  | None => false
  end.

(** [a !== b] for a value of a cell and a value of the selection, which is
    a number or NaN ([None] on the side of the selection). *)
Definition differs (a selected : num) : bool :=
  match a, selected with
  | Some p, Some q => negb (Qeq_bool p q)
  | _, _ => true
  end.

Section Layer.
Context {TC : TerrainCatalog} {GE : Geometry} {GR : Grid}.

(** The rounds granted to the walks of the fills. *)
Variable fuel : nat.

(** [paintCells] and [fillCells] when the selection hands them NaN for the
    height or the elevation ([Math.max] of an undefined value of a cell, in
    the pipette): what they do then is outside the cells of the model, whose
    heights are numbers or undefined, and is left open. *)
Variable paintCellsNaN : list Position -> string -> num -> num -> M HeightMap bool.
Variable fillCellsNaN : Position -> string -> num -> num -> M HeightMap value.

(** The fields of a [TerrainHeightLayer] that the tools read and write, and
    the calls made on the graphics.  The two selected numbers are numbers or
    NaN ([None]). *)
Record TerrainHeightLayer : Type := mkLayer {
  _heightMap : HeightMap;
  _pendingTool : option Tool;
  _pendingChanges : list Position;
  _selectedPaintingTerrainTypeId : option string;
  _selectedPaintingHeight : num;
  _selectedPaintingElevation : num;
  graphicsCalls : list GraphicsCall
}.

Definition setHeightMap (hm : HeightMap) (l : TerrainHeightLayer) : TerrainHeightLayer :=
  {| _heightMap := hm;
     _pendingTool := _pendingTool l;
     _pendingChanges := _pendingChanges l;
     _selectedPaintingTerrainTypeId := _selectedPaintingTerrainTypeId l;
     _selectedPaintingHeight := _selectedPaintingHeight l;
     _selectedPaintingElevation := _selectedPaintingElevation l;
     graphicsCalls := graphicsCalls l |}.

Definition setPendingTool (tool : option Tool) (l : TerrainHeightLayer)
  : TerrainHeightLayer :=
  {| _heightMap := _heightMap l;
     _pendingTool := tool;
     _pendingChanges := _pendingChanges l;
     _selectedPaintingTerrainTypeId := _selectedPaintingTerrainTypeId l;
     _selectedPaintingHeight := _selectedPaintingHeight l;
     _selectedPaintingElevation := _selectedPaintingElevation l;
     graphicsCalls := graphicsCalls l |}.

Definition setPendingChanges (cells : list Position) (l : TerrainHeightLayer)
  : TerrainHeightLayer :=
  {| _heightMap := _heightMap l;
     _pendingTool := _pendingTool l;
     _pendingChanges := cells;
     _selectedPaintingTerrainTypeId := _selectedPaintingTerrainTypeId l;
     _selectedPaintingHeight := _selectedPaintingHeight l;
     _selectedPaintingElevation := _selectedPaintingElevation l;
     graphicsCalls := graphicsCalls l |}.

Definition setSelection (id : option string) (height' elevation' : num)
  (l : TerrainHeightLayer) : TerrainHeightLayer :=
  {| _heightMap := _heightMap l;
     _pendingTool := _pendingTool l;
     _pendingChanges := _pendingChanges l;
     _selectedPaintingTerrainTypeId := id;
     _selectedPaintingHeight := height';
     _selectedPaintingElevation := elevation';
     graphicsCalls := graphicsCalls l |}.

Definition logCall (call : GraphicsCall) (l : TerrainHeightLayer) : TerrainHeightLayer :=
  {| _heightMap := _heightMap l;
     _pendingTool := _pendingTool l;
     _pendingChanges := _pendingChanges l;
     _selectedPaintingTerrainTypeId := _selectedPaintingTerrainTypeId l;
     _selectedPaintingHeight := _selectedPaintingHeight l;
     _selectedPaintingElevation := _selectedPaintingElevation l;
     graphicsCalls := graphicsCalls l ++ [call] |}.

(** A call on [this._heightMap]. *)
Definition onMap {A : Type} (c : M HeightMap A) : M TerrainHeightLayer A :=
  fun l => let '(r, hm) := c (_heightMap l) in (r, setHeightMap hm l).

Definition draw (call : GraphicsCall) : M TerrainHeightLayer unit :=
  modify (logCall call).

(** [_updateGraphics], once the graphics exist. *)
Definition _updateGraphics : M TerrainHeightLayer unit := draw UpdateGraphics.

(** [get paintingConfig] *)
Definition paintingConfig (l : TerrainHeightLayer) : option string * num * num :=
  let selectedTerrainId := _selectedPaintingTerrainTypeId l in
  let usesHeight' :=
    match selectedTerrainId with
    | Some id =>
        match getTerrainType id with
        | Some terrainType => usesHeight terrainType
        | None => false
        end
    | None => false
    end in
  (selectedTerrainId,
   if usesHeight' then _selectedPaintingHeight l else Some 0,
   if usesHeight' then _selectedPaintingElevation l else Some 0).

(** [#cellIsPending] *)
Definition cellIsPending (l : TerrainHeightLayer) (cell : Position) : bool :=
  existsb (fun c => position_eqb c cell) (_pendingChanges l).

(** [this._pendingChanges.push(cell)] *)
Definition pushPending (cell : Position) (l : TerrainHeightLayer) : TerrainHeightLayer :=
  setPendingChanges (_pendingChanges l ++ [cell]) l.

(** The test of lines 217-218 on the cell under the pointer. *)
Definition differsFromSelection (existing : option Cell)
  (config : option string * num * num) : bool :=
  match existing with
  | None => true
  | Some c =>
      match fst (fst config) with
      | Some id => negb (String.eqb (terrainTypeId c) id)
      | None => true
      end
      || differs (height c) (snd (fst config))
      || differs (elevation c) (snd config)
  end.

(** The calls of [paintCells] and [fillCells] with the selection. *)
Definition paintSelection (cells : list Position) (id : string) (height' elevation' : num)
  : M HeightMap bool :=
  match height', elevation' with
  | Some h, Some e => paintCells cells id h e true
  | _, _ => paintCellsNaN cells id height' elevation'
  end.

Definition fillSelection (cell : Position) (id : string) (height' elevation' : num)
  : M HeightMap value :=
  match height', elevation' with
  | Some h, Some e => fillCells fuel cell id h e
  | _, _ => fillCellsNaN cell id height' elevation'
  end.

Definition whenL (b : bool) (c : M TerrainHeightLayer unit) : M TerrainHeightLayer unit :=
  if b then c else ret tt.

(** [#useTool(x, y, tool)], [cell] being the cell of the grid at [(x, y)]. *)
Definition useTool (cell : Position) (tool : option Tool) : M TerrainHeightLayer unit :=
  (l <- gets (fun l => l) ;;
   match match tool with Some t' => Some t' | None => _pendingTool l end with
   | Some Paint =>
       let existing := get (data (_heightMap l)) cell in
       let config := paintingConfig l in
       whenL (negb (cellIsPending l cell)
              && differsFromSelection existing config
              && truthyId (fst (fst config)))
         (modify (pushPending cell) ;;; draw (Highlight cell))
   | Some Fill =>
       modify (setPendingTool None) ;;;
       l' <- gets (fun l' => l') ;;
       let config := paintingConfig l' in
       match fst (fst config) with
       | Some id =>
           if truthyId (Some id)
           then
             (v <- onMap (fillSelection cell id (snd (fst config)) (snd config)) ;;
              whenL (truthy v) _updateGraphics)
           else ret tt
       | None => ret tt
       end
   | Some Pipette =>
       match get (data (_heightMap l)) cell with
       | None => ret tt
       | Some cellData =>
           modify (setSelection (Some (terrainTypeId cellData))
                     (max2 (height cellData) (Some 1))
                     (max2 (elevation cellData) (Some 0))) ;;;
           draw ClickPaintTool ;;;
           modify (setPendingTool None)
       end
   | Some Erase =>
       whenL (negb (cellIsPending l cell)
              && match get (data (_heightMap l)) cell with Some _ => true | None => false end)
         (modify (pushPending cell) ;;; draw (SetColor 0) ;;; draw (Highlight cell))
   | Some EraseFill =>
       modify (setPendingTool None) ;;;
       b <- onMap (eraseFillCells fuel cell) ;;
       whenL b _updateGraphics
   | Some OtherTool => ret tt
   | None => ret tt
   end)%hm.

(** [#beginTool(x, y)], with the value of [game.activeTool]. *)
Definition beginTool (cell : Position) (activeTool : Tool) : M TerrainHeightLayer unit :=
  (l <- gets (fun l => l) ;;
   match _pendingTool l with
   | Some _ => ret tt
   | None =>
       modify (setPendingTool (Some activeTool)) ;;;
       match activeTool with
       | Paint => draw (SetColorFromTerrainTypeId (_selectedPaintingTerrainTypeId l))
       | Erase => draw (SetColor 0)
       | _ => ret tt
       end ;;;
       useTool cell None
   end)%hm.

(** [#commitPendingToolUsage] *)
Definition commitPendingToolUsage : M TerrainHeightLayer unit :=
  (l <- gets (fun l => l) ;;
   let pendingChanges := _pendingChanges l in
   modify (setPendingChanges []) ;;;
   let pendingTool := _pendingTool l in
   modify (setPendingTool None) ;;;
   match pendingTool with
   | Some Paint =>
       let config := paintingConfig l in
       match fst (fst config) with
       | Some id =>
           if truthyId (Some id)
           then
             (b <- onMap (paintSelection pendingChanges id (snd (fst config)) (snd config)) ;;
              whenL b _updateGraphics)
           else ret tt
       | None => ret tt
       end
   | Some Erase =>
       b <- onMap (eraseCells pendingChanges) ;;
       whenL b _updateGraphics
   | _ => ret tt
   end ;;;
   draw ClearHighlight)%hm.

(** What the pointer does: a button goes down on a cell while
    [game.activeTool] has some value, the pointer moves to a cell, a button
    goes up. *)
Inductive PointerEvent : Type :=
| MouseDown (button : Z) (cell : Position) (activeTool : Tool)
| MouseMove (cell : Position)
| MouseUp (button : Z).

(** [#onMouseDown], [#onMouseMove] and [#onMouseUp]. *)
Definition handle (event : PointerEvent) : M TerrainHeightLayer unit :=
  match event with
  | MouseDown button cell activeTool =>
      if negb (button =? 0)%Z then ret tt else beginTool cell activeTool
  | MouseMove cell =>
      (l <- gets (fun l => l) ;;
       match _pendingTool l with
       | None => ret tt
       | Some _ => useTool cell None
       end)%hm
  | MouseUp button =>
      (l <- gets (fun l => l) ;;
       match _pendingTool l with
       | None => ret tt
       | Some _ =>
           if negb (button =? 0)%Z then ret tt
           else commitPendingToolUsage ;;; modify (setPendingTool None)
       end)%hm
  end.

(** The events one after the other; a handler that throws leaves the
    layer as it was at the throw. *)
Definition handleAll (events : list PointerEvent) (l : TerrainHeightLayer)
  : TerrainHeightLayer :=
  fold_left (fun l' event => snd (handle event l')) events l.

(** A stroke: the left button goes down on a cell, the pointer is dragged
    over cells, the button goes up. *)
Definition stroke (tool : Tool) (first : Position) (more : list Position)
  : list PointerEvent :=
  MouseDown 0 first tool :: map MouseMove more ++ [MouseUp 0].

(** [clear()], [get canUndo] and [undo()] of the layer. *)
Definition layerClear : M TerrainHeightLayer unit :=
  (b <- onMap clear ;; whenL b _updateGraphics)%hm.

Definition canUndo (l : TerrainHeightLayer) : bool :=
  (0 <? List.length (_history (_heightMap l)))%nat.

Definition layerUndo : M TerrainHeightLayer bool := onMap undo.

End Layer.



(** ** A concrete world: a square grid of 100-pixel cells

    The examples and the concrete runs below need collaborators that
    compute.  Modelled from the spec: polygon.mjs, line-segment.mjs and the
    grid adapter are not part of the sources; this is the geometry section 3
    and section 4.2 of the spec describe (a polygon is its closed vertex
    sequence, clockwise for a boundary and counter-clockwise for a hole), on
    exact rationals. *)

Module SquareWorld.

Record Segment : Type := mkSegment { sp1 : Point; sp2 : Point; scw : bool }.

Definition pointEq (a b : Point) : bool :=
  Qeq_bool (x a) (x b) && Qeq_bool (y a) (y b).

(** Same two ends, in either direction. *)
Definition segmentEq (a b : Segment) : bool :=
  (pointEq (sp1 a) (sp1 b) && pointEq (sp2 a) (sp2 b))
  || (pointEq (sp1 a) (sp2 b) && pointEq (sp2 a) (sp1 b)).

(** [vs] paired with [vs] rotated by one: the closed sequence of sides. *)
Definition sides (vs : list Point) : list (Point * Point) :=
  match vs with
  | [] => []
  | v :: vs' => combine vs (vs' ++ [v])
  end.

(** Twice the signed area; positive when the vertices run clockwise on the
    screen, where [y] grows downwards. *)
Definition area2 (vs : list Point) : Q :=
  fold_left (fun acc s => acc + (x (fst s) * y (snd s) - x (snd s) * y (fst s)))
            (sides vs) 0.

Definition polygonEdges (vs : list Point) : list Segment :=
  map (fun s => {| sp1 := fst s; sp2 := snd s; scw := Qltb 0 (area2 vs) |}) (sides vs).

Definition minY (vs : list Point) : Q :=
  match vs with
  | [] => 0
  | v :: vs' => fold_left Qmin2 (map y vs') (y v)
  end.

(** Where the segment meets the horizontal line of height [y0], when that
    line separates its ends (the upper end counts, the lower does not). *)
Definition crossingX (s : Segment) (y0 : Q) : option Q :=
  let a := sp1 s in
  let b := sp2 s in
  if (Qle_bool (y a) y0 && Qltb y0 (y b)) || (Qle_bool (y b) y0 && Qltb y0 (y a))
  then Some (x a + (y0 - y a) * (x b - x a) / (y b - y a))
  else None.

(** Crossing-number test: the sides met by the ray that leaves [p] to the
    left. *)
Definition containsPoint (vs : list Point) (p : Point) : bool :=
  Nat.odd
    (List.length
       (filter (fun s =>
                  match crossingX s (y p) with
                  | Some cx => Qltb cx (x p)
                  | None => false
                  end)
               (polygonEdges vs))).

Definition polygonContains (outer inner : list Point) : bool :=
  nonEmpty inner && forallb (containsPoint outer) inner.

(** A direction as a number in [0, 4), growing with the angle. *)
Definition diamond (dx dy : Q) : Q :=
  if Qle_bool 0 dy
  then if Qle_bool 0 dx
       then (if Qeq_bool (dx + dy) 0 then 0 else dy / (dx + dy))
       else 1 - dx / (dy - dx)
  else if Qltb dx 0
       then 2 - dy / (- dx - dy)
       else 3 + dx / (dx - dy).

Definition direction (s : Segment) : Q :=
  diamond (x (sp2 s) - x (sp1 s)) (y (sp2 s) - y (sp1 s)).

(** The turn from [a] to [b], in [0, 4). *)
Definition turn (a b : Segment) : Q :=
  let d := direction b - direction a in
  if Qltb d 0 then d + 4 else d.

(** Modelled from the spec: the [Polygon] and [LineSegment] classes of
    polygon.mjs and line-segment.mjs, on exact rationals. *)
#[export] Instance geometry : Geometry := {|
  LineSegment := Segment;
  Polygon := list Point;
  newPolygon := fun vs => vs;
  vertices := fun vs => vs;
  edges := polygonEdges;
  boundingBox_y1 := minY;
  containsPolygon := polygonContains;
  p1 := sp1;
  p2 := sp2;
  clockwise := scw;
  seg_equals := segmentEq;
  angleBetween := turn;
  intersectsYAt := crossingX;
  point_equals := pointEq
|}.

Definition cellSize : Q := 100.

Definition corner (row col : Z) : Point :=
  {| x := inject_Z col * cellSize; y := inject_Z row * cellSize |}.

(** Modelled from the spec: the grid adapter of a square grid with cells of
    100 pixels on a canvas of 1000 by 1000 pixels. *)
#[export] Instance grid : Grid := {|
  gridless := false;
  isHex := false;
  grid_w := cellSize;
  grid_h := cellSize;
  canvasWidth := 1000;
  canvasHeight := 1000;
  getGridCellPolygon := fun row col =>
    [ corner row col; corner row (col + 1); corner (row + 1) (col + 1); corner (row + 1) col ];
  getNeighbors := fun _ _ => [];
  getPixelsFromGridPosition := fun row col => (inject_Z col * cellSize, inject_Z row * cellSize)
|}.

(** Modelled from the spec: a terrain catalogue with two terrain types, one
    that uses height and one that does not. *)
#[export] Instance catalog : TerrainCatalog := {|
  getTerrainTypes :=
    [ {| tt_id := "rock"; usesHeight := true |};
      {| tt_id := "fog"; usesHeight := false |} ]
|}.

Definition emptyMap : HeightMap := {| data := []; _history := []; shapes := [] |}.

Definition block (row0 col0 rows cols : nat) : list Position :=
  flat_map (fun r => map (fun c => (Z.of_nat (row0 + r), Z.of_nat (col0 + c))) (seq 0 cols))
           (seq 0 rows).

(** A block painted at elevation 0. *)
Definition painted : HeightMap :=
  snd (paintCells (block 0 0 2 2) "rock" 1 0 true emptyMap).

(** One cell painted at height 1 and elevation 5. *)
Definition oneCell : HeightMap :=
  snd (paintCells [(0, 0)%Z] "rock" 1 5 true emptyMap).

Definition erased : HeightMap := snd (eraseCells [(0, 0)%Z] oneCell).

Definition undone : HeightMap := snd (undo erased).

(** Fifteen paint calls, each on a cell of its own. *)
Definition fifteenPaints : list Mutation :=
  map (fun n => PaintCells [(0%Z, Z.of_nat n)] "rock" 1 0 true) (seq 0 15).


(** The painted block with its cell (0, 0) erased again: two history
    entries, three cells. *)
Definition erasedOne : HeightMap := snd (eraseCells [(0, 0)%Z] painted).


(** A stand-in for the sweep of [getIntersectionsOfShape]: one region over
    the whole ray. *)
Definition wholeRay (_ : HeightMapShape) (p1 p2 : Point3) (_ : bool)
  : list LineOfSightIntersectionRegion :=
  [ {| r_start := {| r_x := p_x p1; r_y := p_y p1; r_h := p_h p1; t := 0 |};
       r_end := {| r_x := p_x p2; r_y := p_y p2; r_h := p_h p2; t := 1 |};
       skimmed := false |} ].


(** The one shape of the painted block. *)
Definition paintedShape : HeightMapShape :=
  match shapes painted with
  | shape :: _ => shape
  | [] => solidShape "" None None []
  end.

Definition rayStart : Point3 := {| p_x := 0; p_y := 50; p_h := 1 # 2 |}.
Definition rayEnd : Point3 := {| p_x := 300; p_y := 50; p_h := 1 # 2 |}.


(** The example of the spec: a shape from elevation 0 to 3 met over
    [0, 3/4] of the ray and a shape from elevation 2 to 5 met over [1/4, 1]. *)
Definition lowShape : HeightMapShape :=
  {| polygon := []; holes := []; shape_terrainTypeId := "rock";
     shape_height := Some 3; shape_elevation := Some 0 |}.

Definition highShape : HeightMapShape :=
  {| polygon := []; holes := []; shape_terrainTypeId := "fog";
     shape_height := Some 3; shape_elevation := Some 2 |}.

Definition at_ (t' : Q) : RegionPoint :=
  {| r_x := 400 * t'; r_y := 50; r_h := 1; t := t' |}.

Definition overlapping : list ShapeRegions :=
  [ (lowShape, [ {| r_start := at_ 0; r_end := at_ (3 # 4); skimmed := false |} ]);
    (highShape, [ {| r_start := at_ (1 # 4); r_end := at_ 1; skimmed := true |} ]) ].


(** A square and a triangle drawn over one side of it in the same
    direction: the side is cancelled as if it were shared, and what is left
    is no union of closed loops. *)
Definition overlappingPolygons : list (Position * list Point) :=
  [ ((0, 0)%Z, [ mkPoint 0 0; mkPoint 100 0; mkPoint 100 100; mkPoint 0 100 ]);
    ((0, 0)%Z, [ mkPoint 0 0; mkPoint 100 0; mkPoint 50 (-50) ]) ].

(** A square that runs counter-clockwise: a hole and nothing around it. *)
Definition loneHole : list (Position * list Point) :=
  [ ((0, 0)%Z, [ mkPoint 0 0; mkPoint 0 100; mkPoint 100 100; mkPoint 100 0 ]) ].

(** A grid adapter that hands out its cells counter-clockwise. *)
Definition mirroredGrid : Grid := {|
  gridless := false;
  isHex := false;
  grid_w := cellSize;
  grid_h := cellSize;
  canvasWidth := 1000;
  canvasHeight := 1000;
  getGridCellPolygon := fun row col =>
    [ corner row col; corner (row + 1) col; corner (row + 1) (col + 1); corner row (col + 1) ];
  getNeighbors := fun _ _ => [];
  getPixelsFromGridPosition := fun row col => (inject_Z col * cellSize, inject_Z row * cellSize)
|}.


(** The cells on the border of the square of [n] by [n] cells whose top left
    cell is [(row0, col0)]. *)
Definition ringCells (row0 col0 : Z) (n : nat) : list Position :=
  filter (fun p => (fst p =? row0)%Z || (fst p =? row0 + Z.of_nat n - 1)%Z
                   || (snd p =? col0)%Z || (snd p =? col0 + Z.of_nat n - 1)%Z)
    (flat_map (fun r => map (fun c => (row0 + Z.of_nat r, col0 + Z.of_nat c)%Z) (seq 0 n))
              (seq 0 n)).

(** A ring of seven by seven cells around a ring of three by three cells,
    the inner ring starting at column [col]: the inner ring has the cell
    [(3, col + 1)] as its hole. *)
Definition nestedRings (col : Z) : list Position :=
  ringCells 0 (col - 2) 7 ++ ringCells 2 col 3.

Definition nestedMap (col : Z) : HeightMap :=
  snd (paintCells (nestedRings col) "rock" 1 0 true emptyMap).

(** A shape by the first vertex of its boundary and of each of its holes. *)
Definition firstVertices (shape : HeightMapShape) : option Point * list (option Point) :=
  (hd_error (polygon shape), map (@hd_error Point) (holes shape)).

(** Where the boundary of each shape meets the horizontal line of height
    [y0]. *)
Definition boundaryCrossings (y0 : Q) (shape : HeightMapShape) : list Q :=
  flat_map (fun edge => match intersectsYAt edge y0 with
                        | Some v => [v]
                        | None => []
                        end)
           (edges (polygon shape)).

(** The hole of the inner ring: the cell [(3, col + 1)], counter-clockwise
    from its top right corner. *)
Definition innerHole (col : Z) : list Point :=
  [ corner 3 (col + 2); corner 3 (col + 1); corner 4 (col + 1); corner 4 (col + 2) ].


(** Cells painted out of order, one of them erased, the erase undone. *)
Definition scrambled : list Mutation :=
  [ PaintCells [(2, 1); (0, 3); (1, 0); (0, 1)]%Z "rock" 1 0 true;
    PaintCells [(1, 2); (0, 0)]%Z "fog" 0 0 true;
    EraseCells [(1, 0)]%Z;
    Undo ].



(** The cells of the canvas and the ring of cells around it that still
    pass the four tests of [#findFillCells]: rows and columns -1 to 9. *)
Definition canvasLine : list Z := map (fun n => (Z.of_nat n - 1)%Z) (seq 0 11).

Definition canvasCells : list Position :=
  flat_map (fun row => map (fun col => (row, col)) canvasLine) canvasLine.



(** The sides of the cell [(0, 0)], clockwise from its top left corner, the
    last three out of order. *)
Definition topSide : Segment := {| sp1 := corner 0 0; sp2 := corner 0 1; scw := true |}.
Definition rightSide : Segment := {| sp1 := corner 0 1; sp2 := corner 1 1; scw := true |}.
Definition bottomSide : Segment := {| sp1 := corner 1 1; sp2 := corner 1 0; scw := true |}.
Definition leftSide : Segment := {| sp1 := corner 1 0; sp2 := corner 0 0; scw := true |}.

(** A ring of three by three cells around the cell [(1, 1)]. *)
Definition ringMap : HeightMap :=
  snd (paintCells (ringCells 0 0 3) "rock" 1 0 true emptyMap).



(** A square boundary of five by five cells from the corner [(1, 1)], a
    square boundary of three by three cells inside it, and a hole of one
    cell inside both. *)
Definition outerBoundary : Polygon :=
  [ corner 1 1; corner 1 6; corner 6 6; corner 6 1 ].
Definition innerBoundary : Polygon :=
  [ corner 2 2; corner 2 5; corner 5 5; corner 5 2 ].
Definition cellHole : Polygon :=
  [ corner 3 4; corner 3 3; corner 4 3; corner 4 4 ].

Definition twoBoundaries : list HeightMapShape :=
  [ solidShape "rock" (Some 1) (Some 0) outerBoundary;
    solidShape "rock" (Some 1) (Some 0) innerBoundary ].



(** A layer at rest over the painted block, with rock of height 2 at
    elevation 3 selected. *)
Definition idleLayer : TerrainHeightLayer :=
  {| _heightMap := painted;
     _pendingTool := None;
     _pendingChanges := [];
     _selectedPaintingTerrainTypeId := Some "rock"%string;
     _selectedPaintingHeight := Some 2;
     _selectedPaintingElevation := Some 3;
     graphicsCalls := [] |}.

(** The same with the values of the block selected. *)
Definition blockLayer : TerrainHeightLayer :=
  {| _heightMap := painted;
     _pendingTool := None;
     _pendingChanges := [];
     _selectedPaintingTerrainTypeId := Some "rock"%string;
     _selectedPaintingHeight := Some 1;
     _selectedPaintingElevation := Some 5;
     graphicsCalls := [] |}.

(** Stand-ins for the calls with NaN, which the examples never make. *)
Definition noPaint : list Position -> string -> num -> num -> M HeightMap bool :=
  fun _ _ _ _ => ret false.
Definition noFill : Position -> string -> num -> num -> M HeightMap value :=
  fun _ _ _ _ => ret (VBool false).


End SquareWorld.

(** ** Predicates of the statements *)

Unset Implicit Arguments.


(** The cell is what the item recorded for its position. *)
Definition recordedBy (r : HistoryItem) (c : Cell) : Prop :=
  h_position r = position c
  /\ h_terrainTypeId r = Some (terrainTypeId c)
  /\ h_height r = height c
  /\ h_elevation r = elevation c.

Section DistinctKeys.
Variables (A K : Type).
Variable keyEq : K -> K -> bool.
Variable key : A -> K.

(** No element has the key of an earlier one. *)
Fixpoint distinctKeys (l : list A) : Prop :=
  match l with
  | [] => True
  | a :: l' => Forall (fun b => keyEq (key a) (key b) = false) l' /\ distinctKeys l'
  end.

End DistinctKeys.

Definition byT (a b : RegionPoint) : bool := Qltb (t a) (t b).

(** Strictly ascending [t]. *)
Definition ascending (l : list RegionPoint) : Prop :=
  StronglySorted (fun a b => t a < t b) l.

Section Extremes.
Variable X : Type.
Variable f : X -> num.



End Extremes.

(** [a] comes before [b] when its crossing lies further right. *)
Definition furtherRight (a b : Q * nat) : bool := Qltb (fst b) (fst a).

Section StatementsOnTheMap.
Context {TC : TerrainCatalog} {GE : Geometry} {GR : Grid}.

(** The error of the builder for an orphaned hole: the no-parent error,
    unless an earlier hole has no vertex at the top of its bounding box. *)
Definition orphanError (holePolygons : list Polygon) (e : exn) : Prop :=
  e = Error msgNoParent
  \/ (e = TypeError /\ exists h, In h holePolygons /\ testPointOf h = None).

(** The terrain type of the cell is in the catalogue: what [#saveChanges]
    keeps. *)
Definition available (c : Cell) : bool :=
  existsb (String.eqb (terrainTypeId c)) (map tt_id getTerrainTypes).

End StatementsOnTheMap.

(** At most one cell per position. *)
Definition onePerPosition (d : list Cell) : Prop := NoDup (map position d).

(** The cells come by ascending row and, within a row, by ascending
    column: no cell is before an earlier one for the comparator of
    [#sortData]. *)
Definition sortedStore (d : list Cell) : Prop :=
  StronglySorted (fun a b => positionBefore b a = false) d.

Section StoreStatements.
Context {TC : TerrainCatalog}.

(** Every cell has a terrain type of the catalogue. *)
Definition allAvailable (d : list Cell) : Prop :=
  forall c, In c d -> available c = true.

End StoreStatements.


(** The test of line 114: the cell already has the requested terrain type,
    height and elevation. *)
Definition paintedAs (terrainTypeId' : string) (height' elevation' : Q) (c : Cell) : bool :=
  String.eqb (terrainTypeId c) terrainTypeId'
  && strict_eq (height c) (Some height')
  && strict_eq (elevation c) (Some elevation').

(** A position reads a cell of that position with the painted values. *)
Definition readsPainted (tid : string) (h e : Q) (d : list Cell) (q : Position) : Prop :=
  exists c, get d q = Some c /\ paintedAs tid h e c = true.

(** The values pass the validation of [paintCells] for the terrain type. *)
Definition validPaint (terrainType : TerrainType) (height' elevation' : Q) : Prop :=
  usesHeight terrainType = true -> 0 < height' /\ 0 <= elevation'.


(** The history item holds what the position read in the store [d0]:
    terrain type, height and elevation of its cell, or no terrain type when
    it had none. *)
Definition priorOf (d0 : list Cell) (r : HistoryItem) : Prop :=
  match get d0 (h_position r) with
  | Some c0 =>
      h_terrainTypeId r = Some (terrainTypeId c0)
      /\ h_height r = height c0
      /\ h_elevation r = elevation c0
  | None => h_terrainTypeId r = None
  end.

(** What the loop of [paintCells] keeps true of the pending cells [d] and
    of the history entry under construction, from the store [d0]. *)
Definition paintInvariant {TC : TerrainCatalog} (tid : string) (h e : Q)
  (d0 d : list Cell) (history : HistoryEntry) : Prop :=
  onePerPosition d
  /\ allAvailable d
  /\ NoDup (map h_position history)
  /\ (forall q, ~ In q (map h_position history) -> get d q = get d0 q)
  /\ (forall r, In r history -> readsPainted tid h e d (h_position r) /\ priorOf d0 r).

(** What the loop of [undo] keeps true while it reverts the items [todo] of
    an entry, the items [done] being reverted. *)
Definition revertInvariant (d0 d : list Cell) (done todo : HistoryEntry) : Prop :=
  onePerPosition d
  /\ (forall q, ~ In q (map h_position (done ++ todo)) -> get d q = get d0 q)
  /\ (forall r, In r todo -> get d (h_position r) <> None /\ priorOf d0 r)
  /\ (forall r, In r done -> get d (h_position r) = get d0 (h_position r)).


Section FillStatements.
Context {GR : Grid}.

(** The region of a fill: the start cell, and every neighbour on the canvas
    of a cell of the region that has the configuration of the start cell
    (terrain type, height and elevation, or none of them). *)
Inductive fillRegion (d : list Cell) (startCell : Position) : Position -> Prop :=
| region_start : fillRegion d startCell startCell
| region_step (c n : Position) :
    fillRegion d startCell c ->
    In n (getNeighboringFillCells c) ->
    onCanvas n = true ->
    sameConfig (configAt d n) (configAt d startCell) = true ->
    fillRegion d startCell n.

(** The canvas has finitely many cells, those of [universe]. *)
Definition finiteCanvas (universe : list Position) : Prop :=
  forall p, onCanvas p = true -> In p universe.

(** No cell has more than [k] neighbours. *)
Definition neighboursAtMost (k : nat) : Prop :=
  forall p, (List.length (getNeighboringFillCells p) <= k)%nat.

(** Rounds enough for the walk on such a canvas: one for the start cell,
    and [k] for every cell that can be visited. *)
Definition fillFuel (universe : list Position) (k : nat) : nat :=
  1 + k * (1 + List.length universe).

(** The cells of [universe] that the walk has not visited. *)
Definition unvisited (universe visitedCells : list Position) : list Position :=
  filter (fun p => negb (existsb (position_eqb p) visitedCells)) universe.

(** What the [while] of [#findFillCells] keeps true of its queue, of the
    visited cells and of the cells found. *)
Definition fillInvariant (d : list Cell) (startCell : Position)
  (visitQueue visitedCells cellsToPaint : list Position) : Prop :=
  NoDup cellsToPaint
  /\ (forall c, In c cellsToPaint -> In c visitedCells /\ fillRegion d startCell c)
  /\ (forall c, In c visitedCells ->
        sameConfig (configAt d c) (configAt d startCell) = true -> In c cellsToPaint)
  /\ (forall c n, In c cellsToPaint -> In n (getNeighboringFillCells c) ->
        onCanvas n = true -> In n visitedCells \/ In n visitQueue)
  /\ (forall c, In c visitQueue ->
        c = startCell
        \/ exists c', fillRegion d startCell c'
                      /\ In c (getNeighboringFillCells c') /\ onCanvas c = true)
  /\ (In startCell visitedCells \/ In startCell visitQueue)
  /\ ((cellsToPaint = [] /\ visitedCells = [] /\ exists q, visitQueue = startCell :: q)
      \/ exists rest, cellsToPaint = startCell :: rest).

End FillStatements.


Section BuilderStatements.
Context {GE : Geometry}.

(** No edge equals a later one: what the loop of lines 242-251 is for. *)
Fixpoint noLaterEqual (l : list LineSegment) : Prop :=
  match l with
  | [] => True
  | e :: rest => (forall e', In e' rest -> seg_equals e e' = false) /\ noLaterEqual rest
  end.

(** Every edge starts where the edge before it ends. *)
Fixpoint chained (l : list LineSegment) : Prop :=
  match l with
  | [] => True
  | a :: rest =>
      match rest with
      | [] => True
      | b :: _ => point_equals (p1 b) (p2 a) = true
      end
      /\ chained rest
  end.

(** The shape has the given terrain type, height and elevation. *)
Definition carries (terrainTypeId' : string) (height' elevation' : num)
  (shape : HeightMapShape) : Prop :=
  shape_terrainTypeId shape = terrainTypeId'
  /\ shape_height shape = height'
  /\ shape_elevation shape = elevation'.

End BuilderStatements.


Section FlattenerOrder.
Context {GE : Geometry}.

(** The entry [e] ends before or where the entry [e'] starts. *)
Definition precedes (e e' : FlatRegion) : Prop :=
  match f_start e' with
  | Some a => t (f_end e) <= t a
  | None => False
  end.

End FlattenerOrder.


Section LineOfSightStatements.
Context {TC : TerrainCatalog} {GE : Geometry}.

(** The terrain type of the shape exists and uses height. *)
Definition shapeUsesHeight (shape : HeightMapShape) : bool :=
  match getTerrainType (shape_terrainTypeId shape) with
  | Some terrainType => usesHeight terrainType
  | None => false
  end.

End LineOfSightStatements.


(** What the handlers keep true of the pending cells: no cell is pending
    twice, and cells are pending only while a paint or an erase stroke is
    under way. *)
Definition pendingInvariant {GE : Geometry} (l : TerrainHeightLayer) : Prop :=
  NoDup (_pendingChanges l)
  /\ (_pendingChanges l <> [] ->
      _pendingTool l = Some Paint \/ _pendingTool l = Some Erase).


(** * Properties *)

(** ** Rationals as booleans *)

Lemma Qltb_lt (a b : Q) : Qltb a b = true <-> a < b.
Proof.
  unfold Qltb. rewrite negb_true_iff.
  split; intro H.
  - apply Qnot_le_lt. intro Hle. apply Qle_bool_iff in Hle. congruence.
  - destruct (Qle_bool b a) eqn:E; [|reflexivity].
    apply Qle_bool_iff in E. exfalso. exact (Qlt_not_le _ _ H E).
Qed.

Lemma Qltb_ge (a b : Q) : Qltb a b = false <-> b <= a.
Proof.
  unfold Qltb. rewrite negb_false_iff. apply Qle_bool_iff.
Qed.

Lemma Qle_bool_false (a b : Q) : Qle_bool a b = false <-> b < a.
Proof.
  rewrite <- Qltb_lt. unfold Qltb. rewrite negb_true_iff. reflexivity.
Qed.

Lemma position_eqb_eq (a b : Position) : position_eqb a b = true <-> a = b.
Proof.
  unfold position_eqb. destruct a, b; simpl.
  rewrite andb_true_iff, !Z.eqb_eq. split.
  - intros [-> ->]. reflexivity.
  - intros H. inversion H. auto.
Qed.

Lemma position_eqb_refl (a : Position) : position_eqb a a = true.
Proof. apply position_eqb_eq. reflexivity. Qed.

(** ** Validation in [paintCells] *)

Section PaintValidation.
Context {TC : TerrainCatalog} {GE : Geometry} {GR : Grid}.

(** C4. When the terrain type uses height and the requested height is not
    positive or the requested elevation is negative, [paintCells] throws a
    validation error and the instance is exactly what it was: same cells,
    same history, same shapes. *)
Theorem paintCells_invalid_throws_untouched
  (cells : list Position) (terrainTypeId' : string) (height' elevation' : Q)
  (overwrite : bool) (terrainType : TerrainType) (s : HeightMap) :
  getTerrainType terrainTypeId' = Some terrainType ->
  usesHeight terrainType = true ->
  height' <= 0 \/ elevation' < 0 ->
  exists msg,
    paintCells cells terrainTypeId' height' elevation' overwrite s = (Throw (Error msg), s)
    /\ (msg = msgHeight \/ msg = msgElevation).
Proof.
  intros Hget Huses Hbad. unfold paintCells. rewrite Hget, Huses. simpl.
  destruct (Qle_bool height' 0) eqn:Eh.
  - exists msgHeight. split; [reflexivity | now left].
  - destruct Hbad as [Hh | He].
    + apply Qle_bool_iff in Hh. congruence.
    + apply Qltb_lt in He. rewrite He.
      exists msgElevation. split; [reflexivity | now right].
Qed.

End PaintValidation.

Module PaintValidationExamples.
Import SquareWorld.

(** The rule at work: a height of zero for a terrain type that uses height,
    on a map that already holds a painted block. *)
Lemma paintCells_invalid_throws_untouched_witness :
  let s := snd (paintCells (block 0 0 2 2) "rock" 1 0 true emptyMap) in
  exists msg,
    paintCells [(5, 5)%Z] "rock" 0 0 true s = (Throw (Error msg), s)
    /\ (msg = msgHeight \/ msg = msgElevation).
Proof.
  intro s.
  apply paintCells_invalid_throws_untouched
    with (terrainType := {| tt_id := "rock"; usesHeight := true |}).
  - reflexivity.
  - reflexivity.
  - left. unfold Qle. simpl. lia.
Defined.

End PaintValidationExamples.

(** ** The early return of [fillCells] *)

Section FillNoOp.
Context {TC : TerrainCatalog} {GE : Geometry} {GR : Grid}.

(** C10. When the start cell already has the requested terrain type and the
    requested height, [fillCells] stops at its first test: no cell changes,
    no history entry is pushed and the shapes are not recomputed, whatever
    the requested elevation is. *)
Theorem fillCells_same_type_and_height_is_noop
  (fuel : nat) (startCell : Position) (terrainTypeId' : string)
  (height' elevation' : Q) (s : HeightMap) (c : Cell) :
  get (data s) startCell = Some c ->
  terrainTypeId c = terrainTypeId' ->
  strict_eq (height c) (Some height') = true ->
  fillCells fuel startCell terrainTypeId' height' elevation' s = (Ok (VArray []), s).
Proof.
  intros Hget Htid Hh. unfold fillCells, bind, gets. simpl.
  rewrite Hget. simpl. rewrite Htid, String.eqb_refl, Hh. reflexivity.
Qed.

End FillNoOp.

Module FillExamples.
Import SquareWorld.

(** Filling it with the same type and height at elevation 5 does nothing. *)
Lemma fillCells_same_type_and_height_is_noop_witness :
  fillCells 64 (0, 0)%Z "rock" 1 5 painted = (Ok (VArray []), painted)
  /\ option_map elevation (get (data painted) (0, 0)%Z) = Some (Some 0).
Proof.
  split.
  - apply fillCells_same_type_and_height_is_noop
      with (c := {| position := (0, 0)%Z; terrainTypeId := "rock";
                    height := Some 1; elevation := Some 0 |});
      reflexivity.
  - reflexivity.
Defined.

(** C8, at the input where it fails: the early return of [fillCells] hands
    back an empty array, which is no boolean (and is truthy) although nothing
    changed. *)
Theorem fillCells_early_return_is_an_array :
  fst (fillCells 64 (0, 0)%Z "rock" 1 0 painted) = Ok (VArray [])
  /\ (forall b : bool, fst (fillCells 64 (0, 0)%Z "rock" 1 0 painted) <> Ok (VBool b))
  /\ snd (fillCells 64 (0, 0)%Z "rock" 1 0 painted) = painted.
Proof.
  assert (E : fillCells 64 (0, 0)%Z "rock" 1 0 painted = (Ok (VArray []), painted))
    by reflexivity.
  rewrite E. simpl. repeat split. intros b H. discriminate H.
Qed.

End FillExamples.

(** ** Erase, then undo *)

Module EraseUndoExamples.
Import SquareWorld.

(** C2, at the input where it fails: the history item written by
    [eraseCells] has no elevation, so the cell that [undo] puts back has its
    terrain type and height but an undefined elevation instead of 5. *)
Theorem erase_then_undo_loses_elevation :
  get (data oneCell) (0, 0)%Z
    = Some {| position := (0, 0)%Z; terrainTypeId := "rock";
              height := Some 1; elevation := Some 5 |}
  /\ fst (eraseCells [(0, 0)%Z] oneCell) = Ok true
  /\ get (data erased) (0, 0)%Z = None
  /\ fst (undo erased) = Ok true
  /\ get (data undone) (0, 0)%Z
    = Some {| position := (0, 0)%Z; terrainTypeId := "rock";
              height := Some 1; elevation := None |}.
Proof. repeat split; reflexivity. Qed.

End EraseUndoExamples.

(** ** The history stack *)

Section History.
Context {TC : TerrainCatalog} {GE : Geometry} {GR : Grid}.


Lemma limitHistory_short (h : list HistoryEntry) :
  (List.length h <= maxHistoryItems)%nat -> limitHistory h = h.
Proof.
  destruct h as [|a h]; [reflexivity|]. intro H.
  cbn [limitHistory]. destruct (maxHistoryItems <? List.length (a :: h))%nat eqn:E.
  - apply Nat.ltb_lt in E. lia.
  - reflexivity.
Qed.


(** *** What each piece does to the history *)

Lemma forEach_frame (A : Type) (f : A -> M HeightMap unit) (l : list A) :
  (forall a s, data (snd (f a s)) = data s /\ _history (snd (f a s)) = _history s) ->
  forall s, data (snd (forEach f l s)) = data s
            /\ _history (snd (forEach f l s)) = _history s.
Proof.
  intros Hf. induction l as [|a l IH]; intro s; [split; reflexivity|].
  simpl. unfold bind. destruct (f a s) as [[u|e] s1] eqn:E.
  - destruct (IH s1) as [H1 H2]. pose proof (Hf a s) as [H3 H4].
    rewrite E in H3, H4. simpl in *. split; congruence.
  - pose proof (Hf a s) as [H3 H4]. rewrite E in H3, H4. exact (conj H3 H4).
Qed.

Lemma recalculateGroup_frame (cells : list Cell) (s : HeightMap) :
  data (snd (recalculateGroup cells s)) = data s
  /\ _history (snd (recalculateGroup cells s)) = _history s.
Proof.
  unfold recalculateGroup. destruct cells as [|c cells]; [split; reflexivity|].
  unfold bind, lift, modify.
  destruct (combinePolygons _ _ _ _); split; reflexivity.
Qed.

Lemma recalculateShapes_frame (s : HeightMap) :
  data (snd (_recalculateShapes s)) = data s
  /\ _history (snd (_recalculateShapes s)) = _history s.
Proof.
  unfold _recalculateShapes, bind, modify, gets. simpl.
  destruct gridless; [split; reflexivity|].
  apply (forEach_frame _ (fun g => recalculateGroup (snd g))
           (groupBy groupKeyEq groupKey (data s))
           (fun a s' => recalculateGroup_frame (snd a) s')
           (setShapes [] s)).
Qed.

Lemma commit_nonempty (i : HistoryItem) (history : HistoryEntry) (s : HeightMap) :
  commit (i :: history) s
  = match _recalculateShapes (committed (i :: history) s) with
    | (Ok _, s1) => (Ok true, s1)
    | (Throw e, s1) => (Throw e, s1)
    end.
Proof.
  unfold commit, committed, bind, when, nonEmpty, pushHistory, saveChanges, modify, ret.
  cbn [fst snd].
  destruct (_recalculateShapes _) as [[u|e] s1]; reflexivity.
Qed.

Lemma commit_history (history : HistoryEntry) (s : HeightMap) :
  match history with
  | [] => commit history s = (Ok false, s)
  | _ =>
      _history (snd (commit history s)) = limitHistory (_history s ++ [history])
      /\ (forall b, fst (commit history s) = Ok b -> b = true)
  end.
Proof.
  destruct history as [|i history]; [reflexivity|].
  rewrite commit_nonempty.
  pose proof (recalculateShapes_frame (committed (i :: history) s)) as [_ Hh].
  destruct (_recalculateShapes _) as [[u|e] s1]; cbn [fst snd] in *.
  - split; [exact Hh|]. intros b Hb. inversion Hb. reflexivity.
  - split; [exact Hh|]. intros b Hb. discriminate Hb.
Qed.

Lemma paintCells_unfold (cells : list Position) (tid : string) (h e : Q)
  (overwrite : bool) (terrainType : TerrainType) (s : HeightMap) :
  getTerrainType tid = Some terrainType ->
  (usesHeight terrainType && Qle_bool h 0 = false) ->
  (usesHeight terrainType && Qltb e 0 = false) ->
  paintCells cells tid h e overwrite s
  = let '(d', history, anyAdded) :=
      fold_left (paintCell tid h e overwrite) cells (data s, [], false) in
    commit history
      (setData (if anyAdded then sort positionBefore d' else d') s).
Proof.
  intros Hget H1 H2. unfold paintCells. rewrite Hget, H1, H2.
  unfold bind at 1. unfold gets. cbn [fst snd].
  destruct (fold_left _ cells _) as [[d' history] anyAdded].
  unfold commit, bind, modify, when, sortData, setData. simpl.
  destruct anyAdded; reflexivity.
Qed.

Lemma eraseCells_unfold (cells : list Position) (s : HeightMap) :
  eraseCells cells s
  = let '(d', history) := fold_left eraseCell cells (data s, []) in
    commit history (setData d' s).
Proof.
  unfold eraseCells. unfold bind at 1. unfold gets. cbn [fst snd].
  destruct (fold_left _ cells _) as [d' history].
  unfold commit, bind, modify. reflexivity.
Qed.

End History.

Section HistoryOfOperations.
Context {TC : TerrainCatalog} {GE : Geometry} {GR : Grid}.



Lemma paintCells_cases (cells : list Position) (tid : string) (h e : Q)
  (overwrite : bool) (s : HeightMap) :
  (exists x, paintCells cells tid h e overwrite s = (Throw x, s))
  \/ (exists history d', paintCells cells tid h e overwrite s
                          = commit history (setData d' s)).
Proof.
  destruct (getTerrainType tid) as [terrainType|] eqn:Hget.
  2:{ left. exists TypeError. unfold paintCells. rewrite Hget. reflexivity. }
  destruct (usesHeight terrainType && Qle_bool h 0) eqn:H1.
  { left. exists (Error msgHeight). unfold paintCells. rewrite Hget, H1. reflexivity. }
  destruct (usesHeight terrainType && Qltb e 0) eqn:H2.
  { left. exists (Error msgElevation). unfold paintCells. rewrite Hget, H1, H2. reflexivity. }
  right. rewrite (paintCells_unfold cells tid h e overwrite terrainType s Hget H1 H2).
  destruct (fold_left _ cells _) as [[d' history] anyAdded]. eauto.
Qed.






Lemma asValue_snd (c : M HeightMap bool) (s : HeightMap) :
  snd (asValue c s) = snd (c s).
Proof.
  unfold asValue, bind, ret. destruct (c s) as [[b'|x] s']; reflexivity.
Qed.

Lemma fillCells_cases (fuel : nat) (startCell : Position) (tid : string) (h e : Q)
  (s : HeightMap) :
  (exists r, fillCells fuel startCell tid h e s = (r, s) /\ r <> Ok (VBool true))
  \/ (exists cells, fillCells fuel startCell tid h e s
                    = asValue (paintCells cells tid h e true) s).
Proof.
  unfold fillCells, asValue, bind, gets, lift. cbn beta iota.
  match goal with |- context [if ?c then _ else _] => destruct c end.
  { left. eexists. split; [reflexivity | discriminate]. }
  destruct (findFillCells fuel (data s) startCell) as [[|c cells]|x].
  - left. eexists. split; [reflexivity | discriminate].
  - right. exists (c :: cells). reflexivity.
  - left. eexists. split; [reflexivity | discriminate].
Qed.

Lemma eraseFillCells_cases (fuel : nat) (startCell : Position) (s : HeightMap) :
  (exists r, eraseFillCells fuel startCell s = (r, s) /\ r <> Ok true)
  \/ (exists cells, eraseFillCells fuel startCell s = eraseCells cells s).
Proof.
  unfold eraseFillCells, bind, gets, lift. cbn beta iota.
  destruct (findFillCells fuel (data s) startCell) as [[|c cells]|x].
  - left. eexists. split; [reflexivity | discriminate].
  - right. exists (c :: cells). reflexivity.
  - left. eexists. split; [reflexivity | discriminate].
Qed.

Lemma clear_history (s : HeightMap) : _history (snd (clear s)) = _history s.
Proof.
  unfold clear, bind, gets, modify, saveChanges, ret. simpl.
  destruct (data s); reflexivity.
Qed.

Lemma undo_empty (s : HeightMap) : _history s = [] -> undo s = (Ok false, s).
Proof.
  intro H. unfold undo, bind, gets. simpl. rewrite H. reflexivity.
Qed.

Lemma undo_history (s : HeightMap) : _history (snd (undo s)) = removelast (_history s).
Proof.
  unfold undo. unfold bind at 1. unfold gets. cbn [fst snd].
  destruct (_history s) as [|first h] eqn:E; [simpl; now rewrite E|].
  unfold bind, modify, gets. cbn [fst snd].
  destruct (fold_left revertItem _ _) as [d' anyAdded].
  destruct anyAdded; reflexivity.
Qed.





End HistoryOfOperations.

Section HistoryBound.
Context {TC : TerrainCatalog} {GE : Geometry} {GR : Grid}.



End HistoryBound.

Module HistoryExamples.
Import SquareWorld.



End HistoryExamples.

(** ** [clear] and the history *)

Section ClearThenUndo.
Context {TC : TerrainCatalog} {GE : Geometry} {GR : Grid}.

Lemma In_removeAt (A : Type) (i : nat) (l : list A) (a : A) :
  In a (removeAt i l) -> In a l.
Proof.
  revert i. induction l as [|b l IH]; intros i H; [destruct i; exact H|].
  destruct i as [|i]; simpl in H.
  - now right.
  - destruct H as [H|H]; [now left | right; exact (IH _ H)].
Qed.

Lemma In_updateAt (A : Type) (p : A -> bool) (f : A -> A) (l : list A) (i : nat) (a : A) :
  findIndex p l = Some i ->
  In a (updateAt i f l) ->
  In a l \/ exists b, In b l /\ p b = true /\ a = f b.
Proof.
  revert i. induction l as [|b l IH]; intros i Hi H; [discriminate|].
  simpl in Hi. destruct (p b) eqn:Epb.
  - inversion Hi; subst i. simpl in H. destruct H as [H|H].
    + right. exists b. repeat split; [now left | exact Epb | now symmetry].
    + left. now right.
  - destruct (findIndex p l) as [j|] eqn:Ej; [|discriminate].
    inversion Hi; subst i. simpl in H. destruct H as [H|H].
    + left. now left.
    + destruct (IH j eq_refl H) as [H'|[c [Hc [Hpc Hac]]]].
      * left. now right.
      * right. exists c. repeat split; [now right | exact Hpc | exact Hac].
Qed.

Lemma In_insert (A : Type) (before : A -> A -> bool) (a b : A) (l : list A) :
  In b (insert before a l) <-> b = a \/ In b l.
Proof.
  induction l as [|c l IH]; simpl.
  - intuition.
  - destruct (before c a); simpl; rewrite ?IH; intuition.
Qed.

Lemma In_sort (A : Type) (before : A -> A -> bool) (b : A) (l : list A) :
  In b (sort before l) <-> In b l.
Proof.
  induction l as [|c l IH]; simpl; [reflexivity|].
  rewrite In_insert, IH. intuition.
Qed.

Lemma revertItems_recorded (entry items : HistoryEntry) (d : list Cell) (anyAdded : bool) :
  incl items entry ->
  (forall c, In c d -> exists r, In r entry /\ recordedBy r c) ->
  forall c, In c (fst (fold_left revertItem items (d, anyAdded))) ->
            exists r, In r entry /\ recordedBy r c.
Proof.
  revert d anyAdded. induction items as [|r items IH]; intros d anyAdded Hincl Hd;
    [exact Hd|].
  cbn [fold_left].
  assert (Hr : In r entry) by (apply Hincl; now left).
  assert (Hincl' : incl items entry) by (intros i Hi; apply Hincl; now right).
  unfold revertItem at 2.
  destruct (h_terrainTypeId r) as [tid|] eqn:Et;
    destruct (findIndex (samePosition (h_position r)) d) as [idx|] eqn:Ei.
  - apply IH; [exact Hincl'|]. intros c Hc.
    destruct (In_updateAt _ _ _ _ _ _ Ei Hc) as [H|[b [Hb [Hpb Hcb]]]]; [now apply Hd|].
    exists r. split; [exact Hr|]. subst c. unfold recordedBy, restoredCell. simpl.
    apply position_eqb_eq in Hpb. repeat split; auto.
  - apply IH; [exact Hincl'|]. intros c Hc. apply in_app_or in Hc.
    destruct Hc as [Hc|[Hc|[]]]; [now apply Hd|].
    exists r. split; [exact Hr|]. subst c. unfold recordedBy, restoredCell. simpl.
    repeat split; auto.
  - apply IH; [exact Hincl'|]. intros c Hc. apply Hd. exact (In_removeAt _ _ _ _ Hc).
  - apply IH; [exact Hincl' | exact Hd].
Qed.

Lemma clear_data (s : HeightMap) : data (snd (clear s)) = [].
Proof.
  unfold clear, bind, gets, modify, saveChanges, ret. simpl.
  destruct (data s) eqn:E; simpl; [exact E | reflexivity].
Qed.

Lemma undo_unfold (s : HeightMap) (h : list HistoryEntry) (entry : HistoryEntry) :
  _history s = h ++ [entry] ->
  undo s
  = (Ok true,
     snd (saveChanges
            (setData
               (let '(d', anyAdded) := fold_left revertItem entry (data s, false) in
                if anyAdded then sort positionBefore d' else d')
               (setHistory h s)))).
Proof.
  intro H. unfold undo. unfold bind at 1. unfold gets. cbn [fst snd]. rewrite H.
  destruct (h ++ [entry]) as [|first rest] eqn:E.
  { destruct h; discriminate. }
  rewrite <- E. rewrite removelast_last, last_last.
  unfold bind, modify, gets, saveChanges, sortData, when, ret. cbn [fst snd].
  destruct (fold_left revertItem entry _) as [d' anyAdded].
  destruct anyAdded; reflexivity.
Qed.

(** C9. [clear] leaves the history stack as it is.  An [undo] after it
    therefore answers [false] when the stack is empty, and otherwise pops the
    entry written by the last recorded mutation before the [clear] and
    applies it to the emptied store: every cell present afterwards is one
    that entry recorded as the prior assignment of its position, not a cell
    that [clear] removed. *)
Theorem clear_keeps_history_undo_reverts_older (s : HeightMap) :
  _history (snd (clear s)) = _history s
  /\ data (snd (clear s)) = []
  /\ (_history s = [] -> undo (snd (clear s)) = (Ok false, snd (clear s)))
  /\ (forall (h : list HistoryEntry) (entry : HistoryEntry),
        _history s = h ++ [entry] ->
        fst (undo (snd (clear s))) = Ok true
        /\ _history (snd (undo (snd (clear s)))) = h
        /\ forall c, In c (data (snd (undo (snd (clear s))))) ->
                     exists r, In r entry /\ recordedBy r c).
Proof.
  pose proof (clear_history s) as Hh. pose proof (clear_data s) as Hd.
  repeat split; try assumption.
  - intro He. apply undo_empty. congruence.
  - rewrite (undo_unfold _ h entry) by congruence. reflexivity.
  - rewrite (undo_unfold _ h entry) by congruence. reflexivity.
  - rewrite (undo_unfold _ h entry) by congruence.
    unfold saveChanges, modify. cbn [fst snd setData data]. rewrite Hd.
    intros c Hc. apply filter_In in Hc. destruct Hc as [Hc _].
    pose proof (revertItems_recorded entry entry [] false (incl_refl _)) as Hrec.
    destruct (fold_left revertItem entry ([], false)) as [d' anyAdded].
    apply Hrec; [intros c' []|]. cbn [fst].
    destruct anyAdded; [now apply In_sort in Hc | exact Hc].
Qed.

End ClearThenUndo.

Module ClearExamples.
Import SquareWorld.

(** After paint, erase of (0, 0) and [clear], an [undo] pops the entry of
    the erase: it puts (0, 0) back, and none of the three cleared cells. *)
Lemma clear_keeps_history_undo_reverts_older_witness :
  _history (snd (clear erasedOne)) = _history erasedOne
  /\ map position (data erasedOne) = [(0, 1); (1, 0); (1, 1)]%Z
  /\ fst (undo (snd (clear erasedOne))) = Ok true
  /\ List.length (_history (snd (undo (snd (clear erasedOne))))) = 1%nat
  /\ map position (data (snd (undo (snd (clear erasedOne))))) = [(0, 0)%Z].
Proof.
  destruct (clear_keeps_history_undo_reverts_older erasedOne) as (H1 & _ & _ & H4).
  destruct (H4 (removelast (_history erasedOne)) (last (_history erasedOne) []) eq_refl)
    as (Ha & Hb & _).
  split; [exact H1|]. split; [reflexivity|]. split; [exact Ha|].
  split; [rewrite Hb; reflexivity | reflexivity].
Defined.

End ClearExamples.

(** ** The pre-filter of the line of sight *)

Section LineOfSightFilter.
Context {TC : TerrainCatalog} {GE : Geometry} {GR : Grid}.
Variable sweepRegions :
  HeightMapShape -> Point3 -> Point3 -> bool -> list LineOfSightIntersectionRegion.

Lemma nonEmpty_true (A : Type) (l : list A) : nonEmpty l = true <-> l <> [].
Proof. destruct l; simpl; split; congruence. Qed.

(** C5. Whatever the sweep computes, an entry of the result of
    [calculateLineOfSight] is a shape of the map whose terrain type exists
    and either uses height or is let in by [includeNoHeightTerrain]; if it
    uses height, the two ends of the ray are not both above the top of the
    shape and not both below its elevation; and its region list, which is
    the one computed for the shape, is not empty. *)
Theorem calculateLineOfSight_entries_qualify
  (s : HeightMap) (p1 p2 : Point3) (includeNoHeightTerrain : bool)
  (shape : HeightMapShape) (regions : list LineOfSightIntersectionRegion) :
  In (shape, regions) (calculateLineOfSight sweepRegions s p1 p2 includeNoHeightTerrain) ->
  In shape (shapes s)
  /\ exists terrainType,
       getTerrainType (shape_terrainTypeId shape) = Some terrainType
       /\ (usesHeight terrainType = false -> includeNoHeightTerrain = true)
       /\ (usesHeight terrainType = true ->
           ~ (gt (Some (p_h p1)) (add (shape_elevation shape) (shape_height shape)) = true
              /\ gt (Some (p_h p2)) (add (shape_elevation shape) (shape_height shape)) = true)
           /\ ~ (lt (Some (p_h p1)) (shape_elevation shape) = true
                 /\ lt (Some (p_h p2)) (shape_elevation shape) = true))
       /\ regions = getIntersectionsOfShape sweepRegions shape p1 p2 (usesHeight terrainType)
       /\ regions <> [].
Proof.
  unfold calculateLineOfSight. intro H. apply in_flat_map in H.
  destruct H as [shape' [Hin H]]. unfold lineOfSightOfShape in H.
  destruct (getTerrainType (shape_terrainTypeId shape')) as [terrainType|] eqn:Et;
    [|destruct H].
  destruct (negb (usesHeight terrainType) && negb includeNoHeightTerrain) eqn:Ef;
    [destruct H|].
  destruct (nonEmpty _) eqn:En; [|destruct H].
  destruct H as [H|[]]. inversion H; subst shape' regions; clear H.
  split; [exact Hin|]. exists terrainType. split; [exact Et|].
  split.
  { intro Hu. rewrite Hu in Ef. simpl in Ef. now apply negb_false_iff in Ef. }
  split.
  { intro Hu. rewrite Hu in En. unfold getIntersectionsOfShape, shapeTop, shapeBottom in En.
    cbn [andb] in En. split; intros [Ha Hb]; rewrite Ha, Hb in En; simpl in En.
    - discriminate.
    - destruct (_ && _) in En; discriminate. }
  split; [reflexivity|]. now apply nonEmpty_true.
Qed.

End LineOfSightFilter.

Module LineOfSightExamples.
Import SquareWorld.

(** A ray at half height over the painted block meets its one shape. *)
Lemma calculateLineOfSight_entries_qualify_witness :
  In (paintedShape, wholeRay paintedShape rayStart rayEnd true)
     (calculateLineOfSight wholeRay painted rayStart rayEnd false)
  /\ In paintedShape (shapes painted)
  /\ wholeRay paintedShape rayStart rayEnd true <> [].
Proof.
  assert (Hin : In (paintedShape, wholeRay paintedShape rayStart rayEnd true)
                   (calculateLineOfSight wholeRay painted rayStart rayEnd false)).
  { left. reflexivity. }
  destruct (calculateLineOfSight_entries_qualify wholeRay painted rayStart rayEnd false
              paintedShape _ Hin)
    as (Hs & terrainType & _ & _ & _ & _ & Hne).
  split; [exact Hin|]. split; [exact Hs | exact Hne].
Defined.

End LineOfSightExamples.

(** ** Sorting and distinct keys *)

Section DistinctSorted.
Variables (A K : Type).
Variable keyEq : K -> K -> bool.
Variable key : A -> K.
Hypothesis keyEq_refl : forall k, keyEq k k = true.
Hypothesis keyEq_trans :
  forall k1 k2 k3, keyEq k1 k2 = true -> keyEq k2 k3 = true -> keyEq k1 k3 = true.

Lemma In_addDistinct (a b : A) (seen : list A) :
  In b (addDistinct keyEq key a seen) -> b = a \/ In b seen.
Proof.
  induction seen as [|c seen IH]; simpl.
  - intros [H|[]]. now left.
  - destruct (keyEq (key c) (key a)); simpl; [now right|].
    intros [H|H]; [right; now left|]. destruct (IH H); [now left | right; now right].
Qed.

Lemma addDistinct_incl (a b : A) (seen : list A) :
  In b seen -> In b (addDistinct keyEq key a seen).
Proof.
  induction seen as [|c seen IH]; simpl; [intros []|].
  destruct (keyEq (key c) (key a)); simpl; [trivial|].
  intros [H|H]; [now left | right; now apply IH].
Qed.

Lemma addDistinct_covers (a : A) (seen : list A) :
  exists q, In q (addDistinct keyEq key a seen) /\ keyEq (key q) (key a) = true.
Proof.
  induction seen as [|c seen IH]; simpl.
  - exists a. split; [now left | apply keyEq_refl].
  - destruct (keyEq (key c) (key a)) eqn:E.
    + exists c. split; [now left | exact E].
    + destruct IH as [q [Hq Hk]]. exists q. split; [now right | exact Hk].
Qed.

Lemma addDistinct_distinct (a : A) (seen : list A) :
  distinctKeys A K keyEq key seen -> distinctKeys A K keyEq key (addDistinct keyEq key a seen).
Proof.
  induction seen as [|c seen IH]; simpl.
  - intros _. split; [constructor | exact I].
  - intros [Hc Hs]. destruct (keyEq (key c) (key a)) eqn:E; simpl; [now split|].
    split; [|now apply IH].
    apply Forall_forall. intros b Hb. apply In_addDistinct in Hb.
    destruct Hb as [->|Hb]; [exact E|]. rewrite Forall_forall in Hc. now apply Hc.
Qed.

Lemma distinctBy_fold (l seen : list A) :
  distinctKeys A K keyEq key seen ->
  let out := fold_left (fun seen' a => addDistinct keyEq key a seen') l seen in
  distinctKeys A K keyEq key out
  /\ (forall b, In b out -> In b seen \/ In b l)
  /\ (forall p, In p seen \/ In p l ->
                exists q, In q out /\ keyEq (key q) (key p) = true).
Proof.
  revert seen. induction l as [|a l IH]; intros seen Hs; simpl.
  - split; [exact Hs|]. split; [now left|].
    intros p [Hp|[]]. exists p. split; [exact Hp | apply keyEq_refl].
  - destruct (IH _ (addDistinct_distinct a seen Hs)) as (H1 & H2 & H3).
    split; [exact H1|]. split.
    + intros b Hb. destruct (H2 b Hb) as [H|H]; [|right; now right].
      apply In_addDistinct in H. destruct H as [->|H]; [right; now left | now left].
    + intros p [Hp|[->|Hp]].
      * apply H3. left. now apply addDistinct_incl.
      * destruct (addDistinct_covers p seen) as [q [Hq Hk]].
        destruct (H3 q (or_introl Hq)) as [q' [Hq' Hk']].
        exists q'. split; [exact Hq'|]. exact (keyEq_trans _ _ _ Hk' Hk).
      * apply H3. now right.
Qed.

Lemma distinctBy_spec (l : list A) :
  distinctKeys A K keyEq key (distinctBy keyEq key l)
  /\ (forall b, In b (distinctBy keyEq key l) -> In b l)
  /\ (forall p, In p l ->
                exists q, In q (distinctBy keyEq key l) /\ keyEq (key q) (key p) = true).
Proof.
  destruct (distinctBy_fold l [] I) as (H1 & H2 & H3).
  split; [exact H1|]. split.
  - intros b Hb. destruct (H2 b Hb) as [[]|H]. exact H.
  - intros p Hp. apply H3. now right.
Qed.

End DistinctSorted.

(** ** The event points of the flattener *)

Section Boundaries.
Context {GE : Geometry}.

Lemma insert_ascending (a : RegionPoint) (l : list RegionPoint) :
  ascending l ->
  Forall (fun b => ~ t a == t b) l ->
  ascending (insert byT a l).
Proof.
  intros Hs Hd. induction l as [|b l IH]; simpl.
  - constructor; constructor.
  - apply StronglySorted_inv in Hs. destruct Hs as [Hs Hb].
    inversion Hd as [|? ? Hab Hd']; subst.
    unfold byT at 1. destruct (Qltb (t b) (t a)) eqn:E.
    + apply Qltb_lt in E. constructor; [now apply IH|].
      apply Forall_forall. intros c Hc. apply In_insert in Hc.
      destruct Hc as [->|Hc]; [exact E|]. rewrite Forall_forall in Hb. now apply Hb.
    + apply Qltb_ge in E.
      assert (Hlt : t a < t b).
      { apply Qle_lt_or_eq in E. destruct E as [E|E]; [exact E | contradiction]. }
      constructor; [constructor; assumption|].
      constructor; [exact Hlt|].
      apply Forall_forall. intros c Hc. rewrite Forall_forall in Hb.
      apply Qlt_trans with (t b); [exact Hlt | now apply Hb].
Qed.

Lemma sort_ascending (l : list RegionPoint) :
  distinctKeys _ _ Qeq_bool t l -> ascending (sort byT l).
Proof.
  induction l as [|a l IH]; simpl; [intros _; constructor|].
  intros [Ha Hl]. apply insert_ascending; [now apply IH|].
  apply Forall_forall. intros b Hb. apply In_sort in Hb.
  rewrite Forall_forall in Ha. specialize (Ha b Hb).
  now apply Qeq_bool_neq.
Qed.

Lemma boundaries_ascending (shapeRegions : list ShapeRegions) :
  ascending (boundaries shapeRegions).
Proof.
  unfold boundaries. apply sort_ascending.
  apply (distinctBy_spec _ _ Qeq_bool t Qeq_bool_refl Qeq_bool_trans).
Qed.

Lemma boundaries_cover (shapeRegions : list ShapeRegions) (p : RegionPoint) :
  In p (regionEnds shapeRegions) ->
  exists q, In q (boundaries shapeRegions) /\ t q == t p.
Proof.
  intro Hp.
  destruct (distinctBy_spec _ _ Qeq_bool t Qeq_bool_refl Qeq_bool_trans (regionEnds shapeRegions))
    as (_ & _ & H).
  destruct (H p Hp) as [q [Hq Hk]]. exists q. split.
  - unfold boundaries. now apply In_sort.
  - now apply Qeq_bool_iff.
Qed.

Lemma boundaries_from_regions (shapeRegions : list ShapeRegions) (q : RegionPoint) :
  In q (boundaries shapeRegions) -> In q (regionEnds shapeRegions).
Proof.
  unfold boundaries. intro H. apply In_sort in H.
  destruct (distinctBy_spec _ _ Qeq_bool t Qeq_bool_refl Qeq_bool_trans
              (regionEnds shapeRegions)) as (_ & Hin & _).
  now apply Hin.
Qed.



End Boundaries.

(** ** Minimum and maximum of the active shapes *)

Section Extrema.
Variable X : Type.
Variable f : X -> num.





End Extrema.

(** ** The flattener, interval by interval *)

Section FlattenerProperties.
Context {GE : Geometry}.

Lemma regionEnds_In (shapeRegions : list ShapeRegions) (sr : ShapeRegions)
  (r : LineOfSightIntersectionRegion) :
  In sr shapeRegions -> In r (snd sr) ->
  In (r_start r) (regionEnds shapeRegions) /\ In (r_end r) (regionEnds shapeRegions).
Proof.
  intros Hsr Hr. unfold regionEnds. split; apply in_flat_map; exists sr;
    (split; [exact Hsr|]); apply in_flat_map; exists r; (split; [exact Hr|]); simpl; auto.
Qed.




Lemma flattenStep_entryAt (shapeRegions : list ShapeRegions)
  (lastPosition : option RegionPoint) (acc : list FlatRegion) (b : RegionPoint) :
  flattenStep shapeRegions (lastPosition, acc) b
  = (Some b, acc ++ entryAt shapeRegions lastPosition b).
Proof.
  unfold flattenStep, entryAt.
  destruct (activeRegions shapeRegions (t b)); [now rewrite app_nil_r | reflexivity].
Qed.

Lemma fold_flattenStep (shapeRegions : list ShapeRegions) (bs : list RegionPoint)
  (lastPosition : option RegionPoint) (acc : list FlatRegion) :
  snd (fold_left (flattenStep shapeRegions) bs (lastPosition, acc))
  = acc ++ entriesFrom shapeRegions lastPosition bs.
Proof.
  revert lastPosition acc. induction bs as [|b bs IH]; intros lastPosition acc;
    cbn [fold_left entriesFrom snd].
  - now rewrite app_nil_r.
  - rewrite flattenStep_entryAt, IH. now rewrite app_assoc.
Qed.

Lemma flatten_entriesFrom (shapeRegions : list ShapeRegions) :
  flattenLineOfSightIntersectionRegions shapeRegions
  = entriesFrom shapeRegions None (boundaries shapeRegions).
Proof.
  unfold flattenLineOfSightIntersectionRegions. now rewrite fold_flattenStep.
Qed.


Lemma entryAt_In (shapeRegions : list ShapeRegions)
  (lastPosition : option RegionPoint) (b : RegionPoint) (e : FlatRegion) :
  In e (entryAt shapeRegions lastPosition b) -> f_end e = b /\ f_start e = lastPosition.
Proof.
  unfold entryAt. destruct (activeRegions shapeRegions (t b)); [intros []|].
  intros [<-|[]]. split; reflexivity.
Qed.




End FlattenerProperties.

Section FlattenerTheorem.
Context {GE : Geometry}.



End FlattenerTheorem.

Module FlattenerExamples.
Import SquareWorld.

(** The example of the spec, evaluated: over [1/4, 3/4] both shapes are
    active and the entry has elevation 0 and height 5. *)
Example flatten_overlapping :
  map (fun e => (option_map t (f_start e), t (f_end e), f_terrainTypeId e,
                 f_height e, f_elevation e, f_skimmed e))
      (flattenLineOfSightIntersectionRegions overlapping)
  = [ (Some 0, 1 # 4, "rock"%string, Some 3, Some 0, false);
      (Some (1 # 4), 3 # 4, "rock"%string, Some 5, Some 0, false);
      (Some (3 # 4), 1, "fog"%string, Some 3, Some 2, true) ].
Proof. reflexivity. Qed.


End FlattenerExamples.

(** ** The loop walk of the shape builder *)

Section LoopWalkProperties.
Context {GE : Geometry} {GR : Grid}.

Lemma removeAt_length_le (A : Type) (i : nat) (l : list A) :
  (List.length (removeAt i l) <= List.length l)%nat.
Proof.
  revert i. induction l as [|b l IH]; intro i; [destruct i; simpl; lia|].
  destruct i as [|i]; simpl; [lia|]. specialize (IH i). lia.
Qed.

(** The fuel [#combinePolygons] gives to the removal of duplicate edges is
    enough: more fuel changes nothing. *)
Lemma removeDuplicateEdges_fuel (fuel fuel' : nat) (allEdges : list LineSegment) :
  (List.length allEdges <= fuel)%nat ->
  (List.length allEdges <= fuel')%nat ->
  removeDuplicateEdges fuel allEdges = removeDuplicateEdges fuel' allEdges.
Proof.
  revert fuel' allEdges. induction fuel as [|fuel IH]; intros fuel' allEdges H H'.
  - destruct allEdges; [|simpl in H; lia]. destruct fuel'; reflexivity.
  - destruct fuel' as [|fuel'].
    + destruct allEdges; [reflexivity | simpl in H'; lia].
    + destruct allEdges as [|e rest]; [reflexivity|]. simpl in H, H'. simpl.
      destruct (findIndex (fun e' => seg_equals e e') rest) as [j|].
      * pose proof (removeAt_length_le _ j rest). apply IH; lia.
      * f_equal. apply IH; lia.
Qed.

Lemma walkLoop_eq (fuel : nat) (edges allEdges : list LineSegment) :
  walkLoop fuel edges allEdges
  = match edges with
    | [] => Throw TypeError
    | first :: _ =>
        if loopClosed first edges then Ok (edges, allEdges)
        else
          match nextEdgeCandidates (last edges first) allEdges with
          | [] => Throw (Error msgMissingEdge)
          | c :: cs =>
              match fuel with
              | O => Throw OutOfFuel
              | S fuel' =>
                  match nth_error allEdges (nextEdgeIndex (last edges first) c cs) with
                  | Some nextEdge =>
                      walkLoop fuel' (edges ++ [nextEdge])
                        (removeAt (nextEdgeIndex (last edges first) c cs) allEdges)
                  | None => Throw TypeError
                  end
              end
          end
    end.
Proof. destruct fuel; reflexivity. Qed.

Lemma removeAt_length (A : Type) (i : nat) (l : list A) (a : A) :
  nth_error l i = Some a -> S (List.length (removeAt i l)) = List.length l.
Proof.
  revert i. induction l as [|b l IH]; intros i H; [destruct i; discriminate|].
  destruct i as [|i]; simpl in *; [reflexivity|]. f_equal. now apply IH.
Qed.

Lemma walkLoop_stuck (s : WalkState) (fuel : nat) :
  walkStuck s -> walkLoop fuel (fst s) (snd s) = Throw (Error msgMissingEdge).
Proof.
  destruct s as [edges allEdges]. unfold walkStuck. cbn [fst snd].
  rewrite walkLoop_eq. destruct edges as [|first more]; [intros []|].
  intros [Hopen Hnone]. rewrite Hopen, Hnone. reflexivity.
Qed.

Lemma walkLoop_next (s s' : WalkState) (fuel : nat) :
  walkNext s = Some s' ->
  (List.length (snd s) <= fuel)%nat ->
  walkLoop fuel (fst s) (snd s) = walkLoop (pred fuel) (fst s') (snd s')
  /\ S (List.length (snd s')) = List.length (snd s).
Proof.
  destruct s as [edges allEdges]. unfold walkNext. cbn [fst snd].
  rewrite walkLoop_eq. destruct edges as [|first more]; [discriminate|].
  destruct (loopClosed first (first :: more)); [discriminate|].
  destruct (nextEdgeCandidates _ allEdges) as [|c cs]; [discriminate|].
  cbv zeta. destruct (nth_error allEdges _) as [nextEdge|] eqn:En; [|discriminate].
  intros H Hfuel. inversion H; subst s'; clear H. cbn [fst snd].
  pose proof (removeAt_length _ _ _ _ En) as Hlen.
  destruct fuel as [|fuel]; [lia|]. split; [reflexivity | exact Hlen].
Qed.

Lemma walkVisits_stuck (s s' : WalkState) :
  walkVisits s s' ->
  walkStuck s' ->
  forall fuel, (List.length (snd s) <= fuel)%nat ->
               walkLoop fuel (fst s) (snd s) = Throw (Error msgMissingEdge).
Proof.
  induction 1 as [s|s s1 s2 Hnext Hvisits IH]; intros Hstuck fuel Hfuel.
  - now apply walkLoop_stuck.
  - destruct (walkLoop_next s s1 fuel Hnext Hfuel) as [-> Hlen].
    apply IH; [exact Hstuck | lia].
Qed.

Lemma walkLoop_shrinks (fuel : nat) (edges allEdges edges' rest : list LineSegment) :
  walkLoop fuel edges allEdges = Ok (edges', rest) ->
  (List.length rest <= List.length allEdges)%nat.
Proof.
  revert edges allEdges. induction fuel as [|fuel IH]; intros edges allEdges;
    rewrite walkLoop_eq; destruct edges as [|first more]; try discriminate;
    destruct (loopClosed first (first :: more));
    try (intro H; inversion H; subst; lia);
    destruct (nextEdgeCandidates _ allEdges) as [|c cs]; try discriminate.
  destruct (nth_error allEdges _) as [nextEdge|]; [|discriminate].
  intro H. apply IH in H. pose proof (removeAt_length_le _ (nextEdgeIndex (last (first :: more) first) c cs) allEdges). lia.
Qed.

Lemma indexed_nil (A : Type) : indexed (@nil A) = [].
Proof. reflexivity. Qed.

Lemma walkLoop_fuel (fuel : nat) (edges allEdges : list LineSegment) :
  (List.length allEdges <= fuel)%nat ->
  walkLoop fuel edges allEdges <> Throw OutOfFuel.
Proof.
  revert edges allEdges. induction fuel as [|fuel IH]; intros edges allEdges Hfuel;
    rewrite walkLoop_eq; destruct edges as [|first more]; try discriminate;
    destruct (loopClosed first (first :: more)); try discriminate.
  - destruct allEdges; [|simpl in Hfuel; lia]. discriminate.
  - destruct (nextEdgeCandidates _ allEdges) as [|c cs]; [discriminate|].
    destruct (nth_error allEdges _) as [nextEdge|] eqn:En; [|discriminate].
    apply IH. pose proof (removeAt_length _ _ _ _ En). lia.
Qed.

Lemma walkLoops_eq (fuel : nat) (allEdges : list LineSegment) (combined : list Polygon) :
  walkLoops fuel allEdges combined
  = match allEdges with
    | [] => Ok combined
    | first :: rest =>
        match fuel with
        | O => Throw OutOfFuel
        | S fuel' =>
            match walkLoop (List.length rest) [first] rest with
            | Ok (edges, rest') =>
                walkLoops fuel' rest' (combined ++ [newPolygon (map p1 edges)])
            | Throw e => Throw e
            end
        end
    end.
Proof. destruct fuel; reflexivity. Qed.

Lemma walkLoops_fuel (fuel : nat) (allEdges : list LineSegment) (combined : list Polygon) :
  (List.length allEdges <= fuel)%nat ->
  walkLoops fuel allEdges combined <> Throw OutOfFuel.
Proof.
  revert allEdges combined. induction fuel as [|fuel IH]; intros allEdges combined Hfuel;
    rewrite walkLoops_eq; destruct allEdges as [|first rest]; try discriminate.
  - simpl in Hfuel. lia.
  - destruct (walkLoop (List.length rest) [first] rest) as [[edges rest']|e] eqn:Ew.
    + apply IH. apply walkLoop_shrinks in Ew. simpl in Hfuel. lia.
    + intro H. inversion H; subst e.
      exact (walkLoop_fuel _ _ _ (Nat.le_refl _) Ew).
Qed.

(** A later round of the outer loop is what the walk amounts to. *)
Lemma walkLoops_round (allEdges allEdges' : list LineSegment) :
  roundStarts allEdges allEdges' ->
  forall fuel combined,
    (List.length allEdges <= fuel)%nat ->
    exists fuel' combined',
      (List.length allEdges' <= fuel')%nat
      /\ walkLoops fuel allEdges combined = walkLoops fuel' allEdges' combined'.
Proof.
  induction 1 as [allEdges|first rest edges rest' allEdges' Hw Hr IH]; intros fuel combined Hfuel.
  - exists fuel, combined. split; [exact Hfuel | reflexivity].
  - rewrite walkLoops_eq. destruct fuel as [|fuel]; [simpl in Hfuel; lia|].
    rewrite Hw. apply IH. apply walkLoop_shrinks in Hw. simpl in Hfuel. lia.
Qed.

(** The loop walk that goes through a stuck state throws. *)
Lemma walkLoops_stuck (allEdges : list LineSegment) (s : WalkState) :
  loopWalkVisits allEdges s ->
  walkStuck s ->
  forall fuel combined,
    (List.length allEdges <= fuel)%nat ->
    walkLoops fuel allEdges combined = Throw (Error msgMissingEdge).
Proof.
  intros (first & rest & Hr & Hv) Hstuck fuel combined Hfuel.
  destruct (walkLoops_round _ _ Hr fuel combined Hfuel) as (fuel' & combined' & Hf & ->).
  rewrite walkLoops_eq. destruct fuel' as [|fuel']; [simpl in Hf; lia|].
  pose proof (walkVisits_stuck _ _ Hv Hstuck (List.length rest) (Nat.le_refl _)) as Hw.
  cbn [fst snd] in Hw. rewrite Hw. reflexivity.
Qed.

End LoopWalkProperties.

(** ** The parents of the holes *)

Section HoleProperties.
Context {GE : Geometry} {GR : Grid}.

Lemma updateAt_addHole_polygons (i : nat) (hole : Polygon) (l : list HeightMapShape) :
  map polygon (updateAt i (addHole hole) l) = map polygon l.
Proof.
  revert i. induction l as [|s l IH]; intro i; [destruct i; reflexivity|].
  destruct i as [|i]; simpl; [reflexivity|]. now rewrite IH.
Qed.

Lemma containing_outlined_from (hole : Polygon) (l l' : list HeightMapShape) (n : nat) :
  map polygon l = map polygon l' ->
  outlined (filter (fun c => containsPolygon (polygon (snd c)) hole)
                   (combine (seq n (List.length l)) l))
  = outlined (filter (fun c => containsPolygon (polygon (snd c)) hole)
                     (combine (seq n (List.length l')) l')).
Proof.
  revert l' n. induction l as [|s l IH]; intros [|s' l'] n H; try discriminate;
    [reflexivity|].
  simpl in H. inversion H as [[Hs Hl]]. simpl. rewrite Hs.
  destruct (containsPolygon (polygon s') hole); simpl; rewrite (IH l' (S n) Hl), ?Hs;
    reflexivity.
Qed.

Lemma containing_outlined (hole : Polygon) (l l' : list HeightMapShape) :
  map polygon l = map polygon l' ->
  outlined (containingPolygons l hole) = outlined (containingPolygons l' hole).
Proof. apply containing_outlined_from. Qed.

Lemma intersectsWithEdges_outlined (testPoint : Point) (cs cs' : list (nat * HeightMapShape)) :
  outlined cs = outlined cs' ->
  intersectsWithEdges testPoint cs = intersectsWithEdges testPoint cs'.
Proof.
  revert cs'. induction cs as [|c cs IH]; intros [|c' cs'] H; try discriminate;
    [reflexivity|].
  simpl in H. inversion H as [[Hi Hp Hcs]].
  unfold intersectsWithEdges. cbn [flat_map]. fold (intersectsWithEdges testPoint cs).
  fold (intersectsWithEdges testPoint cs'). rewrite (IH cs' Hcs), Hi, Hp. reflexivity.
Qed.

Lemma outlined_length (cs : list (nat * HeightMapShape)) :
  List.length (outlined cs) = List.length cs.
Proof. apply length_map. Qed.

Lemma outlined_nil (cs : list (nat * HeightMapShape)) : outlined cs = [] -> cs = [].
Proof. destruct cs; [reflexivity | discriminate]. Qed.

Lemma orphaned_polygons (l l' : list HeightMapShape) (hole : Polygon) :
  map polygon l = map polygon l' -> orphaned l hole -> orphaned l' hole.
Proof.
  intros H. pose proof (containing_outlined hole l l' H) as Ho.
  intros [Hnone|[Hlen [testPoint [Ht Hx]]]].
  - left. apply outlined_nil. rewrite <- Ho, Hnone. reflexivity.
  - right. split.
    + rewrite <- outlined_length, <- Ho, outlined_length. exact Hlen.
    + exists testPoint. split; [exact Ht|].
      rewrite <- (intersectsWithEdges_outlined testPoint _ _ Ho). exact Hx.
Qed.

Lemma assignHole_orphaned (l : list HeightMapShape) (hole : Polygon) :
  orphaned l hole -> assignHole l hole = Throw (Error msgNoParent).
Proof.
  unfold assignHole. intros [Hnone|[Hlen [testPoint [Ht Hx]]]].
  - rewrite Hnone. reflexivity.
  - destruct (containingPolygons l hole) as [|c1 [|c2 cs]]; simpl in Hlen; try lia.
    rewrite Ht, Hx. reflexivity.
Qed.

Lemma insert_not_nil (A : Type) (before : A -> A -> bool) (a : A) (l : list A) :
  insert before a l <> [].
Proof. destruct l as [|b l]; simpl; [discriminate|]. destruct (before b a); discriminate. Qed.

Lemma sort_not_nil (A : Type) (before : A -> A -> bool) (a : A) (l : list A) :
  sort before (a :: l) <> [].
Proof. simpl. apply insert_not_nil. Qed.

(** What the assignment of one hole can yield: the shapes with their
    polygons unchanged, the no-parent error, or a [TypeError] when the hole
    has no vertex at the top of its bounding box. *)
Lemma assignHole_result (l : list HeightMapShape) (hole : Polygon) :
  match assignHole l hole with
  | Ok l' => map polygon l' = map polygon l
  | Throw e => e = Error msgNoParent \/ (e = TypeError /\ testPointOf hole = None)
  end.
Proof.
  unfold assignHole. destruct (containingPolygons l hole) as [|c1 [|c2 cs]].
  - now left.
  - apply updateAt_addHole_polygons.
  - destruct (testPointOf hole) as [testPoint|]; [|right; split; reflexivity].
    destruct (intersectsWithEdges testPoint _) as [|x xs]; [now left|].
    pose proof (sort_not_nil _ (fun a b : Q * nat => Qltb (fst b) (fst a)) x xs) as Hs.
    destruct (sort _ (x :: xs)) as [|[v idx] rest]; [congruence|].
    apply updateAt_addHole_polygons.
Qed.

Lemma rfold_assignHole_orphan (holePolygons : list Polygon) (l : list HeightMapShape)
  (hole : Polygon) :
  In hole holePolygons -> orphaned l hole ->
  exists e, rfold assignHole holePolygons l = Throw e /\ orphanError holePolygons e.
Proof.
  revert l. induction holePolygons as [|h holePolygons IH]; intros l Hin Ho; [destruct Hin|].
  simpl. pose proof (assignHole_result l h) as Hr.
  destruct (assignHole l h) as [l'|e] eqn:Ea; simpl.
  - destruct Hin as [->|Hin].
    + rewrite (assignHole_orphaned l hole Ho) in Ea. discriminate.
    + destruct (IH l' Hin) as [e [He Hk]].
      { apply (orphaned_polygons l l'); [now symmetry | exact Ho]. }
      exists e. split; [exact He|]. destruct Hk as [Hk|[Hk [h' [Hh' Ht]]]]; [now left|].
      right. split; [exact Hk|]. exists h'. split; [now right | exact Ht].
  - exists e. split; [reflexivity|]. destruct Hr as [Hr|[Hr Ht]]; [now left|].
    right. split; [exact Hr|]. exists h. split; [now left | exact Ht].
Qed.

Lemma rfold_assignHole_throws (holePolygons : list Polygon) (l : list HeightMapShape)
  (e : exn) :
  rfold assignHole holePolygons l = Throw e -> e = Error msgNoParent \/ e = TypeError.
Proof.
  revert l. induction holePolygons as [|h holePolygons IH]; intros l; [discriminate|].
  simpl. pose proof (assignHole_result l h) as Hr.
  destruct (assignHole l h) as [l'|e']; simpl.
  - apply IH.
  - intro H. inversion H; subst. tauto.
Qed.

Lemma classifyPolygons_throws (combined : list Polygon) (e : exn) :
  classifyPolygons combined = Throw e -> e = TypeError.
Proof.
  unfold classifyPolygons.
  assert (H : forall e', rmap (fun p => rbind (isHole p) (fun b => Ok (b, p))) combined
                         = Throw e' -> e' = TypeError).
  { induction combined as [|p combined IH]; intros e'; [discriminate|].
    simpl. unfold isHole at 1. destruct (edges p); simpl; [intro H; now inversion H|].
    destruct (rmap _ combined) as [keyed|e'']; simpl; [discriminate|].
    intro H. inversion H; subst. now apply IH. }
  destruct (rmap _ combined) as [keyed|e'] eqn:E; simpl; [discriminate|].
  intro H'. inversion H'; subst. now apply H.
Qed.

End HoleProperties.

(** ** Errors of the shape builder reach the caller *)

Section BuilderErrors.
Context {TC : TerrainCatalog} {GE : Geometry} {GR : Grid}.

Lemma walkLoop_throws (fuel : nat) (edges allEdges : list LineSegment) (e : exn) :
  (List.length allEdges <= fuel)%nat ->
  walkLoop fuel edges allEdges = Throw e ->
  e = Error msgMissingEdge \/ e = TypeError.
Proof.
  intros Hfuel H.
  assert (Hk : forall fuel' edges' all', walkLoop fuel' edges' all' = Throw e ->
                 e = Error msgMissingEdge \/ e = TypeError \/ e = OutOfFuel).
  { induction fuel' as [|fuel' IH]; intros edges' all'; rewrite walkLoop_eq;
      destruct edges' as [|first more];
      try (intro H'; inversion H'; auto; fail);
      destruct (loopClosed first (first :: more)); try discriminate;
      destruct (nextEdgeCandidates _ all') as [|c cs];
      try (intro H'; inversion H'; auto; fail).
    destruct (nth_error all' _); [apply IH | intro H'; inversion H'; auto]. }
  destruct (Hk _ _ _ H) as [Hm|[Ht|Ho]]; [now left | now right|].
  subst e. exfalso. exact (walkLoop_fuel _ _ _ Hfuel H).
Qed.

Lemma walkLoops_throws (fuel : nat) (allEdges : list LineSegment)
  (combined : list Polygon) (e : exn) :
  (List.length allEdges <= fuel)%nat ->
  walkLoops fuel allEdges combined = Throw e ->
  e = Error msgMissingEdge \/ e = TypeError.
Proof.
  revert allEdges combined. induction fuel as [|fuel IH]; intros allEdges combined Hfuel;
    rewrite walkLoops_eq; destruct allEdges as [|first rest]; try discriminate.
  - simpl in Hfuel. lia.
  - destruct (walkLoop (List.length rest) [first] rest) as [[edges' rest']|e'] eqn:Ew.
    + apply IH. apply walkLoop_shrinks in Ew. simpl in Hfuel. lia.
    + intro H. inversion H; subst e'.
      exact (walkLoop_throws _ _ _ _ (Nat.le_refl _) Ew).
Qed.

Lemma combinePolygons_throws (originalPolygons : list (Position * Polygon))
  (tid : string) (h e : num) (x : exn) :
  combinePolygons originalPolygons tid h e = Throw x -> builderError x.
Proof.
  unfold combinePolygons, builderError.
  destruct (walkLoops _ (outlineEdges originalPolygons) []) as [combined|x'] eqn:Ew; simpl.
  - destruct (classifyPolygons combined) as [[solid holePolygons]|x'] eqn:Ec; simpl.
    + intro H. apply rfold_assignHole_throws in H. tauto.
    + intro H. inversion H; subst. apply classifyPolygons_throws in Ec. tauto.
  - intro H. inversion H; subst.
    apply walkLoops_throws in Ew; [tauto | apply Nat.le_refl].
Qed.

Lemma recalculateGroup_throws (cells : list Cell) (s : HeightMap) (x : exn) :
  fst (recalculateGroup cells s) = Throw x -> builderError x.
Proof.
  unfold recalculateGroup. destruct cells as [|c cells].
  - simpl. intro H. inversion H. right. now right.
  - unfold bind, lift, modify.
    destruct (combinePolygons _ _ _ _) as [sh|x'] eqn:Ec; simpl; [discriminate|].
    intro H. inversion H; subst. exact (combinePolygons_throws _ _ _ _ _ Ec).
Qed.

Lemma recalculateGroup_failing (c : Cell) (rest : list Cell) (s : HeightMap) (x : exn) :
  combinePolygons (cellPolygons (c :: rest)) (terrainTypeId c) (height c) (elevation c)
    = Throw x ->
  fst (recalculateGroup (c :: rest) s) = Throw x.
Proof.
  intro H. unfold recalculateGroup, bind, lift. rewrite H. reflexivity.
Qed.

Lemma forEach_throws (A : Type) (f : A -> M HeightMap unit) (l : list A) (a : A) :
  In a l ->
  (forall s, exists x, fst (f a s) = Throw x) ->
  forall s, exists x, fst (forEach f l s) = Throw x.
Proof.
  intros Hin Hf. induction l as [|b l IH]; [destruct Hin|]. intro s.
  simpl. unfold bind. destruct (f b s) as [[u|x] s1] eqn:E.
  - destruct Hin as [->|Hin].
    + destruct (Hf s) as [x Hx]. rewrite E in Hx. discriminate.
    + now apply IH.
  - exists x. reflexivity.
Qed.

Lemma forEach_throws_kind (A : Type) (f : A -> M HeightMap unit) (l : list A)
  (P : exn -> Prop) :
  (forall a s x, fst (f a s) = Throw x -> P x) ->
  forall s x, fst (forEach f l s) = Throw x -> P x.
Proof.
  intros Hf. induction l as [|b l IH]; intros s x; [discriminate|].
  simpl. unfold bind. destruct (f b s) as [[u|x'] s1] eqn:E.
  - apply IH.
  - simpl. intro H. inversion H; subst. apply (Hf b s). now rewrite E.
Qed.

Lemma recalculateShapes_throws (s : HeightMap) (x : exn) :
  fst (_recalculateShapes s) = Throw x -> builderError x.
Proof.
  unfold _recalculateShapes, bind, modify, gets. cbn [fst snd].
  destruct gridless; [discriminate|].
  apply forEach_throws_kind. intros a s' x'. apply recalculateGroup_throws.
Qed.

(** C3. In [#combinePolygons], a loop walk that reaches an open loop with no
    edge to continue throws the missing-edge error, and a hole that no solid
    polygon contains, or that several contain while the ray crosses none of
    their edges, makes the builder throw; [_recalculateShapes] throws as soon
    as the builder throws for one group of cells; and the tail of a recorded
    mutation throws what [_recalculateShapes] throws.  In none of these cases
    is a value returned.  The error for a hole is the no-parent error, unless
    an earlier hole has no vertex at the top of its bounding box, which is a
    [TypeError]. *)
Theorem shape_builder_errors_propagate :
  (forall (originalPolygons : list (Position * Polygon)) (tid : string) (h e : num)
          (s : WalkState),
      loopWalkVisits (outlineEdges originalPolygons) s ->
      walkStuck s ->
      combinePolygons originalPolygons tid h e = Throw (Error msgMissingEdge))
  /\ (forall (originalPolygons : list (Position * Polygon)) (tid : string) (h e : num)
             (combinedPolygons solidPolygons holePolygons : list Polygon) (hole : Polygon),
        walkLoops (List.length (outlineEdges originalPolygons))
                  (outlineEdges originalPolygons) [] = Ok combinedPolygons ->
        classifyPolygons combinedPolygons = Ok (solidPolygons, holePolygons) ->
        In hole holePolygons ->
        orphaned (map (solidShape tid h e) solidPolygons) hole ->
        exists x, combinePolygons originalPolygons tid h e = Throw x
                  /\ orphanError holePolygons x)
  /\ (forall (s : HeightMap) (key : string * num * num) (c : Cell) (rest : list Cell)
             (x : exn),
        gridless = false ->
        In (key, c :: rest) (groupBy groupKeyEq groupKey (data s)) ->
        combinePolygons (cellPolygons (c :: rest))
                        (terrainTypeId c) (height c) (elevation c) = Throw x ->
        exists x', fst (_recalculateShapes s) = Throw x' /\ builderError x')
  /\ (forall (history : HistoryEntry) (s : HeightMap) (x : exn),
        history <> [] ->
        fst (_recalculateShapes (committed history s)) = Throw x ->
        fst (commit history s) = Throw x).
Proof.
  split; [|split; [|split]].
  - intros originalPolygons tid h e s Hv Hs. unfold combinePolygons.
    rewrite (walkLoops_stuck _ _ Hv Hs) by apply Nat.le_refl. reflexivity.
  - intros originalPolygons tid h e combined solid holePolygons hole Hw Hc Hin Ho.
    unfold combinePolygons. rewrite Hw. simpl. rewrite Hc. simpl.
    exact (rfold_assignHole_orphan holePolygons _ hole Hin Ho).
  - intros s key c rest x Hg Hin Hx.
    assert (Hthrow : exists x', fst (_recalculateShapes s) = Throw x').
    { unfold _recalculateShapes, bind, modify, gets. cbn [fst snd]. rewrite Hg.
      apply (forEach_throws _ (fun g => recalculateGroup (snd g)) _ (key, c :: rest) Hin).
      intro s'. exists x. now apply recalculateGroup_failing. }
    destruct Hthrow as [x' Hx']. exists x'. split; [exact Hx'|].
    exact (recalculateShapes_throws s x' Hx').
  - intros history s x Hne Hx. destruct history as [|i history]; [congruence|].
    rewrite commit_nonempty. destruct (_recalculateShapes _) as [[u|x'] s1]; simpl in *.
    + discriminate.
    + inversion Hx. reflexivity.
Qed.

End BuilderErrors.

Module BuilderErrorExamples.
Import SquareWorld.

(** With a grid adapter that winds its cells the wrong way the first paint
    call already fails: the exception of the builder is what the caller
    gets. *)
Example paintCells_on_mirrored_grid_throws :
  fst (@paintCells catalog geometry mirroredGrid [(0, 0)%Z] "rock" 1 0 true emptyMap)
  = Throw (Error msgNoParent).
Proof. reflexivity. Qed.

Lemma shape_builder_errors_propagate_witness :
  combinePolygons overlappingPolygons "rock" (Some 1) (Some 0)
    = Throw (Error msgMissingEdge)
  /\ combinePolygons loneHole "rock" (Some 1) (Some 0) = Throw (Error msgNoParent)
  /\ (exists x, fst (@_recalculateShapes geometry mirroredGrid oneCell) = Throw x
                /\ builderError x)
  /\ fst (@commit catalog geometry mirroredGrid
            [ {| h_position := (0, 0)%Z; h_terrainTypeId := None;
                 h_height := None; h_elevation := None |} ] oneCell)
     = Throw (Error msgNoParent).
Proof.
  destruct (@shape_builder_errors_propagate catalog geometry grid)
    as (Hstuck & Horphan & _ & _).
  destruct (@shape_builder_errors_propagate catalog geometry mirroredGrid)
    as (_ & _ & Hgroup & Hcommit).
  split; [|split; [|split]].
  - eapply Hstuck.
    + eexists. eexists. split; [apply rs_here|].
      eapply wv_next; [reflexivity|]. eapply wv_next; [reflexivity|]. apply wv_here.
    + split; reflexivity.
  - destruct (Horphan loneHole "rock"%string (Some 1) (Some 0) _ [] _ (snd (hd ((0, 0)%Z, []) loneHole))
                eq_refl eq_refl (or_introl eq_refl) (or_introl eq_refl))
      as [x [Hx [->|[_ [h [[<-|[]] Hh]]]]]]; [exact Hx | discriminate Hh].
  - eapply Hgroup with (key := ("rock"%string, Some 1, Some 5)).
    + reflexivity.
    + left. reflexivity.
    + reflexivity.
  - apply Hcommit; [discriminate | reflexivity].
Defined.

End BuilderErrorExamples.

(** ** The parent of a nested hole *)

Module NestedHoleExamples.
Import SquareWorld.

(** C6, at the input where it fails.  The inner ring starts at column 0, so
    its left side lies on [x = 0]; the outer ring starts at column -2.  Both
    boundaries contain the hole of the inner ring.  The ray that leaves the
    test point (200, 305) to the left crosses the inner boundary at [x = 0]
    and the outer boundary at [x = -200]: the nearest crossing is on the
    inner ring.  The filter of line 332 takes the crossing at 0 for a missing
    one, and the hole goes to the outer ring; the inner ring is left without
    a hole. *)
Theorem nested_hole_behind_edge_at_zero :
  map firstVertices (shapes (nestedMap 0))
  = [ (Some (mkPoint (-200) 0), [Some (mkPoint 0 100); Some (mkPoint 200 300)]);
      (Some (mkPoint 0 200), []) ]
  /\ map (fun shape => last (holes shape) []) (shapes (nestedMap 0)) = [innerHole 0; []]
  /\ map (fun shape => containsPolygon (polygon shape) (innerHole 0)) (shapes (nestedMap 0))
     = [true; true]
  /\ option_map (fun p => (Qred (x p), Qred (y p))) (testPointOf (innerHole 0))
     = Some (200, 305)
  /\ map (fun shape => map Qred (boundaryCrossings 305 shape)) (shapes (nestedMap 0))
     = [ [500; -200]; [300; 0] ]
  /\ option_map
       (fun p => map (fun c => (Qred (fst c), snd c))
                     (intersectsWithEdges p
                        (containingPolygons (shapes (nestedMap 0)) (innerHole 0))))
       (testPointOf (innerHole 0))
     = Some [ (-200, 0%nat) ].
Proof. repeat split; reflexivity. Qed.

(** One column to the right no side lies on [x = 0], and the same hole goes
    to the inner ring. *)
Example nested_hole_one_column_right :
  map firstVertices (shapes (nestedMap 1))
  = [ (Some (mkPoint (-100) 0), [Some (mkPoint 100 100)]);
      (Some (mkPoint 100 200), [Some (mkPoint 300 300)]) ]
  /\ nth 1 (map (fun shape => last (holes shape) []) (shapes (nestedMap 1))) []
     = innerHole 1.
Proof. repeat split; reflexivity. Qed.

End NestedHoleExamples.

(** ** Which parent a hole gets *)

Section HoleParent.
Context {GE : Geometry} {GR : Grid}.

Lemma sort_furtherRight_head (l : list (Q * nat)) (h : Q * nat) (rest : list (Q * nat)) :
  sort furtherRight l = h :: rest ->
  In h l /\ forall c, In c l -> fst c <= fst h.
Proof.
  revert h rest. induction l as [|a l IH]; intros h rest; [discriminate|].
  simpl. destruct (sort furtherRight l) as [|b l'] eqn:Es.
  - simpl. intro H. inversion H; subst. destruct l as [|a' l].
    + split; [now left|]. intros c [<-|[]]. apply Qle_refl.
    + exfalso. exact (sort_not_nil _ furtherRight a' l Es).
  - destruct (IH b l' eq_refl) as [Hb Hmax]. simpl.
    unfold furtherRight at 1. destruct (Qltb (fst a) (fst b)) eqn:E.
    + intro H. inversion H; subst. split; [now right|].
      intros c [<-|Hc]; [apply Qltb_lt in E; now apply Qlt_le_weak | now apply Hmax].
    + intro H. inversion H; subst. apply Qltb_ge in E. split; [now left|].
      intros c [<-|Hc]; [apply Qle_refl|].
      apply Qle_trans with (fst b); [now apply Hmax | exact E].
Qed.

(** The crossings the builder looks at: those of the containing boundaries,
    left of the test point, and not at [x = 0]. *)
Lemma intersectsWithEdges_In (testPoint : Point) (cs : list (nat * HeightMapShape))
  (v : Q) (i : nat) :
  In (v, i) (intersectsWithEdges testPoint cs)
  <-> exists shape edge,
        In (i, shape) cs
        /\ In edge (edges (polygon shape))
        /\ intersectsYAt edge (y testPoint) = Some v
        /\ ~ v == 0
        /\ v < x testPoint.
Proof.
  unfold intersectsWithEdges. rewrite in_flat_map. split.
  - intros [[i' shape] [Hc H]]. cbn [fst snd] in H. apply in_flat_map in H.
    destruct H as [edge [He H]].
    destruct (intersectsYAt edge (y testPoint)) as [at_|] eqn:Ei; [|destruct H].
    destruct (negb (Qeq_bool at_ 0) && Qltb at_ (x testPoint)) eqn:Ef; [|destruct H].
    destruct H as [H|[]]. inversion H; subst at_ i'.
    apply andb_true_iff in Ef. destruct Ef as [Hz Hl].
    exists shape, edge. repeat split; try assumption.
    + apply negb_true_iff in Hz. now apply Qeq_bool_neq.
    + now apply Qltb_lt.
  - intros (shape & edge & Hc & He & Hi & Hz & Hl).
    exists (i, shape). split; [exact Hc|]. cbn [fst snd]. apply in_flat_map.
    exists edge. split; [exact He|]. rewrite Hi.
    replace (Qeq_bool v 0) with false.
    2:{ symmetry. apply not_true_is_false. intro E. apply Hz. now apply Qeq_bool_iff. }
    apply Qltb_lt in Hl. rewrite Hl. now left.
Qed.

(** X19. What the code does for a hole (lines 319-342): with one containing
    boundary the hole is pushed onto it; with several, onto one whose
    boundary has, among the crossings that are left of the test point and
    not at [x = 0], the one furthest to the right. *)
Lemma assignHole_parent (l l' : list HeightMapShape) (hole : Polygon) :
  assignHole l hole = Ok l' ->
  (exists c, containingPolygons l hole = [c] /\ l' = updateAt (fst c) (addHole hole) l)
  \/ (exists testPoint v idx,
        (2 <= List.length (containingPolygons l hole))%nat
        /\ testPointOf hole = Some testPoint
        /\ l' = updateAt idx (addHole hole) l
        /\ In (v, idx) (intersectsWithEdges testPoint (containingPolygons l hole))
        /\ forall v' idx',
             In (v', idx') (intersectsWithEdges testPoint (containingPolygons l hole)) ->
             v' <= v).
Proof.
  unfold assignHole. destruct (containingPolygons l hole) as [|c1 [|c2 cs]] eqn:Ec.
  - discriminate.
  - intro H. inversion H. left. exists c1. split; reflexivity.
  - destruct (testPointOf hole) as [testPoint|]; [|discriminate].
    destruct (intersectsWithEdges testPoint (c1 :: c2 :: cs)) as [|x0 xs] eqn:Ex;
      [discriminate|].
    destruct (sort (fun a b : Q * nat => Qltb (fst b) (fst a)) (x0 :: xs))
      as [|[v idx] rest] eqn:Es; [discriminate|].
    intro H. inversion H. right. exists testPoint, v, idx.
    destruct (sort_furtherRight_head (x0 :: xs) (v, idx) rest Es) as [Hin Hmax].
    split; [simpl; lia|]. split; [reflexivity|]. split; [reflexivity|].
    rewrite Ex. split; [exact Hin|]. intros v' idx' H'. exact (Hmax (v', idx') H').
Qed.

End HoleParent.

(** ** What [undo] puts back after an erase *)

Section EraseThenUndo.
Context {TC : TerrainCatalog} {GE : Geometry} {GR : Grid}.

Lemma find_findIndex (A : Type) (p : A -> bool) (l : list A) (a : A) :
  find p l = Some a -> exists i, findIndex p l = Some i /\ nth_error l i = Some a.
Proof.
  induction l as [|b l IH]; [discriminate|]. simpl. destruct (p b).
  - intro H. inversion H; subst. exists 0%nat. split; reflexivity.
  - intro H. destruct (IH H) as [i [Hi Hn]]. exists (S i). rewrite Hi. split; [reflexivity | exact Hn].
Qed.

Lemma findIndex_none (A : Type) (p : A -> bool) (l : list A) :
  (forall a, In a l -> p a = false) -> findIndex p l = None.
Proof.
  induction l as [|b l IH]; intro H; [reflexivity|]. simpl.
  rewrite (H b) by now left. rewrite IH; [reflexivity|]. intros a Ha. apply H. now right.
Qed.

Lemma find_unique (A : Type) (p : A -> bool) (l : list A) (a : A) :
  In a l -> p a = true -> (forall b, In b l -> p b = true -> b = a) -> find p l = Some a.
Proof.
  induction l as [|b l IH]; intros Hin Hp Hu; [destruct Hin|]. simpl.
  destruct (p b) eqn:Eb.
  - f_equal. apply Hu; [now left | exact Eb].
  - destruct Hin as [->|Hin]; [congruence|].
    apply IH; [exact Hin | exact Hp|]. intros c Hc. apply Hu. now right.
Qed.

(** With one cell per position, the store without the cell found for a
    position holds no cell of that position. *)
Lemma removeAt_found (cell : Position) (l : list Cell) (i : nat) :
  NoDup (map position l) ->
  findIndex (samePosition cell) l = Some i ->
  forall c, In c (removeAt i l) -> samePosition cell c = false.
Proof.
  revert i. induction l as [|b l IH]; intros i Hnd Hi c Hc; [discriminate|].
  simpl in Hi. inversion Hnd as [|? ? Hb Hl]; subst. destruct (samePosition cell b) eqn:Eb.
  - inversion Hi; subst i. simpl in Hc.
    destruct (samePosition cell c) eqn:Ecc; [|reflexivity]. exfalso. apply Hb.
    unfold samePosition in Eb, Ecc. apply position_eqb_eq in Eb, Ecc.
    rewrite Eb, <- Ecc. now apply in_map.
  - destruct (findIndex (samePosition cell) l) as [j|] eqn:Ej; [|discriminate].
    inversion Hi; subst i. simpl in Hc. destruct Hc as [<-|Hc]; [exact Eb|].
    now apply (IH j).
Qed.

Lemma limitHistory_keeps_last (h : list HistoryEntry) (entry : HistoryEntry) :
  exists h', limitHistory (h ++ [entry]) = h' ++ [entry].
Proof.
  induction h as [|a h IH].
  - exists []. reflexivity.
  - change ((a :: h) ++ [entry]) with (a :: (h ++ [entry])). cbn [limitHistory].
    destruct (maxHistoryItems <? _)%nat; [exact IH|]. exists (a :: h). reflexivity.
Qed.

(** X18. What [eraseCells] leaves of a painted cell in the history, and
    what [undo] makes of it: for every store with one cell per position, a
    painted cell of an existing terrain type that is erased and brought back
    by [undo] has its terrain type and its height, and an undefined
    elevation. *)
Lemma erase_then_undo_elevation_undefined (s : HeightMap) (cell : Position) (c : Cell) :
  get (data s) cell = Some c ->
  NoDup (map position (data s)) ->
  available c = true ->
  get (data (snd (undo (snd (eraseCells [cell] s))))) cell
  = Some {| position := cell; terrainTypeId := terrainTypeId c;
            height := height c; elevation := None |}.
Proof.
  intros Hget Hnd Hav. unfold get in Hget.
  destruct (find_findIndex _ _ _ _ Hget) as [i [Hi Hn]].
  set (item := {| h_position := cell; h_terrainTypeId := Some (terrainTypeId c);
                  h_height := height c; h_elevation := None |}).
  set (restored := {| position := cell; terrainTypeId := terrainTypeId c;
                      height := height c; elevation := None |}).
  assert (He : eraseCells [cell] s = commit [item] (setData (removeAt i (data s)) s)).
  { rewrite eraseCells_unfold. cbn [fold_left]. unfold eraseCell. rewrite Hi, Hn. reflexivity. }
  rewrite He, commit_nonempty.
  pose proof (recalculateShapes_frame (committed [item] (setData (removeAt i (data s)) s)))
    as [Hd Hh].
  set (s1 := snd (_recalculateShapes (committed [item] (setData (removeAt i (data s)) s)))) in *.
  replace (snd (let (r, s2) := _recalculateShapes (committed [item] (setData (removeAt i (data s)) s)) in
                match r with Ok _ => (Ok true, s2) | Throw e => (Throw e, s2) end))
    with s1
    by (unfold s1; destruct (_recalculateShapes _) as [[u|e] s2]; reflexivity).
  assert (Hd1 : data s1 = filter available (removeAt i (data s))).
  { rewrite Hd. reflexivity. }
  destruct (limitHistory_keeps_last (_history s) [item]) as [h' Hh'].
  assert (Hh1 : _history s1 = h' ++ [[item]]).
  { rewrite Hh. unfold committed, saveChanges, pushHistory, modify. cbn [fst snd].
    cbn [_history setData setHistory]. exact Hh'. }
  rewrite (undo_unfold s1 h' [item] Hh1).
  unfold saveChanges, modify. cbn [fst snd data setData fold_left].
  assert (Hnone : forall c', In c' (data s1) -> samePosition cell c' = false).
  { intros c' Hc'. rewrite Hd1 in Hc'. apply filter_In in Hc'. destruct Hc' as [Hc' _].
    exact (removeAt_found cell (data s) i Hnd Hi c' Hc'). }
  unfold revertItem. cbn [h_terrainTypeId h_position item].
  rewrite (findIndex_none _ _ _ Hnone).
  change (restoredCell cell (terrainTypeId c) item) with restored.
  unfold get. apply find_unique.
  - apply filter_In. split; [|exact Hav]. apply In_sort. apply in_or_app. right. now left.
  - unfold samePosition. apply position_eqb_refl.
  - intros b Hb Hpb. apply filter_In in Hb. destruct Hb as [Hb _]. apply In_sort in Hb.
    apply in_app_or in Hb. destruct Hb as [Hb|[<-|[]]]; [|reflexivity].
    rewrite (Hnone b Hb) in Hpb. discriminate.
Qed.

End EraseThenUndo.

(** * Further properties of the cell store *)

(** ** Lookups after the list operations of the store *)

Section StoreLookups.

Lemma samePosition_eq (cell : Position) (c : Cell) :
  samePosition cell c = true <-> position c = cell.
Proof. unfold samePosition. apply position_eqb_eq. Qed.

Lemma position_eqb_sym (a b : Position) : position_eqb a b = position_eqb b a.
Proof.
  unfold position_eqb. rewrite (Z.eqb_sym (fst a)), (Z.eqb_sym (snd a)). reflexivity.
Qed.

Lemma get_none_iff (d : list Cell) (cell : Position) :
  get d cell = None <-> ~ In cell (map position d).
Proof.
  unfold get. split.
  - intros H Hin. apply in_map_iff in Hin. destruct Hin as [c [Hc Hin]].
    apply (find_none _ _ H) in Hin. apply samePosition_eq in Hc. congruence.
  - intro H. destruct (find (samePosition cell) d) as [c|] eqn:E; [|reflexivity].
    apply find_some in E. destruct E as [Hin Hp]. apply samePosition_eq in Hp.
    exfalso. apply H. rewrite <- Hp. now apply in_map.
Qed.

Lemma get_some_position (d : list Cell) (cell : Position) (c : Cell) :
  get d cell = Some c -> In c d /\ position c = cell.
Proof.
  unfold get. intro H. apply find_some in H. destruct H as [Hin Hp].
  apply samePosition_eq in Hp. now split.
Qed.

(** An update of the first cell of a position changes the lookup of that
    position only. *)
Lemma get_updateFirst (cell q : Position) (f : Cell -> Cell) (d : list Cell) :
  (forall c, position (f c) = position c) ->
  get (updateFirst (samePosition cell) f d) q
  = if position_eqb cell q then option_map f (get d cell) else get d q.
Proof.
  intro Hf. unfold get. induction d as [|c d IH]; simpl.
  - destruct (position_eqb cell q); reflexivity.
  - destruct (samePosition cell c) eqn:Ec.
    + simpl. unfold samePosition at 1. rewrite Hf. fold (samePosition q c).
      apply samePosition_eq in Ec.
      destruct (position_eqb cell q) eqn:Eq.
      * apply position_eqb_eq in Eq. subst q.
        replace (samePosition cell c) with true
          by (symmetry; now apply samePosition_eq). reflexivity.
      * replace (samePosition q c) with false; [reflexivity|].
        symmetry. apply not_true_is_false. intro H. apply samePosition_eq in H.
        rewrite Ec in H. subst q. now rewrite position_eqb_refl in Eq.
    + simpl. destruct (samePosition q c) eqn:Eqc.
      * destruct (position_eqb cell q) eqn:Eq; [|reflexivity].
        apply position_eqb_eq in Eq. subst q. congruence.
      * exact IH.
Qed.

Lemma map_position_updateFirst (p : Cell -> bool) (f : Cell -> Cell) (d : list Cell) :
  (forall c, position (f c) = position c) ->
  map position (updateFirst p f d) = map position d.
Proof.
  intro Hf. induction d as [|c d IH]; [reflexivity|]. simpl.
  destruct (p c); simpl; [now rewrite Hf | now rewrite IH].
Qed.

Lemma get_app (d : list Cell) (c : Cell) (q : Position) :
  get (d ++ [c]) q
  = match get d q with
    | Some found => Some found
    | None => if samePosition q c then Some c else None
    end.
Proof.
  unfold get. induction d as [|b d IH]; simpl; [reflexivity|].
  destruct (samePosition q b); [reflexivity | exact IH].
Qed.

Lemma updateAt_found (p : Cell -> bool) (f : Cell -> Cell) (d : list Cell) (i : nat) :
  findIndex p d = Some i -> updateAt i f d = updateFirst p f d.
Proof.
  revert i. induction d as [|c d IH]; intros i H; [discriminate|]. simpl in *.
  destruct (p c).
  - inversion H. reflexivity.
  - destruct (findIndex p d) as [j|]; [|discriminate]. inversion H. simpl.
    f_equal. now apply IH.
Qed.

Lemma findIndex_get (d : list Cell) (cell : Position) :
  match findIndex (samePosition cell) d with
  | Some i => exists c, get d cell = Some c /\ nth_error d i = Some c
  | None => get d cell = None
  end.
Proof.
  unfold get. induction d as [|b d IH]; simpl; [reflexivity|].
  destruct (samePosition cell b).
  - exists b. split; reflexivity.
  - destruct (findIndex (samePosition cell) d) as [i|]; simpl; exact IH.
Qed.

(** Without the cell found for a position, the other positions read as
    before. *)
Lemma get_removeAt_other (d : list Cell) (cell q : Position) (i : nat) :
  findIndex (samePosition cell) d = Some i ->
  q <> cell ->
  get (removeAt i d) q = get d q.
Proof.
  unfold get. revert i. induction d as [|b d IH]; intros i H Hq; [discriminate|].
  simpl in H. destruct (samePosition cell b) eqn:Eb.
  - inversion H; subst i. simpl. apply samePosition_eq in Eb.
    replace (samePosition q b) with false; [reflexivity|].
    symmetry. apply not_true_is_false. intro E. apply samePosition_eq in E. congruence.
  - destruct (findIndex (samePosition cell) d) as [j|]; [|discriminate].
    inversion H; subst i. simpl. destruct (samePosition q b); [reflexivity|].
    now apply IH.
Qed.

Lemma get_removeAt_same (d : list Cell) (cell : Position) (i : nat) :
  onePerPosition d ->
  findIndex (samePosition cell) d = Some i ->
  get (removeAt i d) cell = None.
Proof.
  intros Hnd Hi. unfold get.
  destruct (find (samePosition cell) (removeAt i d)) as [c|] eqn:E; [|reflexivity].
  apply find_some in E. destruct E as [Hin Hp].
  rewrite (removeAt_found cell d i Hnd Hi c Hin) in Hp. discriminate.
Qed.

(** [#sortData] is stable: it never changes which cell a position reads. *)
Lemma find_insert_stable (cell : Position) (a : Cell) (d : list Cell) :
  find (samePosition cell) (insert positionBefore a d)
  = find (samePosition cell) (a :: d).
Proof.
  induction d as [|b d IH]; [reflexivity|]. simpl.
  destruct (positionBefore b a) eqn:Eba.
  - simpl. rewrite IH. simpl. destruct (samePosition cell b) eqn:Eb; [|reflexivity].
    destruct (samePosition cell a) eqn:Ea; [|reflexivity].
    exfalso. apply samePosition_eq in Ea, Eb. unfold positionBefore in Eba.
    rewrite Ea, Eb in Eba. rewrite !Z.ltb_irrefl, andb_false_r in Eba. discriminate.
  - reflexivity.
Qed.

Lemma get_sort (d : list Cell) (q : Position) :
  get (sort positionBefore d) q = get d q.
Proof.
  unfold get. induction d as [|a d IH]; [reflexivity|].
  simpl sort. rewrite find_insert_stable. simpl. now rewrite IH.
Qed.

Lemma insert_Permutation (A : Type) (before : A -> A -> bool) (a : A) (l : list A) :
  Permutation (insert before a l) (a :: l).
Proof.
  induction l as [|b l IH]; simpl; [apply Permutation_refl|].
  destruct (before b a); [|apply Permutation_refl].
  apply Permutation_trans with (b :: a :: l); [now apply perm_skip | apply perm_swap].
Qed.

Lemma sort_Permutation (A : Type) (before : A -> A -> bool) (l : list A) :
  Permutation (sort before l) l.
Proof.
  induction l as [|a l IH]; simpl; [apply Permutation_refl|].
  apply Permutation_trans with (a :: sort before l);
    [apply insert_Permutation | now apply perm_skip].
Qed.

Lemma onePerPosition_sort (d : list Cell) :
  onePerPosition d -> onePerPosition (sort positionBefore d).
Proof.
  unfold onePerPosition. apply Permutation_NoDup. apply Permutation_map.
  apply Permutation_sym. apply sort_Permutation.
Qed.

Lemma onePerPosition_filter (p : Cell -> bool) (d : list Cell) :
  onePerPosition d -> onePerPosition (filter p d).
Proof.
  unfold onePerPosition. induction d as [|c d IH]; simpl; [trivial|].
  intro H. inversion H as [|? ? Hc Hd]; subst. destruct (p c); simpl.
  - constructor; [|now apply IH]. intro Hin. apply Hc.
    apply in_map_iff in Hin. destruct Hin as [b [Hb Hin]]. apply filter_In in Hin.
    rewrite <- Hb. apply in_map. tauto.
  - now apply IH.
Qed.

Lemma onePerPosition_removeAt (i : nat) (d : list Cell) :
  onePerPosition d -> onePerPosition (removeAt i d).
Proof.
  unfold onePerPosition. revert i. induction d as [|c d IH]; intros i H;
    [destruct i; exact H|].
  inversion H as [|? ? Hc Hd]; subst. destruct i as [|i]; simpl; [exact Hd|].
  constructor; [|now apply IH]. intro Hin. apply Hc.
  apply in_map_iff in Hin. destruct Hin as [b [Hb Hin]].
  rewrite <- Hb. apply in_map. exact (In_removeAt _ _ _ _ Hin).
Qed.

Lemma onePerPosition_app (d : list Cell) (c : Cell) :
  onePerPosition d -> get d (position c) = None -> onePerPosition (d ++ [c]).
Proof.
  unfold onePerPosition. intros Hd Hnone. rewrite map_app. simpl.
  apply get_none_iff in Hnone.
  apply Permutation_NoDup with (position c :: map position d).
  - apply Permutation_cons_append.
  - now constructor.
Qed.

End StoreLookups.

(** ** One cell per position *)

Section OnePerPosition.
Context {TC : TerrainCatalog} {GE : Geometry} {GR : Grid}.

Lemma repaint_position (tid : string) (h e : Q) (c : Cell) :
  position (repaint tid h e c) = position c.
Proof. reflexivity. Qed.

Lemma paintCell_onePerPosition (tid : string) (h e : Q) (overwrite : bool)
  (acc : list Cell * HistoryEntry * bool) (cell : Position) :
  onePerPosition (fst (fst acc)) ->
  onePerPosition (fst (fst (paintCell tid h e overwrite acc cell))).
Proof.
  destruct acc as [[d history] anyAdded]. cbn [fst]. intro H. unfold paintCell.
  destruct (get d cell) as [existing|] eqn:Eg.
  - destruct (negb overwrite); [exact H|].
    destruct (_ && _); [exact H|]. cbn [fst]. unfold onePerPosition.
    rewrite map_position_updateFirst; [exact H | apply repaint_position].
  - cbn [fst]. apply onePerPosition_app; [exact H | exact Eg].
Qed.

Lemma paintCells_fold_onePerPosition (tid : string) (h e : Q) (overwrite : bool)
  (cells : list Position) (acc : list Cell * HistoryEntry * bool) :
  onePerPosition (fst (fst acc)) ->
  onePerPosition (fst (fst (fold_left (paintCell tid h e overwrite) cells acc))).
Proof.
  revert acc. induction cells as [|cell cells IH]; intros acc H; [exact H|].
  simpl. apply IH. now apply paintCell_onePerPosition.
Qed.

Lemma eraseCell_onePerPosition (acc : list Cell * HistoryEntry) (cell : Position) :
  onePerPosition (fst acc) -> onePerPosition (fst (eraseCell acc cell)).
Proof.
  destruct acc as [d history]. cbn [fst]. intro H. unfold eraseCell.
  destruct (findIndex (samePosition cell) d) as [i|]; [|exact H].
  destruct (nth_error d i); [|exact H]. cbn [fst]. now apply onePerPosition_removeAt.
Qed.

Lemma eraseCells_fold_onePerPosition (cells : list Position)
  (acc : list Cell * HistoryEntry) :
  onePerPosition (fst acc) -> onePerPosition (fst (fold_left eraseCell cells acc)).
Proof.
  revert acc. induction cells as [|cell cells IH]; intros acc H; [exact H|].
  simpl. apply IH. now apply eraseCell_onePerPosition.
Qed.

Lemma revertItem_onePerPosition (acc : list Cell * bool) (revert : HistoryItem) :
  onePerPosition (fst acc) -> onePerPosition (fst (revertItem acc revert)).
Proof.
  destruct acc as [d anyAdded]. cbn [fst]. intro H. unfold revertItem.
  pose proof (findIndex_get d (h_position revert)) as Hf.
  destruct (h_terrainTypeId revert) as [tid|];
    destruct (findIndex (samePosition (h_position revert)) d) as [i|] eqn:Ei; cbn [fst].
  - rewrite (updateAt_found _ _ _ _ Ei). unfold onePerPosition.
    rewrite map_position_updateFirst; [exact H | reflexivity].
  - apply onePerPosition_app; [exact H | exact Hf].
  - now apply onePerPosition_removeAt.
  - exact H.
Qed.

Lemma revertItems_onePerPosition (items : HistoryEntry) (acc : list Cell * bool) :
  onePerPosition (fst acc) -> onePerPosition (fst (fold_left revertItem items acc)).
Proof.
  revert acc. induction items as [|r items IH]; intros acc H; [exact H|].
  simpl. apply IH. now apply revertItem_onePerPosition.
Qed.

(** The cells after the tail of a recorded mutation. *)
Lemma commit_data (history : HistoryEntry) (s : HeightMap) :
  data (snd (commit history s))
  = match history with
    | [] => data s
    | _ => filter available (data s)
    end.
Proof.
  destruct history as [|i history]; [reflexivity|].
  rewrite commit_nonempty.
  pose proof (recalculateShapes_frame (committed (i :: history) s)) as [Hd _].
  destruct (_recalculateShapes _) as [[u|x] s1]; cbn [fst snd] in *; rewrite Hd; reflexivity.
Qed.

Lemma commit_onePerPosition (history : HistoryEntry) (s : HeightMap) :
  onePerPosition (data s) -> onePerPosition (data (snd (commit history s))).
Proof.
  rewrite commit_data. destruct history; [trivial | apply onePerPosition_filter].
Qed.

Lemma paintCells_onePerPosition (cells : list Position) (tid : string) (h e : Q)
  (overwrite : bool) (s : HeightMap) :
  onePerPosition (data s) ->
  onePerPosition (data (snd (paintCells cells tid h e overwrite s))).
Proof.
  intro H.
  destruct (getTerrainType tid) as [terrainType|] eqn:Hget.
  2:{ unfold paintCells. rewrite Hget. exact H. }
  destruct (usesHeight terrainType && Qle_bool h 0) eqn:H1.
  { unfold paintCells. rewrite Hget, H1. exact H. }
  destruct (usesHeight terrainType && Qltb e 0) eqn:H2.
  { unfold paintCells. rewrite Hget, H1, H2. exact H. }
  rewrite (paintCells_unfold cells tid h e overwrite terrainType s Hget H1 H2).
  pose proof (paintCells_fold_onePerPosition tid h e overwrite cells (data s, [], false) H) as Hf.
  destruct (fold_left _ cells _) as [[d' history] anyAdded]. cbn [fst] in Hf.
  apply commit_onePerPosition. cbn [data setData].
  destruct anyAdded; [now apply onePerPosition_sort | exact Hf].
Qed.

Lemma eraseCells_onePerPosition (cells : list Position) (s : HeightMap) :
  onePerPosition (data s) -> onePerPosition (data (snd (eraseCells cells s))).
Proof.
  intro H. rewrite eraseCells_unfold.
  pose proof (eraseCells_fold_onePerPosition cells (data s, []) H) as Hf.
  destruct (fold_left _ cells _) as [d' history]. cbn [fst] in Hf.
  now apply commit_onePerPosition.
Qed.

Lemma undo_data (s : HeightMap) :
  data (snd (undo s))
  = match _history s with
    | [] => data s
    | first :: _ =>
        filter available
          (let '(d', anyAdded) :=
             fold_left revertItem (last (_history s) first) (data s, false) in
           if anyAdded then sort positionBefore d' else d')
    end.
Proof.
  unfold undo. unfold bind at 1. unfold gets. cbn [fst snd].
  destruct (_history s) as [|first h]; [reflexivity|].
  unfold bind, modify, gets, saveChanges, sortData, when, ret. cbn [fst snd].
  destruct (fold_left revertItem _ _) as [d' anyAdded].
  destruct anyAdded; reflexivity.
Qed.

Lemma undo_onePerPosition (s : HeightMap) :
  onePerPosition (data s) -> onePerPosition (data (snd (undo s))).
Proof.
  intro H. rewrite undo_data. destruct (_history s) as [|first h]; [exact H|].
  apply onePerPosition_filter.
  pose proof (revertItems_onePerPosition (last (first :: h) first) (data s, false) H) as Hf.
  destruct (fold_left revertItem _ _) as [d' anyAdded]. cbn [fst] in Hf.
  destruct anyAdded; [now apply onePerPosition_sort | exact Hf].
Qed.

Lemma perform_onePerPosition (m : Mutation) (s : HeightMap) :
  onePerPosition (data s) -> onePerPosition (data (snd (perform m s))).
Proof.
  intro H. destruct m; cbn [perform]; rewrite ?asValue_snd.
  - now apply paintCells_onePerPosition.
  - destruct (fillCells_cases fuel startCell terrainTypeId' height' elevation' s)
      as [[r [E _]]|[cells E]]; rewrite E; [exact H|].
    rewrite asValue_snd. now apply paintCells_onePerPosition.
  - now apply eraseCells_onePerPosition.
  - destruct (eraseFillCells_cases fuel startCell s) as [[r [E _]]|[cells E]]; rewrite E;
      [exact H | now apply eraseCells_onePerPosition].
  - rewrite clear_data. constructor.
  - now apply undo_onePerPosition.
Qed.

(** X1. Whatever is called, in whatever order, with whatever arguments and
    whether or not a call throws, a store with at most one cell per position
    stays one. *)
Theorem performAll_keeps_onePerPosition (ms : list Mutation) (s : HeightMap) :
  onePerPosition (data s) -> onePerPosition (data (performAll ms s)).
Proof.
  revert s. induction ms as [|m ms IH]; intros s H; [exact H|].
  unfold performAll. cbn [fold_left]. apply IH. now apply perform_onePerPosition.
Qed.

End OnePerPosition.

Module OnePerPositionExamples.
Import SquareWorld.

Lemma performAll_keeps_onePerPosition_witness :
  onePerPosition (data (performAll fifteenPaints emptyMap))
  /\ List.length (data (performAll fifteenPaints emptyMap)) = 15%nat.
Proof.
  split; [|reflexivity].
  apply performAll_keeps_onePerPosition. constructor.
Defined.

End OnePerPositionExamples.

(** ** The order of the store *)

Section SortedStore.
Context {TC : TerrainCatalog} {GE : Geometry} {GR : Grid}.

Lemma positionBefore_asym (a b : Cell) :
  positionBefore a b = true -> positionBefore b a = false.
Proof.
  unfold positionBefore. destruct (position a) as [ra ca], (position b) as [rb cb]. simpl.
  intro H. apply orb_true_iff in H. apply orb_false_iff. rewrite andb_false_iff.
  rewrite Z.ltb_ge, Z.ltb_ge, Z.eqb_neq.
  destruct H as [H|H]; [apply Z.ltb_lt in H|apply andb_true_iff in H; destruct H as [H1 H2];
    apply Z.eqb_eq in H1; apply Z.ltb_lt in H2]; lia.
Qed.

Lemma positionBefore_le_trans (a b c : Cell) :
  positionBefore b a = false -> positionBefore c b = false -> positionBefore c a = false.
Proof.
  unfold positionBefore. destruct (position a) as [ra ca], (position b) as [rb cb],
    (position c) as [rc cc]. simpl.
  rewrite !orb_false_iff, !andb_false_iff, !Z.ltb_ge, !Z.eqb_neq. lia.
Qed.

Lemma insert_sortedStore (a : Cell) (d : list Cell) :
  sortedStore d -> sortedStore (insert positionBefore a d).
Proof.
  unfold sortedStore. induction d as [|b d IH]; intro H; simpl.
  - constructor; constructor.
  - apply StronglySorted_inv in H. destruct H as [Hd Hb].
    destruct (positionBefore b a) eqn:Eba.
    + constructor; [now apply IH|]. apply Forall_forall. intros c Hc.
      apply In_insert in Hc. destruct Hc as [->|Hc].
      * now apply positionBefore_asym.
      * rewrite Forall_forall in Hb. now apply Hb.
    + constructor; [constructor; assumption|]. constructor; [exact Eba|].
      apply Forall_forall. intros c Hc. rewrite Forall_forall in Hb.
      apply positionBefore_le_trans with b; [exact Eba | now apply Hb].
Qed.

(** [#sortData] sorts. *)
Lemma sort_sortedStore (d : list Cell) : sortedStore (sort positionBefore d).
Proof.
  induction d as [|a d IH]; simpl; [constructor | now apply insert_sortedStore].
Qed.

Lemma sortedStore_positions (d d' : list Cell) :
  map position d = map position d' -> sortedStore d -> sortedStore d'.
Proof.
  unfold sortedStore. revert d'. induction d as [|a d IH]; intros [|a' d'] Hm H;
    try discriminate; [constructor|].
  simpl in Hm. inversion Hm as [[Ha Hd]]. apply StronglySorted_inv in H.
  destruct H as [Hs Hall]. constructor; [now apply IH|].
  rewrite Forall_forall in *. intros b' Hb'.
  assert (Hin : In (position b') (map position d)) by (rewrite Hd; now apply in_map).
  apply in_map_iff in Hin. destruct Hin as [b [Hb Hin]]. specialize (Hall b Hin).
  unfold positionBefore in *. rewrite <- Ha, <- Hb. exact Hall.
Qed.

Lemma sortedStore_removeAt (i : nat) (d : list Cell) :
  sortedStore d -> sortedStore (removeAt i d).
Proof.
  unfold sortedStore. revert i. induction d as [|a d IH]; intros i H; [destruct i; exact H|].
  apply StronglySorted_inv in H. destruct H as [Hs Hall].
  destruct i as [|i]; simpl; [exact Hs|]. constructor; [now apply IH|].
  rewrite Forall_forall in *. intros b Hb. apply Hall. exact (In_removeAt _ _ _ _ Hb).
Qed.

Lemma sortedStore_filter (p : Cell -> bool) (d : list Cell) :
  sortedStore d -> sortedStore (filter p d).
Proof.
  unfold sortedStore. induction d as [|a d IH]; intro H; [exact H|].
  apply StronglySorted_inv in H. destruct H as [Hs Hall]. simpl.
  destruct (p a); [|now apply IH]. constructor; [now apply IH|].
  rewrite Forall_forall in *. intros b Hb. apply filter_In in Hb. now apply Hall.
Qed.

Lemma paintCell_sortedStore (tid : string) (h e : Q) (overwrite : bool)
  (acc : list Cell * HistoryEntry * bool) (cell : Position) :
  (snd acc = false -> sortedStore (fst (fst acc))) ->
  snd (paintCell tid h e overwrite acc cell) = false ->
  sortedStore (fst (fst (paintCell tid h e overwrite acc cell))).
Proof.
  destruct acc as [[d history] anyAdded]. cbn [fst snd]. intro H. unfold paintCell.
  destruct (get d cell) as [existing|].
  - destruct (negb overwrite); [exact H|]. destruct (_ && _); [exact H|].
    cbn [fst snd]. intro Ha. apply (sortedStore_positions d); [|now apply H].
    symmetry. apply map_position_updateFirst. apply repaint_position.
  - cbn [snd]. discriminate.
Qed.

Lemma paintCells_fold_sortedStore (tid : string) (h e : Q) (overwrite : bool)
  (cells : list Position) (acc : list Cell * HistoryEntry * bool) :
  (snd acc = false -> sortedStore (fst (fst acc))) ->
  snd (fold_left (paintCell tid h e overwrite) cells acc) = false ->
  sortedStore (fst (fst (fold_left (paintCell tid h e overwrite) cells acc))).
Proof.
  revert acc. induction cells as [|cell cells IH]; intros acc H; [exact H|].
  simpl. apply IH. now apply paintCell_sortedStore.
Qed.

Lemma revertItem_sortedStore (acc : list Cell * bool) (revert : HistoryItem) :
  (snd acc = false -> sortedStore (fst acc)) ->
  snd (revertItem acc revert) = false ->
  sortedStore (fst (revertItem acc revert)).
Proof.
  destruct acc as [d anyAdded]. cbn [fst snd]. intro H. unfold revertItem.
  destruct (h_terrainTypeId revert) as [tid|];
    destruct (findIndex (samePosition (h_position revert)) d) as [i|] eqn:Ei; cbn [fst snd].
  - intro Ha. rewrite (updateAt_found _ _ _ _ Ei).
    apply (sortedStore_positions d); [|now apply H].
    symmetry. now apply map_position_updateFirst.
  - discriminate.
  - intro Ha. apply sortedStore_removeAt. now apply H.
  - exact H.
Qed.

Lemma revertItems_sortedStore (items : HistoryEntry) (acc : list Cell * bool) :
  (snd acc = false -> sortedStore (fst acc)) ->
  snd (fold_left revertItem items acc) = false ->
  sortedStore (fst (fold_left revertItem items acc)).
Proof.
  revert acc. induction items as [|r items IH]; intros acc H; [exact H|].
  simpl. apply IH. now apply revertItem_sortedStore.
Qed.

Lemma eraseCells_fold_sortedStore (cells : list Position) (acc : list Cell * HistoryEntry) :
  sortedStore (fst acc) -> sortedStore (fst (fold_left eraseCell cells acc)).
Proof.
  revert acc. induction cells as [|cell cells IH]; intros acc H; [exact H|].
  simpl. apply IH. destruct acc as [d history]. unfold eraseCell. cbn [fst] in *.
  destruct (findIndex (samePosition cell) d) as [i|]; [|exact H].
  destruct (nth_error d i); [|exact H]. cbn [fst]. now apply sortedStore_removeAt.
Qed.

Lemma commit_sortedStore (history : HistoryEntry) (s : HeightMap) :
  sortedStore (data s) -> sortedStore (data (snd (commit history s))).
Proof.
  rewrite commit_data. destruct history; [trivial | apply sortedStore_filter].
Qed.

Lemma perform_sortedStore (m : Mutation) (s : HeightMap) :
  sortedStore (data s) -> sortedStore (data (snd (perform m s))).
Proof.
  intro H.
  assert (Hpaint : forall cells tid h e overwrite,
             sortedStore (data (snd (paintCells cells tid h e overwrite s)))).
  { intros cells tid h e overwrite.
    destruct (getTerrainType tid) as [terrainType|] eqn:Hget.
    2:{ unfold paintCells. rewrite Hget. exact H. }
    destruct (usesHeight terrainType && Qle_bool h 0) eqn:H1.
    { unfold paintCells. rewrite Hget, H1. exact H. }
    destruct (usesHeight terrainType && Qltb e 0) eqn:H2.
    { unfold paintCells. rewrite Hget, H1, H2. exact H. }
    rewrite (paintCells_unfold cells tid h e overwrite terrainType s Hget H1 H2).
    pose proof (paintCells_fold_sortedStore tid h e overwrite cells (data s, [], false)
                  (fun _ => H)) as Hf.
    destruct (fold_left _ cells _) as [[d' history] anyAdded]. cbn [fst snd] in Hf.
    apply commit_sortedStore. cbn [data setData].
    destruct anyAdded; [apply sort_sortedStore | now apply Hf]. }
  assert (Herase : forall cells, sortedStore (data (snd (eraseCells cells s)))).
  { intro cells. rewrite eraseCells_unfold.
    pose proof (eraseCells_fold_sortedStore cells (data s, []) H) as Hf.
    destruct (fold_left _ cells _) as [d' history]. cbn [fst] in Hf.
    now apply commit_sortedStore. }
  destruct m; cbn [perform]; rewrite ?asValue_snd.
  - apply Hpaint.
  - destruct (fillCells_cases fuel startCell terrainTypeId' height' elevation' s)
      as [[r [E _]]|[cells E]]; rewrite E; [exact H|].
    rewrite asValue_snd. apply Hpaint.
  - apply Herase.
  - destruct (eraseFillCells_cases fuel startCell s) as [[r [E _]]|[cells E]]; rewrite E;
      [exact H | apply Herase].
  - rewrite clear_data. constructor.
  - rewrite undo_data. destruct (_history s) as [|first hs]; [exact H|].
    apply sortedStore_filter.
    pose proof (revertItems_sortedStore (last (first :: hs) first) (data s, false)
                  (fun _ => H)) as Hf.
    destruct (fold_left revertItem _ _) as [d' anyAdded]. cbn [fst snd] in Hf.
    destruct anyAdded; [apply sort_sortedStore | now apply Hf].
Qed.

(** X2. A store that is sorted by row and then by column stays sorted,
    whatever is called, in whatever order, with whatever arguments and
    whether or not a call throws. *)
Theorem performAll_keeps_sortedStore (ms : list Mutation) (s : HeightMap) :
  sortedStore (data s) -> sortedStore (data (performAll ms s)).
Proof.
  revert s. induction ms as [|m ms IH]; intros s H; [exact H|].
  unfold performAll. cbn [fold_left]. apply IH. now apply perform_sortedStore.
Qed.

End SortedStore.

Module SortedStoreExamples.
Import SquareWorld.

Lemma performAll_keeps_sortedStore_witness :
  sortedStore (data (performAll scrambled emptyMap))
  /\ map position (data (performAll scrambled emptyMap))
     = [(0, 0); (0, 1); (0, 3); (1, 0); (1, 2); (2, 1)]%Z.
Proof.
  split; [|reflexivity].
  apply performAll_keeps_sortedStore. constructor.
Defined.

End SortedStoreExamples.

(** ** Painting: what is read back, and painting twice *)

Section PaintReadBack.
Context {TC : TerrainCatalog} {GE : Geometry} {GR : Grid}.

Lemma validPaint_checks (terrainType : TerrainType) (h e : Q) :
  validPaint terrainType h e ->
  usesHeight terrainType && Qle_bool h 0 = false
  /\ usesHeight terrainType && Qltb e 0 = false.
Proof.
  unfold validPaint. destruct (usesHeight terrainType); [|now split].
  intro H. destruct (H eq_refl) as [Hh He]. simpl. split.
  - now apply Qle_bool_false.
  - now apply Qltb_ge.
Qed.

Lemma getTerrainType_available (tid : string) (terrainType : TerrainType) (c : Cell) :
  getTerrainType tid = Some terrainType ->
  terrainTypeId c = tid ->
  available c = true.
Proof.
  unfold getTerrainType, available. intros H <-. apply find_some in H.
  destruct H as [Hin Heq]. apply existsb_exists. exists (tt_id terrainType).
  split; [now apply in_map|]. rewrite String.eqb_sym. exact Heq.
Qed.

Lemma paintedAs_terrainTypeId (tid : string) (h e : Q) (c : Cell) :
  paintedAs tid h e c = true -> terrainTypeId c = tid.
Proof.
  unfold paintedAs. rewrite !andb_true_iff. intros [[H _] _]. now apply String.eqb_eq.
Qed.

Lemma paintedAs_repaint (tid : string) (h e : Q) (c : Cell) :
  paintedAs tid h e (repaint tid h e c) = true.
Proof.
  unfold paintedAs, repaint, paintedCell. simpl.
  rewrite String.eqb_refl, !Qeq_bool_refl. reflexivity.
Qed.

(** What a position reads after one round of the loop of [paintCells]. *)
Lemma get_paintCell (tid : string) (h e : Q) (overwrite : bool)
  (d : list Cell) (history : HistoryEntry) (anyAdded : bool) (cell q : Position) :
  get (fst (fst (paintCell tid h e overwrite (d, history, anyAdded) cell))) q
  = if position_eqb cell q
    then match get d cell with
         | Some existing =>
             if negb overwrite then Some existing
             else if paintedAs tid h e existing then Some existing
             else Some (repaint tid h e existing)
         | None => Some (paintedCell cell tid h e)
         end
    else get d q.
Proof.
  unfold paintCell. destruct (get d cell) as [existing|] eqn:Eg.
  - destruct (negb overwrite).
    { cbn [fst]. destruct (position_eqb cell q) eqn:E; [|reflexivity].
      apply position_eqb_eq in E. subst q. exact Eg. }
    fold (paintedAs tid h e existing). destruct (paintedAs tid h e existing).
    { cbn [fst]. destruct (position_eqb cell q) eqn:E; [|reflexivity].
      apply position_eqb_eq in E. subst q. exact Eg. }
    cbn [fst]. rewrite get_updateFirst by apply repaint_position. rewrite Eg. reflexivity.
  - cbn [fst]. rewrite get_app. destruct (position_eqb cell q) eqn:E.
    + apply position_eqb_eq in E. subst q. rewrite Eg.
      unfold samePosition, paintedCell. simpl. now rewrite position_eqb_refl.
    + destruct (get d q); [reflexivity|]. unfold samePosition, paintedCell. simpl.
      now rewrite E.
Qed.

Lemma paintCell_readsPainted (tid : string) (h e : Q)
  (acc : list Cell * HistoryEntry * bool) (cell q : Position) :
  q = cell \/ readsPainted tid h e (fst (fst acc)) q ->
  readsPainted tid h e (fst (fst (paintCell tid h e true acc cell))) q.
Proof.
  destruct acc as [[d history] anyAdded]. cbn [fst]. intro H. unfold readsPainted.
  rewrite get_paintCell. cbn [negb].
  destruct (position_eqb cell q) eqn:E.
  - apply position_eqb_eq in E. subst q.
    destruct (get d cell) as [existing|] eqn:Eg.
    + destruct (paintedAs tid h e existing) eqn:Ep.
      * exists existing. now split.
      * exists (repaint tid h e existing). split; [reflexivity | apply paintedAs_repaint].
    + exists (paintedCell cell tid h e). split; [reflexivity|].
      apply (paintedAs_repaint tid h e (paintedCell cell tid h e)).
  - destruct H as [->|H]; [now rewrite position_eqb_refl in E | exact H].
Qed.

Lemma paintCells_fold_readsPainted (tid : string) (h e : Q) (cells : list Position)
  (acc : list Cell * HistoryEntry * bool) (q : Position) :
  In q cells \/ readsPainted tid h e (fst (fst acc)) q ->
  readsPainted tid h e (fst (fst (fold_left (paintCell tid h e true) cells acc))) q.
Proof.
  revert acc. induction cells as [|cell cells IH]; intros acc H.
  - destruct H as [[]|H]. exact H.
  - simpl. apply IH. destruct H as [[->|H]|H].
    + right. apply paintCell_readsPainted. now left.
    + now left.
    + right. apply paintCell_readsPainted. now right.
Qed.

Lemma find_filter_kept (A : Type) (p q : A -> bool) (l : list A) (a : A) :
  find p l = Some a -> q a = true -> find p (filter q l) = Some a.
Proof.
  induction l as [|b l IH]; [discriminate|]. simpl. destruct (p b) eqn:Eb.
  - intros H Hq. inversion H; subst. rewrite Hq. simpl. now rewrite Eb.
  - intros H Hq. destruct (q b); [simpl; rewrite Eb|]; now apply IH.
Qed.

Lemma paintCells_readsPainted (cells : list Position) (tid : string) (h e : Q)
  (terrainType : TerrainType) (s : HeightMap) (q : Position) :
  getTerrainType tid = Some terrainType ->
  validPaint terrainType h e ->
  In q cells ->
  readsPainted tid h e (data (snd (paintCells cells tid h e true s))) q.
Proof.
  intros Hget Hvalid Hq. destruct (validPaint_checks _ _ _ Hvalid) as [H1 H2].
  rewrite (paintCells_unfold cells tid h e true terrainType s Hget H1 H2).
  pose proof (paintCells_fold_readsPainted tid h e cells (data s, [], false) q
                (or_introl Hq)) as Hf.
  destruct (fold_left _ cells _) as [[d' history] anyAdded]. cbn [fst] in Hf.
  destruct Hf as [c [Hc Hp]].
  assert (Hs : get (if anyAdded then sort positionBefore d' else d') q = Some c).
  { destruct anyAdded; [now rewrite get_sort | exact Hc]. }
  exists c. split; [|exact Hp].
  rewrite commit_data. cbn [data setData]. destruct history; [exact Hs|].
  unfold get. apply find_filter_kept; [exact Hs|].
  apply (getTerrainType_available tid terrainType); [exact Hget|].
  now apply (paintedAs_terrainTypeId tid h e).
Qed.

(** X3. After [paintCells] with [overwrite] set, for a terrain type of the
    catalogue and values that pass the validation, every listed position
    reads a cell with the requested terrain type, height and elevation,
    also when the recomputation of the shapes throws. *)
Theorem paintCells_reads_back (cells : list Position) (tid : string) (h e : Q)
  (terrainType : TerrainType) (s : HeightMap) (q : Position) :
  getTerrainType tid = Some terrainType ->
  validPaint terrainType h e ->
  In q cells ->
  exists c,
    get (data (snd (paintCells cells tid h e true s))) q = Some c
    /\ position c = q
    /\ terrainTypeId c = tid
    /\ (exists h', height c = Some h' /\ h' == h)
    /\ (exists e', elevation c = Some e' /\ e' == e).
Proof.
  intros Hget Hvalid Hq.
  destruct (paintCells_readsPainted cells tid h e terrainType s q Hget Hvalid Hq)
    as [c [Hc Hp]].
  exists c. split; [exact Hc|].
  destruct (get_some_position _ _ _ Hc) as [_ Hpos]. split; [exact Hpos|].
  unfold paintedAs in Hp. rewrite !andb_true_iff in Hp. destruct Hp as [[Ht Hh] He].
  split; [now apply String.eqb_eq|]. split.
  - destruct (height c) as [h'|]; [|discriminate]. exists h'. split; [reflexivity|].
    now apply Qeq_bool_iff.
  - destruct (elevation c) as [e'|]; [|discriminate]. exists e'. split; [reflexivity|].
    now apply Qeq_bool_iff.
Qed.

Lemma paintCells_fold_noop (tid : string) (h e : Q) (cells : list Position)
  (acc : list Cell * HistoryEntry * bool) :
  (forall q, In q cells -> readsPainted tid h e (fst (fst acc)) q) ->
  fold_left (paintCell tid h e true) cells acc = acc.
Proof.
  induction cells as [|cell cells IH]; intro H; [reflexivity|].
  simpl. destruct acc as [[d history] anyAdded].
  assert (Hstep : paintCell tid h e true (d, history, anyAdded) cell = (d, history, anyAdded)).
  { destruct (H cell (or_introl eq_refl)) as [c [Hc Hp]]. cbn [fst] in Hc.
    unfold paintCell. rewrite Hc. cbn [negb]. fold (paintedAs tid h e c). now rewrite Hp. }
  rewrite Hstep. apply IH. intros q Hq. apply H. now right.
Qed.

Lemma setData_same (s : HeightMap) : setData (data s) s = s.
Proof. destruct s. reflexivity. Qed.

(** X4. Painting again what was just painted (with [overwrite] set) reports
    no change and leaves the instance as it is: the cells, the history and
    the shapes. *)
Theorem paintCells_twice_is_noop (cells : list Position) (tid : string) (h e : Q)
  (terrainType : TerrainType) (s : HeightMap) :
  getTerrainType tid = Some terrainType ->
  validPaint terrainType h e ->
  paintCells cells tid h e true (snd (paintCells cells tid h e true s))
  = (Ok false, snd (paintCells cells tid h e true s)).
Proof.
  intros Hget Hvalid. destruct (validPaint_checks _ _ _ Hvalid) as [H1 H2].
  set (s1 := snd (paintCells cells tid h e true s)).
  rewrite (paintCells_unfold cells tid h e true terrainType s1 Hget H1 H2).
  rewrite paintCells_fold_noop.
  - unfold commit, bind, when, ret. cbn [nonEmpty fst snd]. now rewrite setData_same.
  - intros q Hq. cbn [fst].
    exact (paintCells_readsPainted cells tid h e terrainType s q Hget Hvalid Hq).
Qed.

End PaintReadBack.

Module PaintReadBackExamples.
Import SquareWorld.

Lemma paintCells_reads_back_witness :
  exists c,
    get (data (snd (paintCells (block 0 0 2 2) "rock" 1 0 true emptyMap))) (1, 0)%Z = Some c
    /\ position c = (1, 0)%Z
    /\ terrainTypeId c = "rock"%string
    /\ (exists h', height c = Some h' /\ h' == 1)
    /\ (exists e', elevation c = Some e' /\ e' == 0).
Proof.
  apply paintCells_reads_back with (terrainType := {| tt_id := "rock"; usesHeight := true |}).
  - reflexivity.
  - intros _. split; [reflexivity | discriminate].
  - right. right. left. reflexivity.
Defined.

Lemma paintCells_twice_is_noop_witness :
  paintCells (block 0 0 2 2) "rock" 1 0 true painted = (Ok false, painted).
Proof.
  apply (paintCells_twice_is_noop (block 0 0 2 2) "rock" 1 0
           {| tt_id := "rock"; usesHeight := true |} emptyMap).
  - reflexivity.
  - intros _. split; [reflexivity | discriminate].
Defined.

End PaintReadBackExamples.

(** ** Erasing *)

Section Erasing.
Context {TC : TerrainCatalog} {GE : Geometry} {GR : Grid}.

Lemma eraseCell_unpainted (d : list Cell) (history : HistoryEntry) (cell : Position) :
  get d cell = None -> eraseCell (d, history) cell = (d, history).
Proof.
  intro H. unfold eraseCell. pose proof (findIndex_get d cell) as Hf.
  destruct (findIndex (samePosition cell) d) as [i|]; [|reflexivity].
  destruct Hf as [c [Hc _]]. congruence.
Qed.

Lemma eraseCells_fold_unpainted (cells : list Position) (d : list Cell)
  (history : HistoryEntry) :
  (forall q, In q cells -> get d q = None) ->
  fold_left eraseCell cells (d, history) = (d, history).
Proof.
  induction cells as [|cell cells IH]; intro H; [reflexivity|].
  cbn [fold_left]. rewrite eraseCell_unpainted by (apply H; now left).
  apply IH. intros q Hq. apply H. now right.
Qed.

(** X5. Erasing positions that hold no cell reports no change and leaves
    the instance as it is: no history entry, no recomputation. *)
Theorem eraseCells_unpainted_is_noop (cells : list Position) (s : HeightMap) :
  (forall q, In q cells -> get (data s) q = None) ->
  eraseCells cells s = (Ok false, s).
Proof.
  intro H. rewrite eraseCells_unfold, (eraseCells_fold_unpainted cells _ _ H).
  unfold commit, bind, when, ret. cbn [nonEmpty fst snd]. now rewrite setData_same.
Qed.

Lemma get_eraseCell (d : list Cell) (history : HistoryEntry) (cell q : Position) :
  onePerPosition d ->
  get (fst (eraseCell (d, history) cell)) q
  = if position_eqb cell q then None else get d q.
Proof.
  intro Hnd. unfold eraseCell. pose proof (findIndex_get d cell) as Hf.
  destruct (findIndex (samePosition cell) d) as [i|] eqn:Ei.
  - destruct Hf as [c [Hc Hn]]. rewrite Hn. cbn [fst].
    destruct (position_eqb cell q) eqn:E.
    + apply position_eqb_eq in E. subst q. now apply get_removeAt_same.
    + apply get_removeAt_other with (cell := cell); [exact Ei|].
      intros ->. now rewrite position_eqb_refl in E.
  - cbn [fst]. destruct (position_eqb cell q) eqn:E; [|reflexivity].
    apply position_eqb_eq in E. now subst q.
Qed.

Lemma eraseCells_fold_get (cells : list Position) (d : list Cell)
  (history : HistoryEntry) (q : Position) :
  onePerPosition d ->
  get (fst (fold_left eraseCell cells (d, history))) q
  = if existsb (fun cell => position_eqb cell q) cells then None else get d q.
Proof.
  revert d history. induction cells as [|cell cells IH]; intros d history Hnd;
    [reflexivity|].
  cbn [fold_left existsb].
  pose proof (eraseCell_onePerPosition (d, history) cell Hnd) as Hnd'.
  pose proof (get_eraseCell d history cell q Hnd) as Hg.
  destruct (eraseCell (d, history) cell) as [d1 history1]. cbn [fst] in *.
  rewrite (IH d1 history1 Hnd'), Hg.
  destruct (position_eqb cell q); simpl; [|reflexivity].
  destruct (existsb _ cells); reflexivity.
Qed.

Lemma get_filter_none (p : Cell -> bool) (d : list Cell) (q : Position) :
  get d q = None -> get (filter p d) q = None.
Proof.
  unfold get. intro H.
  destruct (find (samePosition q) (filter p d)) as [c|] eqn:E; [|reflexivity].
  apply find_some in E. destruct E as [Hin Hq]. apply filter_In in Hin.
  rewrite (find_none _ _ H c (proj1 Hin)) in Hq. discriminate.
Qed.

Lemma get_filter_available (d : list Cell) (q : Position) :
  (forall c, get d q = Some c -> available c = true) ->
  get (filter available d) q = get d q.
Proof.
  intro H. destruct (get d q) as [c|] eqn:E.
  - unfold get in *. apply find_filter_kept; [exact E | now apply H].
  - now apply get_filter_none.
Qed.

(** X6. With one cell per position, [eraseCells] leaves every listed
    position without a cell, and every other position whose cell has a
    terrain type of the catalogue reads as before. *)
Theorem eraseCells_erases (cells : list Position) (s : HeightMap) (q : Position) :
  onePerPosition (data s) ->
  (In q cells -> get (data (snd (eraseCells cells s))) q = None)
  /\ (~ In q cells ->
      (forall c, get (data s) q = Some c -> available c = true) ->
      get (data (snd (eraseCells cells s))) q = get (data s) q).
Proof.
  intro Hnd. rewrite eraseCells_unfold.
  pose proof (eraseCells_fold_get cells (data s) [] q Hnd) as Hg.
  destruct (fold_left eraseCell cells _) as [d' history]. cbn [fst] in Hg.
  rewrite commit_data. cbn [data setData]. split.
  - intro Hin.
    assert (He : existsb (fun cell => position_eqb cell q) cells = true).
    { apply existsb_exists. exists q. split; [exact Hin | apply position_eqb_refl]. }
    rewrite He in Hg. destruct history; [exact Hg | now apply get_filter_none].
  - intros Hnot Hav.
    assert (He : existsb (fun cell => position_eqb cell q) cells = false).
    { apply not_true_is_false. intro He. apply existsb_exists in He.
      destruct He as [cell [Hc Hq]]. apply position_eqb_eq in Hq. now subst. }
    rewrite He in Hg. destruct history; [exact Hg|].
    rewrite get_filter_available; [exact Hg|]. now rewrite Hg.
Qed.

End Erasing.

(** The painted block of the examples, cell by cell. *)

Module PaintedBlock.
Import SquareWorld.

Lemma painted_data :
  data painted
  = [ {| position := (0, 0)%Z; terrainTypeId := "rock"; height := Some 1; elevation := Some 0 |};
      {| position := (0, 1)%Z; terrainTypeId := "rock"; height := Some 1; elevation := Some 0 |};
      {| position := (1, 0)%Z; terrainTypeId := "rock"; height := Some 1; elevation := Some 0 |};
      {| position := (1, 1)%Z; terrainTypeId := "rock"; height := Some 1; elevation := Some 0 |} ].
Proof. reflexivity. Qed.

Lemma painted_history : List.length (_history painted) = 1%nat.
Proof. reflexivity. Qed.

Lemma painted_onePerPosition : onePerPosition (data painted).
Proof.
  rewrite painted_data. unfold onePerPosition.
  repeat constructor; simpl; intuition discriminate.
Qed.

Lemma painted_allAvailable : allAvailable (data painted).
Proof.
  rewrite painted_data. intros c Hc. simpl in Hc. intuition (subst; reflexivity).
Qed.

Lemma painted_sortedStore : sortedStore (data painted).
Proof. rewrite painted_data. unfold sortedStore. repeat constructor. Qed.

End PaintedBlock.

Module ErasingExamples.
Import SquareWorld.

Lemma eraseCells_unpainted_is_noop_witness :
  eraseCells [(5, 5); (7, 1)]%Z painted = (Ok false, painted).
Proof.
  apply eraseCells_unpainted_is_noop.
  intros q [<-|[<-|[]]]; reflexivity.
Defined.

Lemma eraseCells_erases_witness :
  get (data (snd (eraseCells [(0, 0); (1, 1)]%Z painted))) (1, 1)%Z = None
  /\ get (data (snd (eraseCells [(0, 0); (1, 1)]%Z painted))) (0, 1)%Z
     = get (data painted) (0, 1)%Z.
Proof.
  pose proof PaintedBlock.painted_onePerPosition as Hnd.
  split.
  - apply (eraseCells_erases [(0, 0); (1, 1)]%Z painted (1, 1)%Z Hnd).
    right. left. reflexivity.
  - apply (eraseCells_erases [(0, 0); (1, 1)]%Z painted (0, 1)%Z Hnd).
    + intros [H|[H|[]]]; discriminate H.
    + intros c Hc. apply PaintedBlock.painted_allAvailable.
      exact (proj1 (get_some_position _ _ _ Hc)).
Defined.

End ErasingExamples.

(** ** Paint, then undo *)

Section PaintThenUndo.
Context {TC : TerrainCatalog} {GE : Geometry} {GR : Grid}.

Lemma In_updateFirst (p : Cell -> bool) (f : Cell -> Cell) (d : list Cell) (x : Cell) :
  In x (updateFirst p f d) -> In x d \/ exists c, In c d /\ x = f c.
Proof.
  induction d as [|c d IH]; [intros []|]. simpl. destruct (p c); simpl.
  - intros [<-|H]; [right; exists c; split; [now left | reflexivity] | left; now right].
  - intros [<-|H]; [left; now left|]. destruct (IH H) as [H'|[c' [Hc' Hx]]].
    + left. now right.
    + right. exists c'. split; [now right | exact Hx].
Qed.

Lemma paintCell_invariant (tid : string) (h e : Q) (overwrite : bool)
  (terrainType : TerrainType) (d0 d : list Cell) (history : HistoryEntry)
  (anyAdded : bool) (cell : Position) :
  getTerrainType tid = Some terrainType ->
  paintInvariant tid h e d0 d history ->
  paintInvariant tid h e d0
    (fst (fst (paintCell tid h e overwrite (d, history, anyAdded) cell)))
    (snd (fst (paintCell tid h e overwrite (d, history, anyAdded) cell))).
Proof.
  intros Hget (Hnd & Hav & Hh & Hframe & Hitems).
  pose proof (paintCell_onePerPosition tid h e overwrite (d, history, anyAdded) cell Hnd)
    as Hnd'.
  pose proof (fun q => get_paintCell tid h e overwrite d history anyAdded cell q) as Hg.
  assert (Hskip : forall existing, get d cell = Some existing ->
             (negb overwrite = true \/ paintedAs tid h e existing = true) ->
             paintCell tid h e overwrite (d, history, anyAdded) cell = (d, history, anyAdded)).
  { intros existing Hex Hor. unfold paintCell. rewrite Hex.
    destruct (negb overwrite); [reflexivity|]. destruct Hor as [Hor|Hor]; [discriminate|].
    fold (paintedAs tid h e existing). now rewrite Hor. }
  (* a position already in the entry is skipped *)
  assert (Hfresh : paintCell tid h e overwrite (d, history, anyAdded) cell
                   <> (d, history, anyAdded) -> ~ In cell (map h_position history)).
  { intros Hchg Hin. apply Hchg. apply in_map_iff in Hin. destruct Hin as [r [Hr Hin]].
    destruct (Hitems r Hin) as [[c [Hc Hp]] _]. rewrite Hr in Hc.
    apply (Hskip c Hc). now right. }
  unfold paintCell in *. destruct (get d cell) as [existing|] eqn:Eg.
  - destruct (negb overwrite) eqn:Eo.
    { cbn [fst snd]. exact (conj Hnd (conj Hav (conj Hh (conj Hframe Hitems)))). }
    fold (paintedAs tid h e existing) in *.
    destruct (paintedAs tid h e existing) eqn:Ep.
    { cbn [fst snd]. exact (conj Hnd (conj Hav (conj Hh (conj Hframe Hitems)))). }
    cbn [fst snd] in *.
    assert (Hc : ~ In cell (map h_position history)).
    { apply Hfresh. intro H.
      apply (f_equal (fun x => List.length (snd (fst x)))) in H. cbn [fst snd] in H.
      rewrite length_app in H. simpl in H. lia. }
    split; [exact Hnd'|]. split; [|split; [|split]].
    + intros x Hx. apply In_updateFirst in Hx. destruct Hx as [Hx|[c [_ ->]]];
        [now apply Hav|]. now apply (getTerrainType_available tid terrainType).
    + rewrite map_app. simpl. apply Permutation_NoDup with (cell :: map h_position history);
        [apply Permutation_cons_append | now constructor].
    + intros q Hq. rewrite map_app, in_app_iff in Hq. simpl in Hq.
      rewrite Hg. destruct (position_eqb cell q) eqn:E.
      * apply position_eqb_eq in E. tauto.
      * apply Hframe. tauto.
    + intros r Hr. apply in_app_or in Hr. destruct Hr as [Hr|[<-|[]]].
      * destruct (Hitems r Hr) as [Hread Hprior]. split; [|exact Hprior].
        unfold readsPainted. rewrite Hg.
        destruct (position_eqb cell (h_position r)) eqn:E; [|exact Hread].
        apply position_eqb_eq in E. exfalso. apply Hc. rewrite E. now apply in_map.
      * cbn [h_position]. split.
        -- unfold readsPainted. rewrite Hg, position_eqb_refl.
           exists (repaint tid h e existing). split; [reflexivity | apply paintedAs_repaint].
        -- unfold priorOf. cbn [h_position h_terrainTypeId h_height h_elevation].
           rewrite <- (Hframe cell Hc), Eg. repeat split.
  - cbn [fst snd] in *.
    assert (Hc : ~ In cell (map h_position history)).
    { apply Hfresh. intro H.
      apply (f_equal (fun x => List.length (snd (fst x)))) in H. cbn [fst snd] in H.
      rewrite length_app in H. simpl in H. lia. }
    split; [exact Hnd'|]. split; [|split; [|split]].
    + intros x Hx. apply in_app_or in Hx. destruct Hx as [Hx|[<-|[]]]; [now apply Hav|].
      now apply (getTerrainType_available tid terrainType).
    + rewrite map_app. simpl. apply Permutation_NoDup with (cell :: map h_position history);
        [apply Permutation_cons_append | now constructor].
    + intros q Hq. rewrite map_app, in_app_iff in Hq. simpl in Hq.
      rewrite Hg. destruct (position_eqb cell q) eqn:E.
      * apply position_eqb_eq in E. tauto.
      * apply Hframe. tauto.
    + intros r Hr. apply in_app_or in Hr. destruct Hr as [Hr|[<-|[]]].
      * destruct (Hitems r Hr) as [Hread Hprior]. split; [|exact Hprior].
        unfold readsPainted. rewrite Hg.
        destruct (position_eqb cell (h_position r)) eqn:E; [|exact Hread].
        apply position_eqb_eq in E. exfalso. apply Hc. rewrite E. now apply in_map.
      * cbn [h_position]. split.
        -- unfold readsPainted. rewrite Hg, position_eqb_refl.
           exists (paintedCell cell tid h e). split; [reflexivity|].
           apply (paintedAs_repaint tid h e (paintedCell cell tid h e)).
        -- unfold priorOf. cbn [h_position h_terrainTypeId].
           now rewrite <- (Hframe cell Hc), Eg.
Qed.

Lemma paintCells_fold_invariant (tid : string) (h e : Q) (overwrite : bool)
  (terrainType : TerrainType) (d0 : list Cell) (cells : list Position)
  (d : list Cell) (history : HistoryEntry) (anyAdded : bool) :
  getTerrainType tid = Some terrainType ->
  paintInvariant tid h e d0 d history ->
  paintInvariant tid h e d0
    (fst (fst (fold_left (paintCell tid h e overwrite) cells (d, history, anyAdded))))
    (snd (fst (fold_left (paintCell tid h e overwrite) cells (d, history, anyAdded)))).
Proof.
  intro Hget. revert d history anyAdded.
  induction cells as [|cell cells IH]; intros d history anyAdded H; [exact H|].
  cbn [fold_left].
  pose proof (paintCell_invariant tid h e overwrite terrainType d0 d history anyAdded cell
                Hget H) as H'.
  destruct (paintCell tid h e overwrite (d, history, anyAdded) cell) as [[d1 h1] a1].
  now apply IH.
Qed.

End PaintThenUndo.

Section UndoOfPaint.
Context {TC : TerrainCatalog} {GE : Geometry} {GR : Grid}.

Lemma position_eq_dec (a b : Position) : {a = b} + {a <> b}.
Proof. decide equality; apply Z.eq_dec. Qed.

Lemma revertItem_invariant (d0 d : list Cell) (done todo : HistoryEntry)
  (r : HistoryItem) (anyAdded : bool) :
  NoDup (map h_position (done ++ r :: todo)) ->
  revertInvariant d0 d done (r :: todo) ->
  revertInvariant d0 (fst (revertItem (d, anyAdded) r)) (done ++ [r]) todo
  /\ snd (revertItem (d, anyAdded) r) = anyAdded.
Proof.
  intros Hnd (H1 & H2 & H3 & H4).
  assert (Hr_done : forall r', In r' done -> h_position r' <> h_position r).
  { intros r' Hr' E. rewrite map_app in Hnd. simpl in Hnd.
    apply NoDup_remove_2 in Hnd. apply Hnd. apply in_or_app. left.
    rewrite <- E. now apply in_map. }
  assert (Hr_todo : forall r', In r' todo -> h_position r' <> h_position r).
  { intros r' Hr' E. rewrite map_app in Hnd. simpl in Hnd.
    apply NoDup_remove_2 in Hnd. apply Hnd. apply in_or_app. right.
    rewrite <- E. now apply in_map. }
  assert (Hsame : forall q, ~ In q (map h_position ((done ++ [r]) ++ todo)) ->
                    ~ In q (map h_position (done ++ r :: todo)) /\ q <> h_position r).
  { intros q Hq. rewrite <- app_assoc in Hq. simpl in Hq. split; [exact Hq|].
    intros ->. apply Hq. rewrite map_app. apply in_or_app. right. now left. }
  destruct (H3 r (or_introl eq_refl)) as [Hsome Hprior].
  pose proof (findIndex_get d (h_position r)) as Hf.
  unfold revertItem.
  destruct (findIndex (samePosition (h_position r)) d) as [i|] eqn:Ei;
    [|congruence].
  destruct Hf as [c [Hc Hn]]. destruct (get_some_position _ _ _ Hc) as [_ Hpos].
  unfold priorOf in Hprior.
  destruct (h_terrainTypeId r) as [tid0|] eqn:Et.
  - (* the position had a cell: it is put back *)
    destruct (get d0 (h_position r)) as [c0|] eqn:E0; [|discriminate].
    destruct Hprior as (Htid & Hh & He). inversion Htid; subst tid0.
    destruct (get_some_position _ _ _ E0) as [_ Hpos0].
    cbn [fst snd]. split; [|reflexivity].
    rewrite (updateAt_found _ _ _ _ Ei).
    assert (Hg : forall q,
      get (updateFirst (samePosition (h_position r))
             (fun c1 => restoredCell (position c1) (terrainTypeId c0) r) d) q
      = if position_eqb (h_position r) q then Some c0 else get d q).
    { intro q. rewrite get_updateFirst by reflexivity. rewrite Hc. simpl.
      destruct (position_eqb (h_position r) q); [|reflexivity].
      f_equal. unfold restoredCell. rewrite Hpos, Hh, He, <- Hpos0.
      destruct c0; reflexivity. }
    split; [|split; [|split]].
    + unfold onePerPosition. now rewrite map_position_updateFirst.
    + intros q Hq. destruct (Hsame q Hq) as [Hq' Hne]. rewrite Hg.
      destruct (position_eqb (h_position r) q) eqn:E; [|now apply H2].
      apply position_eqb_eq in E. congruence.
    + intros r' Hr'. destruct (H3 r' (or_intror Hr')) as [Hs' Hp']. split; [|exact Hp'].
      rewrite Hg. destruct (position_eqb (h_position r) (h_position r')) eqn:E; [|exact Hs'].
      apply position_eqb_eq in E. exfalso. now apply (Hr_todo r' Hr').
    + intros r' Hr'. apply in_app_or in Hr'. rewrite Hg. destruct Hr' as [Hr'|[<-|[]]].
      * destruct (position_eqb (h_position r) (h_position r')) eqn:E; [|now apply H4].
        apply position_eqb_eq in E. exfalso. now apply (Hr_done r' Hr').
      * now rewrite position_eqb_refl.
  - (* the position had no cell: the painted cell is removed *)
    destruct (get d0 (h_position r)) as [c0|] eqn:E0; [destruct Hprior; discriminate|].
    cbn [fst snd]. split; [|reflexivity].
    split; [|split; [|split]].
    + now apply onePerPosition_removeAt.
    + intros q Hq. destruct (Hsame q Hq) as [Hq' Hne].
      rewrite (get_removeAt_other d (h_position r) q i Ei Hne). now apply H2.
    + intros r' Hr'. destruct (H3 r' (or_intror Hr')) as [Hs' Hp']. split; [|exact Hp'].
      rewrite (get_removeAt_other d (h_position r) _ i Ei); [exact Hs'|].
      now apply Hr_todo.
    + intros r' Hr'. apply in_app_or in Hr'. destruct Hr' as [Hr'|[<-|[]]].
      * rewrite (get_removeAt_other d (h_position r) _ i Ei); [now apply H4|].
        now apply Hr_done.
      * rewrite (get_removeAt_same d (h_position r) i H1 Ei). now symmetry.
Qed.

Lemma revertItems_invariant (d0 : list Cell) (todo : HistoryEntry) (d : list Cell)
  (done : HistoryEntry) (anyAdded : bool) :
  NoDup (map h_position (done ++ todo)) ->
  revertInvariant d0 d done todo ->
  revertInvariant d0 (fst (fold_left revertItem todo (d, anyAdded))) (done ++ todo) []
  /\ snd (fold_left revertItem todo (d, anyAdded)) = anyAdded.
Proof.
  revert d done anyAdded. induction todo as [|r todo IH]; intros d done anyAdded Hnd H.
  - rewrite app_nil_r. now split.
  - cbn [fold_left].
    destruct (revertItem_invariant d0 d done todo r anyAdded Hnd H) as [H' Ha].
    destruct (revertItem (d, anyAdded) r) as [d1 a1]. cbn [fst snd] in *. subst a1.
    replace (done ++ r :: todo) with ((done ++ [r]) ++ todo) in *
      by (rewrite <- app_assoc; reflexivity).
    now apply IH.
Qed.

Lemma revertInvariant_done (d0 d : list Cell) (entry : HistoryEntry) (q : Position) :
  revertInvariant d0 d entry [] -> get d q = get d0 q.
Proof.
  intros (_ & H2 & _ & H4).
  destruct (in_dec position_eq_dec q (map h_position entry)) as [Hin|Hnot].
  - apply in_map_iff in Hin. destruct Hin as [r [<- Hr]]. now apply H4.
  - apply H2. now rewrite app_nil_r.
Qed.

Lemma filter_allAvailable (d : list Cell) : allAvailable d -> filter available d = d.
Proof.
  unfold allAvailable. induction d as [|c d IH]; intro H; [reflexivity|]. simpl.
  rewrite (H c) by now left. f_equal. apply IH. intros x Hx. apply H. now right.
Qed.

(** Two sorted stores with one cell per position that read the same at
    every position are the same list. *)
Lemma store_extensionality (d1 d2 : list Cell) :
  onePerPosition d1 -> sortedStore d1 ->
  onePerPosition d2 -> sortedStore d2 ->
  (forall q, get d1 q = get d2 q) ->
  d1 = d2.
Proof.
  revert d2. induction d1 as [|a d1 IH]; intros d2 Hn1 Hs1 Hn2 Hs2 Hg.
  - destruct d2 as [|b d2]; [reflexivity|]. specialize (Hg (position b)).
    unfold get in Hg. simpl in Hg. unfold samePosition in Hg.
    rewrite position_eqb_refl in Hg. discriminate.
  - destruct d2 as [|b d2].
    { specialize (Hg (position a)). unfold get in Hg. simpl in Hg.
      unfold samePosition in Hg. rewrite position_eqb_refl in Hg. discriminate. }
    assert (Hga : get (a :: d1) (position a) = Some a).
    { unfold get. simpl. unfold samePosition. now rewrite position_eqb_refl. }
    assert (Hgb : get (b :: d2) (position b) = Some b).
    { unfold get. simpl. unfold samePosition. now rewrite position_eqb_refl. }
    assert (Hain : In a (b :: d2)).
    { rewrite Hg in Hga. now apply get_some_position in Hga. }
    assert (Hbin : In b (a :: d1)).
    { rewrite <- Hg in Hgb. now apply get_some_position in Hgb. }
    unfold sortedStore in Hs1, Hs2.
    apply StronglySorted_inv in Hs1. destruct Hs1 as [Hs1 Ha].
    apply StronglySorted_inv in Hs2. destruct Hs2 as [Hs2 Hb].
    rewrite Forall_forall in Ha, Hb.
    assert (Hpos : position a = position b).
    { destruct Hain as [<-|Hain]; [reflexivity|].
      destruct Hbin as [->|Hbin]; [reflexivity|].
      specialize (Ha b Hbin). specialize (Hb a Hain).
      unfold positionBefore in Ha, Hb.
      destruct (position a) as [ra ca], (position b) as [rb cb]. simpl in *.
      rewrite orb_false_iff, andb_false_iff, !Z.ltb_ge, Z.eqb_neq in Ha, Hb.
      f_equal; lia. }
    assert (Hab : a = b).
    { specialize (Hg (position a)). rewrite Hga in Hg. unfold get in Hg. simpl in Hg.
      unfold samePosition in Hg. rewrite <- Hpos, position_eqb_refl in Hg. congruence. }
    subst b. f_equal.
    unfold onePerPosition in Hn1, Hn2. simpl in Hn1, Hn2.
    inversion Hn1 as [|? ? Ha1 Hn1']; inversion Hn2 as [|? ? Ha2 Hn2']; subst.
    apply IH; try assumption.
    intro q. specialize (Hg q). unfold get in Hg. simpl in Hg.
    destruct (samePosition q a) eqn:E; [|exact Hg].
    apply samePosition_eq in E. subst q.
    apply get_none_iff in Ha1, Ha2. now rewrite Ha1, Ha2.
Qed.

End UndoOfPaint.

Section PaintUndoRoundTrip.
Context {TC : TerrainCatalog} {GE : Geometry} {GR : Grid}.

Lemma allAvailable_sort (d : list Cell) :
  allAvailable d -> allAvailable (sort positionBefore d).
Proof. intros H c Hc. apply H. now apply In_sort in Hc. Qed.

(** X7. Paint, then undo.  On a store with one cell per position whose
    cells all have terrain types of the catalogue, a [paintCells] that
    reports a change followed by [undo] gives every position the assignment
    it had before, cell for cell; the history is what it was when it held
    fewer than ten entries; and a sorted store is the same list as before. *)
Theorem paint_then_undo_restores (cells : list Position) (tid : string) (h e : Q)
  (overwrite : bool) (terrainType : TerrainType) (s : HeightMap) :
  onePerPosition (data s) ->
  allAvailable (data s) ->
  getTerrainType tid = Some terrainType ->
  validPaint terrainType h e ->
  fst (paintCells cells tid h e overwrite s) = Ok true ->
  let s' := snd (undo (snd (paintCells cells tid h e overwrite s))) in
  fst (undo (snd (paintCells cells tid h e overwrite s))) = Ok true
  /\ (forall q, get (data s') q = get (data s) q)
  /\ ((List.length (_history s) < 10)%nat -> _history s' = _history s)
  /\ (sortedStore (data s) -> data s' = data s).
Proof.
  intros Hnd Hav Hget Hvalid Hok s'.
  assert (Hgets : fst (undo (snd (paintCells cells tid h e overwrite s))) = Ok true
                  /\ (forall q, get (data s') q = get (data s) q)
                  /\ ((List.length (_history s) < 10)%nat -> _history s' = _history s)).
  { subst s'. destruct (validPaint_checks _ _ _ Hvalid) as [H1 H2].
    rewrite (paintCells_unfold cells tid h e overwrite terrainType s Hget H1 H2) in *.
    assert (Hinit : paintInvariant tid h e (data s) (data s) []).
    { split; [exact Hnd|]. split; [exact Hav|]. split; [constructor|].
      split; [reflexivity | intros r []]. }
    pose proof (paintCells_fold_invariant tid h e overwrite terrainType (data s) cells
                  (data s) [] false Hget Hinit) as Hinv.
    destruct (fold_left _ cells _) as [[d' history] anyAdded]. cbn [fst snd] in Hinv.
    destruct Hinv as (Hnd' & Hav' & Hh' & Hframe & Hitems).
    set (dd := if anyAdded then sort positionBefore d' else d') in *.
    assert (Hdd_get : forall q, get dd q = get d' q).
    { intro q. unfold dd. destruct anyAdded; [apply get_sort | reflexivity]. }
    assert (Hdd_nd : onePerPosition dd).
    { unfold dd. destruct anyAdded; [now apply onePerPosition_sort | exact Hnd']. }
    assert (Hdd_av : allAvailable dd).
    { unfold dd. destruct anyAdded; [now apply allAvailable_sort | exact Hav']. }
    assert (Hne : history <> []).
    { intros ->. cbn in Hok. discriminate. }
    set (s1 := snd (commit history (setData dd s))) in *.
    assert (Hd1 : data s1 = dd).
    { unfold s1. rewrite commit_data. cbn [data setData].
      destruct history; [congruence | now apply filter_allAvailable]. }
    destruct (limitHistory_keeps_last (_history s) history) as [h' Hh1'].
    assert (Hh1 : _history s1 = h' ++ [history]).
    { unfold s1. pose proof (commit_history history (setData dd s)) as Hc.
      destruct history; [congruence|]. destruct Hc as [Hc _]. rewrite Hc. exact Hh1'. }
    rewrite (undo_unfold s1 h' history Hh1). cbn [fst snd].
    split; [reflexivity|].
    assert (Hrev : revertInvariant (data s) dd [] history).
    { split; [exact Hdd_nd|]. split; [|split].
      - intros q Hq. rewrite Hdd_get. now apply Hframe.
      - intros r Hr. destruct (Hitems r Hr) as [[c [Hc _]] Hp]. split; [|exact Hp].
        rewrite Hdd_get, Hc. discriminate.
      - intros r []. }
    destruct (revertItems_invariant (data s) history dd [] false Hh' Hrev) as [Hfinal Ha].
    rewrite Hd1. destruct (fold_left revertItem history (dd, false)) as [d2 a2].
    cbn [fst snd] in Hfinal, Ha. subst a2.
    unfold saveChanges, modify. cbn [fst snd data setData _history setHistory].
    split.
    - intro q. transitivity (get d2 q).
      + apply (get_filter_available d2 q).
        intros c Hc. rewrite (revertInvariant_done (data s) d2 history q Hfinal) in Hc.
        apply Hav. now apply get_some_position in Hc.
      + now apply (revertInvariant_done (data s) d2 history).
    - intro Hlen. rewrite limitHistory_short in Hh1'.
      + now apply app_inj_tail in Hh1'.
      + rewrite length_app. simpl. unfold maxHistoryItems. lia. }
  destruct Hgets as (Hu & Hg & Hh). repeat split; try assumption.
  intro Hsorted. apply store_extensionality; try assumption.
  - subst s'. apply undo_onePerPosition. now apply paintCells_onePerPosition.
  - subst s'.
    pose proof (perform_sortedStore (PaintCells cells tid h e overwrite) s Hsorted) as Hp.
    cbn [perform] in Hp. rewrite asValue_snd in Hp.
    pose proof (perform_sortedStore Undo _ Hp) as Hu'.
    cbn [perform] in Hu'. rewrite asValue_snd in Hu'. exact Hu'.
Qed.

End PaintUndoRoundTrip.

Module PaintUndoExamples.
Import SquareWorld.

Lemma paint_then_undo_restores_witness :
  fst (undo (snd (paintCells (block 0 1 2 2) "rock" 2 3 true painted))) = Ok true
  /\ data (snd (undo (snd (paintCells (block 0 1 2 2) "rock" 2 3 true painted))))
     = data painted
  /\ _history (snd (undo (snd (paintCells (block 0 1 2 2) "rock" 2 3 true painted))))
     = _history painted.
Proof.
  pose proof PaintedBlock.painted_onePerPosition as Hnd.
  pose proof PaintedBlock.painted_allAvailable as Hav.
  pose proof PaintedBlock.painted_sortedStore as Hsorted.
  destruct (paint_then_undo_restores (block 0 1 2 2) "rock" 2 3 true
              {| tt_id := "rock"; usesHeight := true |} painted Hnd Hav)
    as (Hu & _ & Hh & Hd).
  - reflexivity.
  - intros _. split; [reflexivity | discriminate].
  - reflexivity.
  - split; [exact Hu|]. split; [exact (Hd Hsorted)|]. apply Hh.
    rewrite PaintedBlock.painted_history. lia.
Defined.

End PaintUndoExamples.

(** * The fill *)

(** ** The walk of [#findFillCells] *)

Section FillWalk.
Context {GR : Grid}.

Lemma existsb_position_In (c : Position) (l : list Position) :
  existsb (position_eqb c) l = true <-> In c l.
Proof.
  rewrite existsb_exists. split.
  - intros [x [Hx E]]. apply position_eqb_eq in E. now subst.
  - intro H. exists c. split; [exact H | apply position_eqb_refl].
Qed.

Lemma existsb_position_not_In (c : Position) (l : list Position) :
  existsb (position_eqb c) l = false <-> ~ In c l.
Proof.
  rewrite <- existsb_position_In. destruct (existsb _ l); intuition congruence.
Qed.

Lemma strict_eq_refl (a : num) : strict_eq a a = true.
Proof. destruct a as [q|]; [apply Qeq_bool_iff; reflexivity | reflexivity]. Qed.

Lemma sameConfig_refl (a : option string * num * num) : sameConfig a a = true.
Proof.
  destruct a as [[t h] e]. unfold sameConfig. cbn [fst snd].
  rewrite !strict_eq_refl. destruct t; [now rewrite String.eqb_refl | reflexivity].
Qed.

(** *** Termination *)

Lemma filter_length_mono (A : Type) (p q : A -> bool) (l : list A) :
  (forall x, p x = true -> q x = true) ->
  (List.length (filter p l) <= List.length (filter q l))%nat.
Proof.
  intro H. induction l as [|a l IH]; [apply le_n|]. cbn [filter].
  destruct (p a) eqn:Ep.
  - rewrite (H a Ep). cbn [List.length]. lia.
  - destruct (q a); cbn [List.length]; lia.
Qed.

Lemma filter_length_lt (A : Type) (p q : A -> bool) (l : list A) (c : A) :
  (forall x, p x = true -> q x = true) ->
  In c l -> p c = false -> q c = true ->
  (List.length (filter p l) < List.length (filter q l))%nat.
Proof.
  intros H Hin Hp Hq. induction l as [|a l IH]; [destruct Hin|]. cbn [filter].
  pose proof (filter_length_mono A p q l H) as Hle.
  destruct Hin as [->|Hin].
  - rewrite Hp, Hq. cbn [List.length]. lia.
  - specialize (IH Hin). destruct (p a) eqn:Ep.
    + rewrite (H a Ep). cbn [List.length]. lia.
    + destruct (q a); cbn [List.length]; lia.
Qed.

Lemma unvisited_lt (universe visitedCells : list Position) (c : Position) :
  In c universe ->
  existsb (position_eqb c) visitedCells = false ->
  (List.length (unvisited universe (c :: visitedCells))
   < List.length (unvisited universe visitedCells))%nat.
Proof.
  intros Hin Hv. unfold unvisited. apply filter_length_lt with (c := c).
  - intros x Hx. cbn [existsb] in Hx. now destruct (position_eqb x c).
  - exact Hin.
  - cbn [existsb]. now rewrite position_eqb_refl.
  - now rewrite Hv.
Qed.

Lemma filter_length_le (A : Type) (p : A -> bool) (l : list A) :
  (List.length (filter p l) <= List.length l)%nat.
Proof.
  induction l as [|a l IH]; [apply le_n|]. simpl. destruct (p a); simpl; lia.
Qed.

Lemma fillWalk_returns (universe : list Position) (k : nat) (d : list Cell)
  (start : option string * num * num) (fuel : nat) :
  finiteCanvas universe ->
  neighboursAtMost k ->
  forall (startCell : Position) (visitQueue visitedCells cellsToPaint : list Position),
  (forall c, In c visitQueue -> In c (startCell :: universe)) ->
  (List.length visitQueue
   + k * List.length (unvisited (startCell :: universe) visitedCells) <= fuel)%nat ->
  exists cells, fillWalk fuel d start visitQueue visitedCells cellsToPaint = Ok cells.
Proof.
  intros Hfin Hk startCell.
  induction fuel as [|fuel IH]; intros visitQueue visitedCells cellsToPaint Hq Hm.
  - destruct visitQueue as [|c q]; [now exists cellsToPaint|]. simpl in Hm. lia.
  - destruct visitQueue as [|c q]; [now exists cellsToPaint|].
    cbn [fillWalk]. cbn [List.length] in Hm.
    assert (Hq' : forall c', In c' q -> In c' (startCell :: universe)).
    { intros c' Hc'. apply Hq. now right. }
    destruct (existsb (position_eqb c) visitedCells) eqn:Ev.
    + apply IH; [exact Hq' | lia].
    + pose proof (unvisited_lt (startCell :: universe) visitedCells c
                    (Hq c (or_introl eq_refl)) Ev) as Hlt.
      assert (Hmul : (k + k * List.length (unvisited (startCell :: universe) (c :: visitedCells))
                      <= k * List.length (unvisited (startCell :: universe) visitedCells))%nat).
      { replace (k + k * List.length (unvisited (startCell :: universe) (c :: visitedCells)))%nat
          with (k * S (List.length (unvisited (startCell :: universe) (c :: visitedCells))))%nat
          by lia.
        apply Nat.mul_le_mono_l. exact Hlt. }
      destruct (negb (sameConfig (configAt d c) start)).
      * apply IH; [exact Hq'|]. lia.
      * apply IH.
        -- intros c' Hc'. apply in_app_or in Hc'. destruct Hc' as [Hc'|Hc'];
             [now apply Hq'|].
           apply filter_In in Hc'. right. apply Hfin. exact (proj2 Hc').
        -- rewrite length_app.
           pose proof (filter_length_le _ onCanvas (getNeighboringFillCells c)) as Hf.
           pose proof (Hk c) as Hkc. lia.
Qed.

Lemma findFillCells_enough_fuel (universe : list Position) (k fuel : nat)
  (d : list Cell) (startCell : Position) :
  finiteCanvas universe ->
  neighboursAtMost k ->
  (fillFuel universe k <= fuel)%nat ->
  exists cells, findFillCells fuel d startCell = Ok cells.
Proof.
  intros Hfin Hk Hfuel. unfold findFillCells.
  apply (fillWalk_returns universe k d _ fuel Hfin Hk startCell).
  - intros c [<-|[]]. now left.
  - unfold fillFuel in Hfuel.
    pose proof (filter_length_le _ (fun p => negb (existsb (position_eqb p) []))
                  (startCell :: universe)) as Hf.
    unfold unvisited. cbn [List.length] in *. nia.
Qed.

(** *** What the walk finds *)

Lemma fillInvariant_start (d : list Cell) (startCell : Position) :
  fillInvariant d startCell [startCell] [] [].
Proof.
  unfold fillInvariant. split; [constructor|].
  split; [intros c []|]. split; [intros c []|]. split; [intros c n []|].
  split; [intros c [<-|[]]; now left|].
  split; [right; now left|].
  left. split; [reflexivity|]. split; [reflexivity|]. now exists [].
Qed.

Lemma fillInvariant_visited (d : list Cell) (startCell c : Position)
  (q v a : list Position) :
  fillInvariant d startCell (c :: q) v a ->
  existsb (position_eqb c) v = true ->
  fillInvariant d startCell q v a.
Proof.
  intros (Hnd & Hin & Hsame & Hnb & Hq & Hs & Hhd) Ev.
  apply existsb_position_In in Ev.
  split; [exact Hnd|]. split; [exact Hin|]. split; [exact Hsame|].
  split.
  { intros c' n Hc' Hn Hon. destruct (Hnb c' n Hc' Hn Hon) as [H|[<-|H]];
      [now left | now left | now right]. }
  split; [intros c' Hc'; apply Hq; now right|].
  split.
  { destruct Hs as [H|[<-|H]]; [now left | now left | now right]. }
  destruct Hhd as [(_ & Hv & _)|H]; [subst v; destruct Ev | now right].
Qed.

Lemma fillInvariant_other (d : list Cell) (startCell c : Position)
  (q v a : list Position) :
  fillInvariant d startCell (c :: q) v a ->
  sameConfig (configAt d c) (configAt d startCell) = false ->
  fillInvariant d startCell q (c :: v) a.
Proof.
  intros (Hnd & Hin & Hsame & Hnb & Hq & Hs & Hhd) Ec.
  split; [exact Hnd|].
  split; [intros c' Hc'; destruct (Hin c' Hc'); split; [now right | assumption]|].
  split.
  { intros c' [<-|Hc'] Hcfg; [congruence | now apply Hsame]. }
  split.
  { intros c' n Hc' Hn Hon. destruct (Hnb c' n Hc' Hn Hon) as [H|[<-|H]];
      [left; now right | left; now left | now right]. }
  split; [intros c' Hc'; apply Hq; now right|].
  split.
  { destruct Hs as [H|[<-|H]]; [left; now right | left; now left | now right]. }
  destruct Hhd as [(_ & _ & q' & Hq')|H]; [|now right].
  inversion Hq'; subst. now rewrite sameConfig_refl in Ec.
Qed.

Lemma fillInvariant_found (d : list Cell) (startCell c : Position)
  (q v a : list Position) :
  fillInvariant d startCell (c :: q) v a ->
  existsb (position_eqb c) v = false ->
  sameConfig (configAt d c) (configAt d startCell) = true ->
  fillInvariant d startCell (q ++ filter onCanvas (getNeighboringFillCells c))
    (c :: v) (a ++ [c]).
Proof.
  intros (Hnd & Hin & Hsame & Hnb & Hq & Hs & Hhd) Ev Ec.
  apply existsb_position_not_In in Ev.
  assert (Hreg : fillRegion d startCell c).
  { destruct (Hq c (or_introl eq_refl)) as [->|(c' & Hc' & Hn & Hon)];
      [constructor | now apply (region_step d startCell c' c)]. }
  split.
  { apply NoDup_app; [exact Hnd | repeat constructor; intros [] |].
    intros c' Hc' [E|[]]. subst c'. apply Ev. exact (proj1 (Hin c Hc')). }
  split.
  { intros c' Hc'. apply in_app_or in Hc'. destruct Hc' as [Hc'|[<-|[]]].
    - destruct (Hin c' Hc'). split; [now right | assumption].
    - split; [now left | exact Hreg]. }
  split.
  { intros c' [<-|Hc'] Hcfg; apply in_or_app; [right; now left | left; now apply Hsame]. }
  split.
  { intros c' n Hc' Hn Hon. apply in_app_or in Hc'. destruct Hc' as [Hc'|[<-|[]]].
    - destruct (Hnb c' n Hc' Hn Hon) as [H|[<-|H]];
        [left; now right | left; now left | right; apply in_or_app; now left].
    - right. apply in_or_app. right. apply filter_In. now split. }
  split.
  { intros c' Hc'. apply in_app_or in Hc'. destruct Hc' as [Hc'|Hc'].
    - apply Hq. now right.
    - apply filter_In in Hc'. right. exists c. split; [exact Hreg | exact Hc']. }
  split.
  { destruct Hs as [H|[<-|H]];
      [left; now right | left; now left | right; apply in_or_app; now left]. }
  right. destruct Hhd as [(Ha & _ & q' & Hq')|[rest Hrest]].
  - inversion Hq'; subst. now exists [].
  - subst a. now exists (rest ++ [c]).
Qed.

Lemma fillWalk_invariant (d : list Cell) (startCell : Position) (fuel : nat) :
  forall (q v a cells : list Position),
  fillInvariant d startCell q v a ->
  fillWalk fuel d (configAt d startCell) q v a = Ok cells ->
  exists v', fillInvariant d startCell [] v' cells.
Proof.
  induction fuel as [|fuel IH]; intros q v a cells Hinv Hw.
  - destruct q as [|c q]; [|discriminate]. inversion Hw; subst. now exists v.
  - destruct q as [|c q]; [inversion Hw; subst; now exists v|].
    cbn [fillWalk] in Hw.
    destruct (existsb (position_eqb c) v) eqn:Ev.
    + apply (IH _ _ _ _ (fillInvariant_visited _ _ _ _ _ _ Hinv Ev) Hw).
    + destruct (sameConfig (configAt d c) (configAt d startCell)) eqn:Ec; cbn [negb] in Hw.
      * apply (IH _ _ _ _ (fillInvariant_found _ _ _ _ _ _ Hinv Ev Ec) Hw).
      * apply (IH _ _ _ _ (fillInvariant_other _ _ _ _ _ _ Hinv Ec) Hw).
Qed.

Lemma findFillCells_region (fuel : nat) (d : list Cell) (startCell : Position)
  (cells : list Position) :
  findFillCells fuel d startCell = Ok cells ->
  (exists rest, cells = startCell :: rest)
  /\ NoDup cells
  /\ forall c, In c cells <-> fillRegion d startCell c.
Proof.
  intro Hw. unfold findFillCells in Hw.
  destruct (fillWalk_invariant d startCell fuel _ _ _ _ (fillInvariant_start d startCell) Hw)
    as [v' (Hnd & Hin & Hsame & Hnb & _ & Hs & Hhd)].
  split.
  { destruct Hhd as [(_ & _ & q' & Hq')|H]; [discriminate | exact H]. }
  split; [exact Hnd|].
  intro c. split; [intro Hc; exact (proj2 (Hin c Hc))|].
  induction 1 as [|c n Hc IH Hn Hon Hcfg].
  - apply Hsame; [|apply sameConfig_refl]. destruct Hs as [H|[]]. exact H.
  - apply Hsame; [|exact Hcfg]. destruct (Hnb c n IH Hn Hon) as [H|[]]. exact H.
Qed.

(** X8. On a canvas with finitely many cells, each with at most [k]
    neighbours, the walk of [#findFillCells] ends: with one round for the
    start cell and [k] rounds for every cell of the canvas it returns its
    list of cells. *)
Theorem findFillCells_returns (universe : list Position) (k fuel : nat)
  (d : list Cell) (startCell : Position) :
  finiteCanvas universe ->
  neighboursAtMost k ->
  (fillFuel universe k <= fuel)%nat ->
  exists cells, findFillCells fuel d startCell = Ok cells.
Proof. apply findFillCells_enough_fuel. Qed.

(** X9. The cells that [#findFillCells] returns are the region of the start
    cell: the start cell comes first (so the list is never empty), no cell
    comes twice, and a cell is listed exactly when a path of neighbours on
    the canvas, all with the configuration of the start cell, leads to it
    from the start cell. *)
Theorem findFillCells_is_the_region (fuel : nat) (d : list Cell) (startCell : Position)
  (cells : list Position) :
  findFillCells fuel d startCell = Ok cells ->
  (exists rest, cells = startCell :: rest)
  /\ NoDup cells
  /\ forall c, In c cells <-> fillRegion d startCell c.
Proof. apply findFillCells_region. Qed.

End FillWalk.

(** The square grid of the examples has a finite canvas. *)

Module SquareCanvas.
Import SquareWorld.

Lemma canvasLine_In (z : Z) : (-1 <= z <= 9)%Z -> In z canvasLine.
Proof.
  intro H. unfold canvasLine. apply in_map_iff. exists (Z.to_nat (z + 1)).
  split; [lia|]. apply in_seq. lia.
Qed.

Lemma canvasCells_finite : finiteCanvas canvasCells.
Proof.
  intros [row col] H. unfold onCanvas in H. cbn in H.
  rewrite !andb_true_iff, !negb_true_iff in H. destruct H as [[[H1 H2] H3] H4].
  apply Qltb_ge in H1, H3.
  assert (H2' : ~ 1000 <= inject_Z col * cellSize)
    by (intro Hle; apply Qle_bool_iff in Hle; congruence).
  assert (H4' : ~ 1000 <= inject_Z row * cellSize)
    by (intro Hle; apply Qle_bool_iff in Hle; congruence).
  unfold Qle, cellSize in *. cbn in H1, H3, H2', H4'.
  unfold canvasCells. apply in_flat_map. exists row.
  split; [apply canvasLine_In; lia|].
  apply in_map_iff. exists col. split; [reflexivity | apply canvasLine_In; lia].
Qed.

Lemma square_neighbours : neighboursAtMost 4.
Proof. intros [row col]. apply le_n. Qed.

End SquareCanvas.

Module FillWalkExamples.
Import SquareWorld.

Lemma findFillCells_returns_witness :
  exists cells, findFillCells 489 (data painted) (5, 5)%Z = Ok cells.
Proof.
  apply (findFillCells_returns canvasCells 4 489 (data painted) (5, 5)%Z).
  - exact SquareCanvas.canvasCells_finite.
  - exact SquareCanvas.square_neighbours.
  - apply le_n.
Defined.

Lemma findFillCells_is_the_region_witness :
  (exists rest, [(0, 0); (1, 0); (0, 1); (1, 1)]%Z = (0, 0)%Z :: rest)
  /\ NoDup [(0, 0); (1, 0); (0, 1); (1, 1)]%Z
  /\ forall c, In c [(0, 0); (1, 0); (0, 1); (1, 1)]%Z
               <-> fillRegion (data painted) (0, 0)%Z c.
Proof.
  apply (findFillCells_is_the_region 489 (data painted) (0, 0)%Z). reflexivity.
Defined.

End FillWalkExamples.

(** ** [fillCells] and [eraseFillCells] on the region *)

Section FillOperations.
Context {TC : TerrainCatalog} {GE : Geometry} {GR : Grid}.

Lemma fillRegion_sameConfig (d : list Cell) (startCell c : Position) :
  fillRegion d startCell c ->
  sameConfig (configAt d c) (configAt d startCell) = true.
Proof. intros [|c' n _ _ _ H]; [apply sameConfig_refl | exact H]. Qed.

Lemma fillRegion_unpainted (d : list Cell) (startCell c : Position) :
  get d startCell = None -> fillRegion d startCell c -> get d c = None.
Proof.
  intros Hs Hc. apply fillRegion_sameConfig in Hc. unfold configAt in Hc.
  rewrite Hs in Hc. destruct (get d c); [discriminate | reflexivity].
Qed.

(** The test [cellsToErase.length === 0] never holds. *)
Lemma eraseFillCells_unfold (fuel : nat) (startCell : Position) (s : HeightMap)
  (cells : list Position) :
  findFillCells fuel (data s) startCell = Ok cells ->
  eraseFillCells fuel startCell s = eraseCells cells s.
Proof.
  intro H. destruct (findFillCells_region _ _ _ _ H) as [[rest ->] _].
  unfold eraseFillCells. unfold bind at 1. unfold gets. cbn [fst snd].
  unfold bind at 1. unfold lift. now rewrite H.
Qed.

Lemma fillCells_data (fuel : nat) (startCell : Position) (tid : string) (h e : Q)
  (s : HeightMap) (cells : list Position) :
  (forall c, get (data s) startCell = Some c ->
             terrainTypeId c <> tid \/ strict_eq (height c) (Some h) = false) ->
  findFillCells fuel (data s) startCell = Ok cells ->
  snd (fillCells fuel startCell tid h e s) = snd (paintCells cells tid h e true s).
Proof.
  intros Hne H. destruct (findFillCells_region _ _ _ _ H) as [[rest ->] _].
  unfold fillCells. unfold bind at 1. unfold gets. cbn [fst snd].
  assert (E : match option_map terrainTypeId (get (data s) startCell) with
              | Some s0 => String.eqb s0 tid
              | None => false
              end
              && strict_eq match get (data s) startCell with
                           | Some c => height c
                           | None => None
                           end (Some h) = false).
  { destruct (get (data s) startCell) as [c|]; [|reflexivity]. cbn [option_map].
    destruct (Hne c eq_refl) as [Ht|Hh].
    - apply String.eqb_neq in Ht. now rewrite Ht.
    - rewrite Hh. apply andb_false_r. }
  rewrite E. unfold bind at 1. unfold lift. rewrite H.
  unfold bind, ret. destruct (paintCells _ tid h e true s) as [[b|x] s']; reflexivity.
Qed.

Lemma paintCells_fold_other (tid : string) (h e : Q) (overwrite : bool)
  (cells : list Position) (acc : list Cell * HistoryEntry * bool) (q : Position) :
  ~ In q cells ->
  get (fst (fst (fold_left (paintCell tid h e overwrite) cells acc))) q
  = get (fst (fst acc)) q.
Proof.
  revert acc. induction cells as [|cell cells IH]; intros acc Hq; [reflexivity|].
  cbn [fold_left]. rewrite IH by (intro H; apply Hq; now right).
  destruct acc as [[d history] anyAdded]. rewrite get_paintCell. cbn [fst].
  destruct (position_eqb cell q) eqn:E; [|reflexivity].
  apply position_eqb_eq in E. exfalso. apply Hq. now left.
Qed.

Lemma paintCells_get_other (cells : list Position) (tid : string) (h e : Q)
  (overwrite : bool) (s : HeightMap) (q : Position) :
  ~ In q cells ->
  (forall c, get (data s) q = Some c -> available c = true) ->
  get (data (snd (paintCells cells tid h e overwrite s))) q = get (data s) q.
Proof.
  intros Hq Hav.
  destruct (getTerrainType tid) as [terrainType|] eqn:Hget.
  2:{ unfold paintCells. now rewrite Hget. }
  destruct (usesHeight terrainType && Qle_bool h 0) eqn:H1.
  { unfold paintCells. now rewrite Hget, H1. }
  destruct (usesHeight terrainType && Qltb e 0) eqn:H2.
  { unfold paintCells. now rewrite Hget, H1, H2. }
  rewrite (paintCells_unfold cells tid h e overwrite terrainType s Hget H1 H2).
  pose proof (paintCells_fold_other tid h e overwrite cells (data s, [], false) q Hq) as Hf.
  destruct (fold_left _ cells _) as [[d' history] anyAdded]. cbn [fst] in Hf.
  assert (Hs : get (if anyAdded then sort positionBefore d' else d') q = get (data s) q).
  { destruct anyAdded; [now rewrite get_sort | exact Hf]. }
  rewrite commit_data. cbn [data setData]. destruct history; [exact Hs|].
  rewrite get_filter_available; [exact Hs|]. now rewrite Hs.
Qed.

Lemma eraseCells_get (cells : list Position) (s : HeightMap) (q : Position) :
  onePerPosition (data s) ->
  (In q cells -> get (data (snd (eraseCells cells s))) q = None)
  /\ (~ In q cells ->
      (forall c, get (data s) q = Some c -> available c = true) ->
      get (data (snd (eraseCells cells s))) q = get (data s) q).
Proof.
  intro Hnd. rewrite eraseCells_unfold.
  pose proof (eraseCells_fold_get cells (data s) [] q Hnd) as Hg.
  destruct (fold_left eraseCell cells _) as [d' history]. cbn [fst] in Hg.
  rewrite commit_data. cbn [data setData].
  destruct (existsb (fun cell => position_eqb cell q) cells) eqn:He.
  - apply existsb_exists in He. destruct He as [cell [Hc E]].
    apply position_eqb_eq in E. subst cell. split; [|intro Hn; now destruct Hn].
    intros _. destruct history; [exact Hg | now apply get_filter_none].
  - assert (Hn : ~ In q cells).
    { intro Hin. apply not_true_iff_false in He. apply He. apply existsb_exists.
      exists q. split; [exact Hin | apply position_eqb_refl]. }
    split; [intro Hin; now destruct Hn|]. intros _ Hav.
    destruct history; [exact Hg|]. rewrite get_filter_available; [exact Hg|].
    now rewrite Hg.
Qed.

(** X10. An erasing fill that starts on a cell without terrain walks the
    unpainted region and then changes nothing: it reports no change and the
    instance is as it was. *)
Theorem eraseFillCells_unpainted_is_noop (universe : list Position) (k fuel : nat)
  (startCell : Position) (s : HeightMap) :
  finiteCanvas universe ->
  neighboursAtMost k ->
  (fillFuel universe k <= fuel)%nat ->
  get (data s) startCell = None ->
  eraseFillCells fuel startCell s = (Ok false, s).
Proof.
  intros Hfin Hk Hfuel Hs.
  destruct (findFillCells_enough_fuel universe k fuel (data s) startCell Hfin Hk Hfuel)
    as [cells Hcells].
  rewrite (eraseFillCells_unfold _ _ _ _ Hcells), eraseCells_unfold.
  rewrite eraseCells_fold_unpainted.
  - unfold commit, bind, when, ret. cbn [nonEmpty fst snd]. now rewrite setData_same.
  - intros q Hq. apply (fillRegion_unpainted _ startCell); [exact Hs|].
    now apply (findFillCells_region _ _ _ _ Hcells).
Qed.

(** X11. With one cell per position, an erasing fill leaves every cell of
    the region of its start cell without terrain, and every position outside
    the region whose cell has a terrain type of the catalogue reads as
    before. *)
Theorem eraseFillCells_erases_the_region (universe : list Position) (k fuel : nat)
  (startCell : Position) (s : HeightMap) (q : Position) :
  finiteCanvas universe ->
  neighboursAtMost k ->
  (fillFuel universe k <= fuel)%nat ->
  onePerPosition (data s) ->
  (fillRegion (data s) startCell q ->
   get (data (snd (eraseFillCells fuel startCell s))) q = None)
  /\ (~ fillRegion (data s) startCell q ->
      (forall c, get (data s) q = Some c -> available c = true) ->
      get (data (snd (eraseFillCells fuel startCell s))) q = get (data s) q).
Proof.
  intros Hfin Hk Hfuel Hnd.
  destruct (findFillCells_enough_fuel universe k fuel (data s) startCell Hfin Hk Hfuel)
    as [cells Hcells].
  rewrite (eraseFillCells_unfold _ _ _ _ Hcells).
  destruct (findFillCells_region _ _ _ _ Hcells) as (_ & _ & Hreg).
  destruct (eraseCells_get cells s q Hnd) as [Hin Hout]. split.
  - intro Hq. apply Hin. now apply Hreg.
  - intros Hq Hav. apply Hout; [|exact Hav]. intro Hc. apply Hq. now apply Hreg.
Qed.

(** X12. A fill with a terrain type of the catalogue and values that pass
    the validation, from a start cell that does not already have that
    terrain type and height, gives every cell of the region of the start
    cell the requested terrain type, height and elevation; every position
    outside the region whose cell has a terrain type of the catalogue reads
    as before. *)
Theorem fillCells_paints_the_region (universe : list Position) (k fuel : nat)
  (startCell : Position) (tid : string) (h e : Q) (terrainType : TerrainType)
  (s : HeightMap) (q : Position) :
  finiteCanvas universe ->
  neighboursAtMost k ->
  (fillFuel universe k <= fuel)%nat ->
  getTerrainType tid = Some terrainType ->
  validPaint terrainType h e ->
  (forall c, get (data s) startCell = Some c ->
             terrainTypeId c <> tid \/ strict_eq (height c) (Some h) = false) ->
  (fillRegion (data s) startCell q ->
   readsPainted tid h e (data (snd (fillCells fuel startCell tid h e s))) q)
  /\ (~ fillRegion (data s) startCell q ->
      (forall c, get (data s) q = Some c -> available c = true) ->
      get (data (snd (fillCells fuel startCell tid h e s))) q = get (data s) q).
Proof.
  intros Hfin Hk Hfuel Hget Hvalid Hne.
  destruct (findFillCells_enough_fuel universe k fuel (data s) startCell Hfin Hk Hfuel)
    as [cells Hcells].
  rewrite (fillCells_data _ _ _ _ _ _ _ Hne Hcells).
  destruct (findFillCells_region _ _ _ _ Hcells) as (_ & _ & Hreg). split.
  - intro Hq. apply (paintCells_readsPainted cells tid h e terrainType s q Hget Hvalid).
    now apply Hreg.
  - intros Hq Hav. apply paintCells_get_other; [|exact Hav].
    intro Hc. apply Hq. now apply Hreg.
Qed.

End FillOperations.

Module FillOperationExamples.
Import SquareWorld.

Lemma eraseFillCells_unpainted_is_noop_witness :
  eraseFillCells 489 (5, 5)%Z painted = (Ok false, painted).
Proof.
  apply (eraseFillCells_unpainted_is_noop canvasCells 4 489 (5, 5)%Z painted).
  - exact SquareCanvas.canvasCells_finite.
  - exact SquareCanvas.square_neighbours.
  - apply le_n.
  - reflexivity.
Defined.

Lemma block_region : fillRegion (data painted) (0, 0)%Z (1, 1)%Z.
Proof.
  apply (region_step _ _ (1, 0)%Z); [|right; right; right; now left | reflexivity..].
  apply (region_step _ _ (0, 0)%Z); [constructor | right; right; now left | reflexivity..].
Qed.

Lemma eraseFillCells_erases_the_region_witness :
  get (data (snd (eraseFillCells 489 (0, 0)%Z painted))) (1, 1)%Z = None.
Proof.
  apply (eraseFillCells_erases_the_region canvasCells 4 489 (0, 0)%Z painted (1, 1)%Z
           SquareCanvas.canvasCells_finite SquareCanvas.square_neighbours (le_n _)
           PaintedBlock.painted_onePerPosition).
  exact block_region.
Defined.

Lemma fillCells_paints_the_region_witness :
  readsPainted "rock" 2 3 (data (snd (fillCells 489 (0, 0)%Z "rock" 2 3 painted))) (1, 1)%Z.
Proof.
  apply (fillCells_paints_the_region canvasCells 4 489 (0, 0)%Z "rock" 2 3
           {| tt_id := "rock"; usesHeight := true |} painted (1, 1)%Z
           SquareCanvas.canvasCells_finite SquareCanvas.square_neighbours (le_n _)).
  - reflexivity.
  - intros _. split; [reflexivity | discriminate].
  - intros c Hc. rewrite PaintedBlock.painted_data in Hc. inversion Hc. right. reflexivity.
  - exact block_region.
Defined.

End FillOperationExamples.

(** * Further properties of the shape builder *)

Section OutlineProperties.
Context {GE : Geometry} {GR : Grid}.

Lemma findIndex_None_all (A : Type) (p : A -> bool) (l : list A) :
  findIndex p l = None -> forall a, In a l -> p a = false.
Proof.
  induction l as [|b l IH]; intros H a Ha; [destruct Ha|]. simpl in H.
  destruct (p b) eqn:Eb; [discriminate|].
  destruct (findIndex p l); [discriminate|].
  destruct Ha as [<-|Ha]; [exact Eb | now apply IH].
Qed.

Lemma removeDuplicateEdges_In (fuel : nat) (allEdges : list LineSegment) (e : LineSegment) :
  In e (removeDuplicateEdges fuel allEdges) -> In e allEdges.
Proof.
  revert allEdges. induction fuel as [|fuel IH]; intros allEdges H; [exact H|].
  destruct allEdges as [|e0 rest]; [exact H|]. simpl in H.
  destruct (findIndex (fun e' => seg_equals e0 e') rest) as [j|].
  - right. apply (In_removeAt _ j). now apply IH.
  - destruct H as [<-|H]; [now left | right; now apply IH].
Qed.

Lemma removeDuplicateEdges_noLaterEqual (fuel : nat) (allEdges : list LineSegment) :
  (List.length allEdges <= fuel)%nat ->
  noLaterEqual (removeDuplicateEdges fuel allEdges).
Proof.
  revert allEdges. induction fuel as [|fuel IH]; intros allEdges Hfuel.
  - destruct allEdges; [exact I | simpl in Hfuel; lia].
  - destruct allEdges as [|e0 rest]; [exact I|]. simpl in Hfuel. simpl.
    destruct (findIndex (fun e' => seg_equals e0 e') rest) as [j|] eqn:Ej.
    + apply IH. pose proof (removeAt_length_le _ j rest). lia.
    + split; [|apply IH; lia]. intros e' He'.
      apply removeDuplicateEdges_In in He'.
      exact (findIndex_None_all _ _ _ Ej e' He').
Qed.

(** X13. The outline that [#combinePolygons] walks has no edge that equals
    a later one, and every edge of it is an edge of one of the cell
    polygons. *)
Theorem outlineEdges_no_duplicates (originalPolygons : list (Position * Polygon)) :
  noLaterEqual (outlineEdges originalPolygons)
  /\ forall e, In e (outlineEdges originalPolygons) ->
               exists p, In p originalPolygons /\ In e (edges (snd p)).
Proof.
  unfold outlineEdges. split.
  - apply removeDuplicateEdges_noLaterEqual. apply le_n.
  - intros e He. apply removeDuplicateEdges_In in He. apply in_flat_map in He.
    exact He.
Qed.

(** *** The walk along the edges *)

Lemma combine_seq_In (A : Type) (l : list A) (n i : nat) (a : A) :
  In (i, a) (combine (seq n (List.length l)) l) ->
  (n <= i)%nat /\ nth_error l (i - n) = Some a.
Proof.
  revert n. induction l as [|b l IH]; intros n H; [destruct H|].
  simpl in H. destruct H as [H|H].
  - inversion H; subst. split; [lia|]. now rewrite Nat.sub_diag.
  - destruct (IH (S n) H) as [Hle Hn]. split; [lia|].
    replace (i - n)%nat with (S (i - S n)) by lia. exact Hn.
Qed.

Lemma indexed_In (A : Type) (l : list A) (i : nat) (a : A) :
  In (i, a) (indexed l) -> nth_error l i = Some a.
Proof.
  intro H. destruct (combine_seq_In A l 0 i a H) as [_ Hn].
  now rewrite Nat.sub_0_r in Hn.
Qed.

Lemma nextEdgeIndex_candidate (lastEdge : LineSegment) (c : nat * LineSegment)
  (cs : list (nat * LineSegment)) :
  exists d, In d (c :: cs) /\ nextEdgeIndex lastEdge c cs = fst d.
Proof.
  unfold nextEdgeIndex. destruct cs as [|c' cs]; [exists c; split; [now left | reflexivity]|].
  destruct (sort _ _) as [|[v idx] rest] eqn:Es;
    [exists c; split; [now left | reflexivity]|].
  assert (Hin : In (v, idx)
                  (map (fun d => (angleBetween lastEdge (snd d), fst d)) (c :: c' :: cs))).
  { apply (In_sort _ (fun a b : Q * nat => Qltb (fst a) (fst b))). rewrite Es. now left. }
  apply in_map_iff in Hin. destruct Hin as [d [Hd Hin]]. inversion Hd; subst.
  exists d. split; [exact Hin | reflexivity].
Qed.

Lemma last_default (A : Type) (a : A) (l : list A) (d d' : A) :
  last (a :: l) d = last (a :: l) d'.
Proof.
  revert a. induction l as [|b l IH]; intro a; [reflexivity|].
  change (last (b :: l) d = last (b :: l) d'). apply IH.
Qed.

Lemma chained_snoc (first : LineSegment) (more : list LineSegment) (b : LineSegment) :
  chained (first :: more) ->
  point_equals (p1 b) (p2 (last (first :: more) first)) = true ->
  chained ((first :: more) ++ [b]).
Proof.
  revert first. induction more as [|m more IH]; intros first Hc Hb.
  - simpl in *. tauto.
  - destruct Hc as [Hm Hc]. change (last (first :: m :: more) first)
      with (last (m :: more) first) in Hb.
    rewrite (last_default _ m more first m) in Hb.
    specialize (IH m Hc Hb). split; [exact Hm | exact IH].
Qed.

Lemma removeAt_Permutation (A : Type) (i : nat) (l : list A) (a : A) :
  nth_error l i = Some a -> Permutation (a :: removeAt i l) l.
Proof.
  revert i. induction l as [|b l IH]; intros i H; [destruct i; discriminate|].
  destruct i as [|i]; simpl in *.
  - inversion H. reflexivity.
  - apply perm_trans with (b :: a :: removeAt i l); [apply perm_swap|].
    apply perm_skip. now apply IH.
Qed.

(** X14. A walk of the inner loop that returns has closed its loop: the
    edges it returns continue the ones it started from, each starts where
    the one before it ends, the first starts where the last ends, and the
    edges returned and the edges left are those it was given. *)
Theorem walkLoop_closes_a_chain (fuel : nat) (edges allEdges edges' rest : list LineSegment) :
  chained edges ->
  walkLoop fuel edges allEdges = Ok (edges', rest) ->
  chained edges'
  /\ (exists more, edges' = edges ++ more)
  /\ (exists first tail, edges' = first :: tail /\ loopClosed first edges' = true)
  /\ Permutation (edges' ++ rest) (edges ++ allEdges).
Proof.
  revert edges allEdges.
  assert (Hclosed : forall first more allEdges0,
            chained (first :: more) ->
            loopClosed first (first :: more) = true ->
            Ok (first :: more, allEdges0) = Ok (edges', rest) ->
            chained edges'
            /\ (exists more0, edges' = (first :: more) ++ more0)
            /\ (exists first0 tail, edges' = first0 :: tail /\ loopClosed first0 edges' = true)
            /\ Permutation (edges' ++ rest) ((first :: more) ++ allEdges0)).
  { intros first more allEdges0 Hc Hl H. inversion H; subst.
    split; [exact Hc|]. split; [exists []; now rewrite app_nil_r|].
    split; [now exists first, more | reflexivity]. }
  induction fuel as [|fuel IH]; intros edges allEdges Hc; rewrite walkLoop_eq;
    destruct edges as [|first more]; try discriminate;
    destruct (loopClosed first (first :: more)) eqn:El;
    try (now apply Hclosed);
    destruct (nextEdgeCandidates _ allEdges) as [|c cs] eqn:Ec; try discriminate.
  destruct (nth_error allEdges _) as [nextEdge|] eqn:En; [|discriminate].
  intro H.
  destruct (nextEdgeIndex_candidate (last (first :: more) first) c cs) as [d [Hd Hidx]].
  rewrite Hidx in En.
  rewrite <- Ec in Hd. unfold nextEdgeCandidates in Hd. apply filter_In in Hd.
  destruct Hd as [Hd Hp]. destruct d as [i e0]. cbn [fst snd] in *.
  apply indexed_In in Hd. rewrite Hd in En. inversion En; subst e0.
  apply IH in H; [|now apply chained_snoc].
  destruct H as (H1 & [more0 H2] & H3 & H4).
  split; [exact H1|]. split; [exists (nextEdge :: more0); now rewrite H2, <- app_assoc|].
  split; [exact H3|].
  apply perm_trans with (((first :: more) ++ [nextEdge])
                         ++ removeAt (nextEdgeIndex (last (first :: more) first) c cs) allEdges);
    [exact H4|].
  rewrite <- app_assoc. apply Permutation_app_head. cbn [app].
  apply removeAt_Permutation. now rewrite Hidx.
Qed.

End OutlineProperties.

Module OutlineExamples.
Import SquareWorld.

Lemma walkLoop_closes_a_chain_witness :
  chained (GE := geometry) [topSide; rightSide; bottomSide; leftSide]
  /\ Permutation ([topSide; rightSide; bottomSide; leftSide] ++ [])
                 ([topSide] ++ [leftSide; rightSide; bottomSide]).
Proof.
  destruct (walkLoop_closes_a_chain (GE := geometry) 3 [topSide] [leftSide; rightSide; bottomSide]
              [topSide; rightSide; bottomSide; leftSide] [])
    as (H1 & _ & _ & H4).
  - split; exact I.
  - reflexivity.
  - split; [exact H1 | exact H4].
Defined.

End OutlineExamples.

(** ** Loops, boundaries and holes *)

Section LoopsAndHoles.
Context {GE : Geometry} {GR : Grid}.

Lemma rmap_isHole (combined : list Polygon) (keyed : list (bool * Polygon)) :
  rmap (fun p => rbind (isHole p) (fun b => Ok (b, p))) combined = Ok keyed ->
  map snd keyed = combined
  /\ forall kp, In kp keyed -> isHole (snd kp) = Ok (fst kp).
Proof.
  revert keyed. induction combined as [|p combined IH]; intros keyed H.
  - inversion H. split; [reflexivity | intros kp []].
  - simpl in H. destruct (isHole p) as [b|e] eqn:Eh; [|discriminate]. simpl in H.
    destruct (rmap _ combined) as [keyed'|e]; [|discriminate]. simpl in H.
    inversion H; subst. destruct (IH keyed' eq_refl) as [Hm Hk]. split.
    + simpl. now rewrite Hm.
    + intros kp [<-|Hin]; [exact Eh | now apply Hk].
Qed.

Lemma filter_partition (A : Type) (f : A -> bool) (l : list A) :
  Permutation (filter (fun a => negb (f a)) l ++ filter f l) l.
Proof.
  induction l as [|a l IH]; [constructor|]. simpl. destruct (f a); simpl.
  - apply Permutation_sym, Permutation_cons_app. now apply Permutation_sym.
  - now apply perm_skip.
Qed.

Lemma classifyPolygons_partition (combined solids holePolygons : list Polygon) :
  classifyPolygons combined = Ok (solids, holePolygons) ->
  Permutation (solids ++ holePolygons) combined
  /\ (forall p, In p solids -> isHole p = Ok false)
  /\ (forall p, In p holePolygons -> isHole p = Ok true).
Proof.
  unfold classifyPolygons.
  destruct (rmap _ combined) as [keyed|e] eqn:Er; [|discriminate]. simpl.
  intro H. inversion H; subst. destruct (rmap_isHole _ _ Er) as [Hm Hk]. split.
  - rewrite <- Hm, <- map_app. apply Permutation_map.
    apply (filter_partition _ (fun kp : bool * Polygon => fst kp)).
  - split; intros p Hp; apply in_map_iff in Hp; destruct Hp as [kp [<- Hin]];
      apply filter_In in Hin; destruct Hin as [Hin Hb]; rewrite (Hk kp Hin);
      destruct (fst kp); simpl in Hb; congruence.
Qed.

Lemma assignHole_index (l l' : list HeightMapShape) (hole : Polygon) :
  assignHole l hole = Ok l' ->
  exists idx, (idx < List.length l)%nat /\ l' = updateAt idx (addHole hole) l.
Proof.
  assert (Hrange : forall c, In c (containingPolygons l hole) ->
                             (fst c < List.length l)%nat).
  { intros [i s] Hc. unfold containingPolygons in Hc. apply filter_In in Hc.
    destruct Hc as [Hc _]. apply indexed_In in Hc. apply nth_error_Some.
    cbn [fst]. congruence. }
  unfold assignHole. destruct (containingPolygons l hole) as [|c1 [|c2 cs]] eqn:Ec.
  - discriminate.
  - intro H. inversion H. exists (fst c1). split; [|reflexivity].
    apply Hrange. now left.
  - destruct (testPointOf hole) as [testPoint|]; [|discriminate].
    destruct (intersectsWithEdges testPoint (c1 :: c2 :: cs)) as [|x0 xs] eqn:Ex;
      [discriminate|].
    destruct (sort (fun a b : Q * nat => Qltb (fst b) (fst a)) (x0 :: xs))
      as [|[v idx] rest] eqn:Es; [discriminate|].
    intro H. inversion H. exists idx. split; [|reflexivity].
    assert (Hin : In (v, idx) (intersectsWithEdges testPoint (c1 :: c2 :: cs))).
    { rewrite Ex. apply (In_sort _ (fun a b : Q * nat => Qltb (fst b) (fst a))).
      rewrite Es. now left. }
    apply intersectsWithEdges_In in Hin. destruct Hin as (shape & edge & Hc & _).
    exact (Hrange (idx, shape) Hc).
Qed.

Lemma updateAt_addHole_holes (idx : nat) (hole : Polygon) (l : list HeightMapShape) :
  (idx < List.length l)%nat ->
  Permutation (flat_map holes (updateAt idx (addHole hole) l)) (hole :: flat_map holes l).
Proof.
  revert idx. induction l as [|s l IH]; intros idx H; [simpl in H; lia|].
  destruct idx as [|idx]; simpl.
  - rewrite <- app_assoc. apply Permutation_sym. apply Permutation_middle.
  - apply perm_trans with (holes s ++ hole :: flat_map holes l).
    + apply Permutation_app_head. apply IH. simpl in H. lia.
    + apply Permutation_sym. apply Permutation_middle.
Qed.

Lemma updateAt_addHole_carries (terrainTypeId' : string) (height' elevation' : num)
  (idx : nat) (hole : Polygon) (l : list HeightMapShape) :
  Forall (carries terrainTypeId' height' elevation') l ->
  Forall (carries terrainTypeId' height' elevation') (updateAt idx (addHole hole) l).
Proof.
  revert idx. induction l as [|s l IH]; intros idx H; [destruct idx; exact H|].
  inversion H; subst. destruct idx as [|idx]; simpl; constructor; auto.
Qed.

Lemma rfold_assignHole_holes (terrainTypeId' : string) (height' elevation' : num)
  (holePolygons : list Polygon) (l l' : list HeightMapShape) :
  rfold assignHole holePolygons l = Ok l' ->
  map polygon l' = map polygon l
  /\ Permutation (flat_map holes l') (holePolygons ++ flat_map holes l)
  /\ (Forall (carries terrainTypeId' height' elevation') l ->
      Forall (carries terrainTypeId' height' elevation') l').
Proof.
  revert l. induction holePolygons as [|hole holePolygons IH]; intros l H.
  - inversion H. split; [reflexivity|]. split; [reflexivity | exact (fun x => x)].
  - simpl in H. destruct (assignHole l hole) as [l1|e] eqn:Ea; [|discriminate].
    simpl in H. destruct (IH l1 H) as (Hp & Hh & Hc).
    destruct (assignHole_index _ _ _ Ea) as [idx [Hidx ->]]. split.
    + rewrite Hp. apply updateAt_addHole_polygons.
    + split.
      * apply perm_trans with (holePolygons ++ flat_map holes (updateAt idx (addHole hole) l));
          [exact Hh|].
        apply perm_trans with (holePolygons ++ hole :: flat_map holes l).
        -- apply Permutation_app_head. now apply updateAt_addHole_holes.
        -- apply Permutation_sym. apply (Permutation_middle holePolygons).
      * intro Hl. apply Hc. now apply updateAt_addHole_carries.
Qed.

Lemma solidShapes_fresh (terrainTypeId' : string) (height' elevation' : num)
  (solids : list Polygon) :
  map polygon (map (solidShape terrainTypeId' height' elevation') solids) = solids
  /\ flat_map holes (map (solidShape terrainTypeId' height' elevation') solids) = []
  /\ Forall (carries terrainTypeId' height' elevation')
       (map (solidShape terrainTypeId' height' elevation') solids).
Proof.
  induction solids as [|p solids (IH1 & IH2 & IH3)]; [repeat split; constructor|].
  simpl. rewrite IH1, IH2. repeat split. constructor; [repeat split | exact IH3].
Qed.

Lemma combinePolygons_loops (originalPolygons : list (Position * Polygon))
  (terrainTypeId' : string) (height' elevation' : num) (result : list HeightMapShape) :
  combinePolygons originalPolygons terrainTypeId' height' elevation' = Ok result ->
  exists combinedPolygons,
    walkLoops (List.length (outlineEdges originalPolygons))
      (outlineEdges originalPolygons) [] = Ok combinedPolygons
    /\ Permutation (map polygon result ++ flat_map holes result) combinedPolygons
    /\ Forall (carries terrainTypeId' height' elevation') result
    /\ (forall shape, In shape result ->
          isHole (polygon shape) = Ok false
          /\ forall hole, In hole (holes shape) -> isHole hole = Ok true).
Proof.
  unfold combinePolygons. cbv zeta.
  destruct (walkLoops _ _ []) as [combined|e]; [|discriminate]. simpl.
  destruct (classifyPolygons combined) as [[solids holePolygons]|e] eqn:Ec;
    [|discriminate]. simpl.
  intro H. exists combined. split; [reflexivity|].
  destruct (classifyPolygons_partition _ _ _ Ec) as (Hperm & Hsolid & Hhole).
  destruct (solidShapes_fresh terrainTypeId' height' elevation' solids) as (F1 & F2 & F3).
  destruct (rfold_assignHole_holes terrainTypeId' height' elevation' _ _ _ H)
    as (Hp & Hh & Hc).
  rewrite F1 in Hp. rewrite F2, app_nil_r in Hh. split.
  - rewrite Hp. apply perm_trans with (solids ++ holePolygons); [|exact Hperm].
    now apply Permutation_app_head.
  - split; [exact (Hc F3)|]. intros shape Hs. split.
    + apply Hsolid. rewrite <- Hp. now apply in_map.
    + intros hole Hin. apply Hhole. apply (Permutation_in _ Hh).
      apply in_flat_map. now exists shape.
Qed.

(** X15. What [#combinePolygons] returns holds every loop of the outline
    once: each loop is the boundary of one shape or a hole of one shape, the
    boundaries run clockwise and the holes counter-clockwise, and every
    shape carries the terrain type, height and elevation it was called
    with. *)
Theorem combinePolygons_keeps_every_loop (originalPolygons : list (Position * Polygon))
  (terrainTypeId' : string) (height' elevation' : num) (result : list HeightMapShape) :
  combinePolygons originalPolygons terrainTypeId' height' elevation' = Ok result ->
  exists combinedPolygons,
    walkLoops (List.length (outlineEdges originalPolygons))
      (outlineEdges originalPolygons) [] = Ok combinedPolygons
    /\ Permutation (map polygon result ++ flat_map holes result) combinedPolygons
    /\ Forall (carries terrainTypeId' height' elevation') result
    /\ (forall shape, In shape result ->
          isHole (polygon shape) = Ok false
          /\ forall hole, In hole (holes shape) -> isHole hole = Ok true).
Proof. apply combinePolygons_loops. Qed.

End LoopsAndHoles.

(** ** The shapes of the store *)

Section ShapesOfTheStore.
Context {TC : TerrainCatalog} {GE : Geometry} {GR : Grid}.

Lemma addToGroup_items (A K : Type) (keyEq : K -> K -> bool) (key : A -> K)
  (P : A -> Prop) (a : A) (groups : list (K * list A)) :
  P a ->
  (forall g, In g groups -> snd g <> [] /\ forall b, In b (snd g) -> P b) ->
  forall g, In g (addToGroup keyEq key a groups) ->
            snd g <> [] /\ forall b, In b (snd g) -> P b.
Proof.
  intros Ha. induction groups as [|[k items] rest IH]; intros Hg g Hin.
  - destruct Hin as [<-|[]]. split; [discriminate|]. intros b [<-|[]]. exact Ha.
  - simpl in Hin. destruct (keyEq k (key a)).
    + destruct Hin as [<-|Hin]; [|apply Hg; now right]. cbn [snd].
      destruct (Hg (k, items) (or_introl eq_refl)) as [_ Hitems]. split.
      * destruct items; discriminate.
      * intros b Hb. apply in_app_or in Hb. destruct Hb as [Hb|[<-|[]]];
          [now apply Hitems | exact Ha].
    + destruct Hin as [<-|Hin]; [apply Hg; now left|].
      apply IH; [|exact Hin]. intros g' Hg'. apply Hg. now right.
Qed.

Lemma groupBy_items (A K : Type) (keyEq : K -> K -> bool) (key : A -> K) (l : list A) :
  forall g, In g (groupBy keyEq key l) -> snd g <> [] /\ forall b, In b (snd g) -> In b l.
Proof.
  unfold groupBy.
  assert (H : forall (groups : list (K * list A)),
            (forall g, In g groups -> snd g <> [] /\ forall b, In b (snd g) -> In b l) ->
            forall l', (forall b, In b l' -> In b l) ->
            forall g, In g (fold_left (fun groups a => addToGroup keyEq key a groups) l' groups) ->
                      snd g <> [] /\ forall b, In b (snd g) -> In b l).
  { intros groups Hg l'. revert groups Hg. induction l' as [|a l' IH]; intros groups Hg Hl';
      [exact Hg|].
    simpl. apply IH; [|intros b Hb; apply Hl'; now right].
    apply (addToGroup_items A K keyEq key (fun b => In b l)); [apply Hl'; now left | exact Hg]. }
  apply (H [] (fun g (F : In g []) => match F with end) l (fun b Hb => Hb)).
Qed.

Lemma recalculateGroup_shapes (P : HeightMapShape -> Prop) (cells : list Cell)
  (s : HeightMap) :
  (forall c rest shape, cells = c :: rest ->
     carries (terrainTypeId c) (height c) (elevation c) shape -> P shape) ->
  Forall P (shapes s) ->
  Forall P (shapes (snd (recalculateGroup cells s))).
Proof.
  intros Hc Hs. unfold recalculateGroup. destruct cells as [|c rest]; [exact Hs|].
  unfold bind, lift, modify.
  destruct (combinePolygons _ _ _ _) as [sh|e] eqn:Ec; [|exact Hs].
  cbn [snd shapes setShapes]. apply Forall_app. split; [exact Hs|].
  destruct (combinePolygons_loops _ _ _ _ _ Ec) as (_ & _ & _ & Hcar & _).
  apply Forall_forall. intros shape Hin. apply (Hc c rest shape eq_refl).
  exact (proj1 (Forall_forall _ _) Hcar shape Hin).
Qed.

Lemma forEach_shapes (P : HeightMapShape -> Prop) (groups : list (list Cell))
  (s : HeightMap) :
  (forall cells c rest shape, In cells groups -> cells = c :: rest ->
     carries (terrainTypeId c) (height c) (elevation c) shape -> P shape) ->
  Forall P (shapes s) ->
  Forall P (shapes (snd (forEach recalculateGroup groups s))).
Proof.
  revert s. induction groups as [|cells groups IH]; intros s Hg Hs; [exact Hs|].
  cbn [forEach]. unfold bind.
  pose proof (recalculateGroup_shapes P cells s
                (fun c rest shape => Hg cells c rest shape (or_introl eq_refl)) Hs) as H1.
  destruct (recalculateGroup cells s) as [[u|e] s1]; cbn [snd] in H1; [|exact H1].
  apply IH; [|exact H1]. intros cells' c rest shape Hin. apply Hg. now right.
Qed.

Lemma forEach_map (A B : Type) (f : B -> M HeightMap unit) (g : A -> B) (l : list A)
  (s : HeightMap) :
  forEach (fun a => f (g a)) l s = forEach f (map g l) s.
Proof.
  revert s. induction l as [|a l IH]; intro s; [reflexivity|].
  cbn [forEach map]. unfold bind. destruct (f (g a) s) as [[u|e] s1]; [apply IH | reflexivity].
Qed.

(** X16. After [_recalculateShapes], also when it throws half way, every
    shape of the instance has the terrain type, height and elevation of a
    cell of the store; on a gridless scene there are no shapes. *)
Theorem recalculateShapes_shapes_of_cells (s : HeightMap) :
  (gridless = true -> shapes (snd (_recalculateShapes s)) = [])
  /\ forall shape, In shape (shapes (snd (_recalculateShapes s))) ->
       exists c, In c (data s)
                 /\ carries (terrainTypeId c) (height c) (elevation c) shape.
Proof.
  unfold _recalculateShapes. unfold bind at 1. unfold modify. cbn [fst snd].
  destruct gridless; [split; [reflexivity | intros shape []]|].
  split; [discriminate|]. unfold bind, gets. cbn [fst snd].
  rewrite (forEach_map _ _ recalculateGroup snd).
  apply Forall_forall. apply forEach_shapes; [|constructor].
  intros cells c rest shape Hin Hcells Hcar. exists c. split; [|exact Hcar].
  apply in_map_iff in Hin. destruct Hin as [g [Hg Hin]].
  destruct (groupBy_items _ _ _ _ _ g Hin) as [_ Hitems].
  apply (Hitems c). rewrite Hg, Hcells. now left.
Qed.

End ShapesOfTheStore.

Module ShapeExamples.
Import SquareWorld.

Lemma combinePolygons_keeps_every_loop_witness :
  exists combinedPolygons,
    walkLoops (List.length (outlineEdges (cellPolygons (data ringMap))))
      (outlineEdges (cellPolygons (data ringMap))) [] = Ok combinedPolygons
    /\ Permutation (map polygon (shapes ringMap) ++ flat_map holes (shapes ringMap))
         combinedPolygons
    /\ Forall (carries "rock" (Some 1) (Some 0)) (shapes ringMap)
    /\ (forall shape, In shape (shapes ringMap) ->
          isHole (polygon shape) = Ok false
          /\ forall hole, In hole (holes shape) -> isHole hole = Ok true).
Proof.
  apply (combinePolygons_keeps_every_loop (cellPolygons (data ringMap))
           "rock" (Some 1) (Some 0) (shapes ringMap)).
  reflexivity.
Defined.

Lemma recalculateShapes_shapes_of_cells_witness :
  exists c, In c (data painted)
            /\ carries (terrainTypeId c) (height c) (elevation c) paintedShape.
Proof.
  apply (proj2 (recalculateShapes_shapes_of_cells painted) paintedShape).
  exact (in_eq paintedShape (tl (shapes painted))).
Defined.

End ShapeExamples.

(** * Further properties of the flattener *)

Section FlattenerOrderProperties.
Context {GE : Geometry}.

(** At the first event point no region is active, so the first round
    appends nothing. *)
Lemma first_boundary_inactive (shapeRegions : list ShapeRegions) (b0 : RegionPoint)
  (rest : list RegionPoint) :
  boundaries shapeRegions = b0 :: rest ->
  activeRegions shapeRegions (t b0) = [].
Proof.
  intro Hb. pose proof (boundaries_ascending shapeRegions) as Hasc. rewrite Hb in Hasc.
  apply StronglySorted_inv in Hasc. destruct Hasc as [_ Hrest].
  rewrite Forall_forall in Hrest.
  unfold activeRegions.
  assert (H : forall l, incl l shapeRegions ->
            flat_map (fun s : ShapeRegions =>
                        match find (activeAt (t b0)) (snd s) with
                        | Some region => [(fst s, region)]
                        | None => []
                        end) l = []).
  { induction l as [|sr l IH]; intro Hl; [reflexivity|]. cbn [flat_map].
    rewrite IH by (intros x Hx; apply Hl; now right).
    destruct (find (activeAt (t b0)) (snd sr)) as [r|] eqn:E; [|reflexivity].
    exfalso. apply find_some in E. destruct E as [Hr Ha].
    unfold activeAt in Ha. apply andb_true_iff in Ha. destruct Ha as [Ha _].
    apply Qltb_lt in Ha.
    destruct (regionEnds_In shapeRegions sr r (Hl sr (or_introl eq_refl)) Hr) as [Hs _].
    destruct (boundaries_cover shapeRegions _ Hs) as [q [Hq Hk]].
    rewrite Hb in Hq. destruct Hq as [<-|Hq]; [lra|].
    specialize (Hrest q Hq). lra. }
  apply H. apply incl_refl.
Qed.

Lemma entriesFrom_chain (shapeRegions : list ShapeRegions) (bs : list RegionPoint) :
  forall a, ascending (a :: bs) ->
  (forall e, In e (entriesFrom shapeRegions (Some a) bs) ->
     exists a', f_start e = Some a' /\ In a' (a :: bs) /\ In (f_end e) bs
                /\ t a' < t (f_end e))
  /\ StronglySorted precedes (entriesFrom shapeRegions (Some a) bs).
Proof.
  induction bs as [|b bs IH]; intros a Hasc; [split; [intros e [] | constructor]|].
  pose proof Hasc as Hasc'.
  apply StronglySorted_inv in Hasc'. destruct Hasc' as [Hbs Ha].
  rewrite Forall_forall in Ha.
  destruct (IH b Hbs) as [IH1 IH2]. cbn [entriesFrom]. split.
  - intros e He. apply in_app_or in He. destruct He as [He|He].
    + apply entryAt_In in He. destruct He as [He Hs]. exists a.
      split; [exact Hs|]. split; [now left|]. rewrite He. split; [now left|].
      apply Ha. now left.
    + destruct (IH1 e He) as (a' & H1 & H2 & H3 & H4). exists a'.
      split; [exact H1|]. split; [now right|]. split; [now right | exact H4].
  - assert (Hlater : forall e', In e' (entriesFrom shapeRegions (Some b) bs) ->
              forall e, In e (entryAt shapeRegions (Some a) b) -> precedes e e').
    { intros e' He' e He. apply entryAt_In in He. destruct He as [He _].
      destruct (IH1 e' He') as (a' & H1 & H2 & _). unfold precedes. rewrite H1, He.
      destruct H2 as [<-|H2]; [apply Qle_refl|].
      apply StronglySorted_inv in Hbs. destruct Hbs as [_ Hb].
      rewrite Forall_forall in Hb. apply Qlt_le_weak. now apply Hb. }
    unfold entryAt in *. destruct (activeRegions shapeRegions (t b)); [exact IH2|].
    cbn [app]. constructor; [exact IH2|]. apply Forall_forall. intros e' He'.
    apply (Hlater e' He'). now left.
Qed.

(** X17. Every entry that the flattener returns has a start: the event
    point before its end, at a strictly smaller [t].  The entries come in
    the order of the ray and none starts before an earlier one has ended. *)
Theorem flatten_entries_in_order (shapeRegions : list ShapeRegions) :
  (forall e, In e (flattenLineOfSightIntersectionRegions shapeRegions) ->
     exists a, f_start e = Some a
               /\ In a (boundaries shapeRegions)
               /\ In (f_end e) (boundaries shapeRegions)
               /\ t a < t (f_end e))
  /\ StronglySorted precedes (flattenLineOfSightIntersectionRegions shapeRegions).
Proof.
  rewrite flatten_entriesFrom.
  destruct (boundaries shapeRegions) as [|b0 rest] eqn:Hb;
    [split; [intros e [] | constructor]|].
  cbn [entriesFrom]. unfold entryAt at 1 2.
  rewrite (first_boundary_inactive shapeRegions b0 rest Hb). cbn [app].
  pose proof (boundaries_ascending shapeRegions) as Hasc. rewrite Hb in Hasc.
  destruct (entriesFrom_chain shapeRegions rest b0 Hasc) as [H1 H2].
  split; [|exact H2]. intros e He. destruct (H1 e He) as (a & Ha & Hin & Hend & Hlt).
  exists a. split; [exact Ha|]. split; [exact Hin|]. split; [now right | exact Hlt].
Qed.

End FlattenerOrderProperties.

Module FlattenerOrderExamples.
Import SquareWorld.

Lemma flatten_entries_in_order_witness :
  StronglySorted precedes (flattenLineOfSightIntersectionRegions overlapping)
  /\ List.length (flattenLineOfSightIntersectionRegions overlapping) = 3%nat.
Proof.
  split; [|reflexivity].
  exact (proj2 (flatten_entries_in_order overlapping)).
Defined.

End FlattenerOrderExamples.

(** * Further examples and properties of the history *)

Module EraseThenUndoExamples.
Import SquareWorld.

Lemma erase_then_undo_elevation_undefined_witness :
  get (data (snd (undo (snd (eraseCells [(1, 1)%Z] painted))))) (1, 1)%Z
  = Some {| position := (1, 1)%Z; terrainTypeId := "rock";
            height := Some 1; elevation := None |}.
Proof.
  apply (erase_then_undo_elevation_undefined painted (1, 1)%Z
           {| position := (1, 1)%Z; terrainTypeId := "rock";
              height := Some 1; elevation := Some 0 |}).
  - rewrite PaintedBlock.painted_data. reflexivity.
  - exact PaintedBlock.painted_onePerPosition.
  - reflexivity.
Defined.

End EraseThenUndoExamples.

Module HoleParentExamples.
Import SquareWorld.

Lemma assignHole_parent_witness :
  (exists c, containingPolygons twoBoundaries cellHole = [c]
             /\ updateAt 1 (addHole cellHole) twoBoundaries
                = updateAt (fst c) (addHole cellHole) twoBoundaries)
  \/ (exists testPoint v idx,
        (2 <= List.length (containingPolygons twoBoundaries cellHole))%nat
        /\ testPointOf cellHole = Some testPoint
        /\ updateAt 1 (addHole cellHole) twoBoundaries
           = updateAt idx (addHole cellHole) twoBoundaries
        /\ In (v, idx) (intersectsWithEdges testPoint
                          (containingPolygons twoBoundaries cellHole))
        /\ forall v' idx',
             In (v', idx') (intersectsWithEdges testPoint
                              (containingPolygons twoBoundaries cellHole)) ->
             v' <= v).
Proof.
  apply (assignHole_parent (GE := geometry) twoBoundaries
           (updateAt 1 (addHole cellHole) twoBoundaries) cellHole).
  reflexivity.
Defined.

Lemma outlineEdges_no_duplicates_witness :
  noLaterEqual (outlineEdges (cellPolygons (data painted)))
  /\ List.length (outlineEdges (cellPolygons (data painted))) = 8%nat.
Proof.
  split; [|reflexivity].
  exact (proj1 (outlineEdges_no_duplicates (cellPolygons (data painted)))).
Defined.

End HoleParentExamples.

Section UndoFrame.
Context {TC : TerrainCatalog} {GE : Geometry} {GR : Grid}.

(** X20. [undo] never touches the shapes, also when it changes cells: they
    stay those computed before.  It takes exactly the last entry off the
    history; it reports a change exactly when there was an entry, and with
    an empty history it leaves the instance as it is. *)
Theorem undo_pops_one_entry (s : HeightMap) :
  shapes (snd (undo s)) = shapes s
  /\ _history (snd (undo s)) = removelast (_history s)
  /\ (_history s = [] -> undo s = (Ok false, s))
  /\ (_history s <> [] -> fst (undo s) = Ok true).
Proof.
  split.
  { unfold undo. unfold bind at 1. unfold gets. cbn [fst snd].
    destruct (_history s) as [|first h]; [reflexivity|].
    unfold bind, modify, gets, saveChanges, sortData, when, ret. cbn [fst snd].
    destruct (fold_left revertItem _ _) as [d' anyAdded].
    destruct anyAdded; reflexivity. }
  split; [apply undo_history|]. split.
  - intro H. unfold undo. unfold bind at 1. unfold gets. cbn [fst snd]. now rewrite H.
  - intro H. destruct (exists_last H) as [h [entry E]].
    now rewrite (undo_unfold s h entry E).
Qed.

End UndoFrame.

Module UndoFrameExamples.
Import SquareWorld.

Lemma undo_pops_one_entry_witness :
  shapes (snd (undo painted)) = shapes painted
  /\ data (snd (undo painted)) = []
  /\ fst (undo painted) = Ok true
  /\ undo emptyMap = (Ok false, emptyMap).
Proof.
  destruct (undo_pops_one_entry painted) as (H1 & _ & _ & H4).
  destruct (undo_pops_one_entry emptyMap) as (_ & _ & H3 & _).
  split; [exact H1|]. split; [reflexivity|]. split.
  - apply H4. intro E. pose proof PaintedBlock.painted_history as Hl.
    rewrite E in Hl. discriminate Hl.
  - apply H3. reflexivity.
Defined.

End UndoFrameExamples.

(** * The two modes of the line of sight *)

Section LineOfSightModes.
Context {TC : TerrainCatalog} {GE : Geometry} {GR : Grid}.
Variable sweepRegions :
  HeightMapShape -> Point3 -> Point3 -> bool -> list LineOfSightIntersectionRegion.

(** X21. Whatever the sweep computes, the result of [calculateLineOfSight]
    without [includeNoHeightTerrain] is the result with it, less the entries
    of the shapes whose terrain type does not use height: the option adds
    entries and changes none. *)
Theorem calculateLineOfSight_modes (s : HeightMap) (p1 p2 : Point3) :
  calculateLineOfSight sweepRegions s p1 p2 false
  = filter (fun entry => shapeUsesHeight (fst entry))
      (calculateLineOfSight sweepRegions s p1 p2 true).
Proof.
  unfold calculateLineOfSight. induction (shapes s) as [|shape l IH]; [reflexivity|].
  cbn [flat_map]. rewrite filter_app, <- IH. f_equal.
  unfold lineOfSightOfShape, shapeUsesHeight.
  destruct (getTerrainType (shape_terrainTypeId shape)) as [terrainType|] eqn:Eg;
    [|reflexivity].
  destruct (usesHeight terrainType) eqn:Eu; cbn [negb andb].
  - destruct (nonEmpty _); [|reflexivity]. cbn [filter fst]. now rewrite Eg, Eu.
  - destruct (nonEmpty _); [|reflexivity]. cbn [filter fst]. now rewrite Eg, Eu.
Qed.

End LineOfSightModes.

(** * The layer *)

Section LayerProperties.
Context {TC : TerrainCatalog} {GE : Geometry} {GR : Grid}.
Variable fuel : nat.
Variable paintCellsNaN : list Position -> string -> num -> num -> M HeightMap bool.
Variable fillCellsNaN : Position -> string -> num -> num -> M HeightMap value.

Lemma cellIsPending_In (l : TerrainHeightLayer) (cell : Position) :
  cellIsPending l cell = true <-> In cell (_pendingChanges l).
Proof.
  unfold cellIsPending. rewrite existsb_exists. split.
  - intros [c [Hc E]]. apply position_eqb_eq in E. now subst.
  - intro H. exists cell. split; [exact H | apply position_eqb_refl].
Qed.

Lemma NoDup_snoc (A : Type) (l : list A) (a : A) :
  NoDup l -> ~ In a l -> NoDup (l ++ [a]).
Proof.
  intros Hl Ha. apply NoDup_app; [exact Hl | repeat constructor; intros [] |].
  intros b Hb [E|[]]. subst b. now apply Ha.
Qed.

Lemma app_snoc_not_nil (A : Type) (l : list A) (a : A) : l ++ [a] <> [].
Proof. destruct l; discriminate. Qed.

(** *** One handler *)

Lemma useTool_paint (cell : Position) (l : TerrainHeightLayer) :
  _pendingTool l = Some Paint ->
  useTool fuel fillCellsNaN cell None l
  = (Ok tt,
     if negb (cellIsPending l cell)
        && differsFromSelection (get (data (_heightMap l)) cell) (paintingConfig l)
        && truthyId (fst (fst (paintingConfig l)))
     then logCall (Highlight cell) (pushPending cell l)
     else l).
Proof.
  intro Ht. unfold useTool, bind, gets, modify, draw, whenL, ret. cbn [fst snd].
  rewrite Ht. now destruct (_ && _ && _).
Qed.

Lemma useTool_erase (cell : Position) (l : TerrainHeightLayer) :
  _pendingTool l = Some Erase ->
  useTool fuel fillCellsNaN cell None l
  = (Ok tt,
     if negb (cellIsPending l cell)
        && match get (data (_heightMap l)) cell with Some _ => true | None => false end
     then logCall (Highlight cell) (logCall (SetColor 0) (pushPending cell l))
     else l).
Proof.
  intro Ht. unfold useTool, bind, gets, modify, draw, whenL, ret. cbn [fst snd].
  rewrite Ht. now destruct (_ && _).
Qed.

(** What any use of a tool does to the pending cells and to the pending
    tool. *)
Lemma useTool_pending (cell : Position) (l : TerrainHeightLayer) :
  let l' := snd (useTool fuel fillCellsNaN cell None l) in
  (_pendingChanges l' = _pendingChanges l
   /\ (_pendingTool l' = _pendingTool l
       \/ (_pendingTool l' = None
           /\ _pendingTool l <> Some Paint /\ _pendingTool l <> Some Erase)))
  \/ (_pendingChanges l' = _pendingChanges l ++ [cell]
      /\ ~ In cell (_pendingChanges l)
      /\ _pendingTool l' = _pendingTool l
      /\ (_pendingTool l = Some Paint \/ _pendingTool l = Some Erase)).
Proof.
  cbv zeta. destruct (_pendingTool l) as [[| | | | |]|] eqn:Ht.
  - rewrite (useTool_paint cell l Ht). cbn [snd].
    destruct (negb (cellIsPending l cell)) eqn:Ep; cbn [andb];
      [|left; split; [reflexivity | now left]].
    destruct (_ && _); [|left; split; [reflexivity | now left]].
    right. split; [reflexivity|]. split; [|split; [exact Ht | now left]].
    intro Hin. apply cellIsPending_In in Hin. rewrite Hin in Ep. discriminate.
  - left. unfold useTool, bind, gets, modify, whenL, _updateGraphics, draw, ret, onMap.
    cbn [fst snd]. rewrite Ht.
    destruct (fst (fst (paintingConfig (setPendingTool None l)))) as [id|];
      [|split; [reflexivity | right; repeat split; discriminate]].
    destruct (truthyId (Some id));
      [|split; [reflexivity | right; repeat split; discriminate]].
    destruct (fillSelection _ _ _ _ _ _ _) as [[v|e] hm]; [destruct (truthy v)|];
      (split; [reflexivity | right; repeat split; discriminate]).
  - left. unfold useTool, bind, gets, modify, whenL, _updateGraphics, draw, ret, onMap.
    cbn [fst snd]. rewrite Ht.
    destruct (get (data (_heightMap l)) cell);
      [split; [reflexivity | right; repeat split; discriminate]
      |split; [reflexivity | left; exact Ht]].
  - rewrite (useTool_erase cell l Ht). cbn [snd].
    destruct (negb (cellIsPending l cell)) eqn:Ep; cbn [andb];
      [|left; split; [reflexivity | now left]].
    destruct (get (data (_heightMap l)) cell); [|left; split; [reflexivity | now left]].
    right. split; [reflexivity|]. split; [|split; [exact Ht | now right]].
    intro Hin. apply cellIsPending_In in Hin. rewrite Hin in Ep. discriminate.
  - left. unfold useTool, bind, gets, modify, whenL, _updateGraphics, draw, ret, onMap.
    cbn [fst snd]. rewrite Ht.
    destruct (eraseFillCells _ _ _) as [[[|]|e] hm];
      (split; [reflexivity | right; repeat split; discriminate]).
  - left. unfold useTool, bind, gets, ret. cbn [fst snd]. rewrite Ht.
    split; [reflexivity | left; exact Ht].
  - left. unfold useTool, bind, gets, ret. cbn [fst snd]. rewrite Ht.
    split; [reflexivity | left; exact Ht].
Qed.

Lemma beginTool_idle (cell : Position) (tool : Tool) (l : TerrainHeightLayer) :
  _pendingTool l = None ->
  exists l1,
    beginTool fuel fillCellsNaN cell tool l = useTool fuel fillCellsNaN cell None l1
    /\ _heightMap l1 = _heightMap l
    /\ _pendingTool l1 = Some tool
    /\ _pendingChanges l1 = _pendingChanges l
    /\ paintingConfig l1 = paintingConfig l.
Proof.
  intro Ht. unfold beginTool. unfold bind at 1. unfold gets. cbn [fst snd]. rewrite Ht.
  unfold bind at 1. unfold modify at 1. cbn [fst snd]. unfold bind at 1.
  destruct tool; unfold draw, modify, ret; cbn [fst snd];
    (eexists; split; [reflexivity | repeat split]).
Qed.

Lemma commit_resets (l : TerrainHeightLayer) :
  _pendingChanges (snd (commitPendingToolUsage paintCellsNaN l)) = []
  /\ _pendingTool (snd (commitPendingToolUsage paintCellsNaN l)) = None.
Proof.
  unfold commitPendingToolUsage, bind, gets, modify, whenL, _updateGraphics, draw, ret, onMap.
  cbn [fst snd].
  destruct (_pendingTool l) as [[| | | | |]|]; try (split; reflexivity).
  - destruct (fst (fst (paintingConfig l))) as [id|]; [|split; reflexivity].
    destruct (truthyId (Some id)); [|split; reflexivity].
    destruct (paintSelection _ _ _ _ _ _) as [[[|]|e] hm]; split; reflexivity.
  - destruct (eraseCells _ _) as [[[|]|e] hm]; split; reflexivity.
Qed.

Lemma commit_erase (l : TerrainHeightLayer) :
  _pendingTool l = Some Erase ->
  _heightMap (snd (commitPendingToolUsage paintCellsNaN l))
  = snd (eraseCells (_pendingChanges l) (_heightMap l)).
Proof.
  intro Ht.
  unfold commitPendingToolUsage, bind, gets, modify, whenL, _updateGraphics, draw, ret, onMap.
  cbn [fst snd]. rewrite Ht. cbn [_heightMap setPendingTool setPendingChanges].
  destruct (eraseCells _ _) as [[[|]|e] hm]; reflexivity.
Qed.

Lemma commit_paint (l : TerrainHeightLayer) (id : string) (h e : Q) :
  _pendingTool l = Some Paint ->
  paintingConfig l = (Some id, Some h, Some e) ->
  id <> ""%string ->
  _heightMap (snd (commitPendingToolUsage paintCellsNaN l))
  = snd (paintCells (_pendingChanges l) id h e true (_heightMap l)).
Proof.
  intros Ht Hc Hid.
  unfold commitPendingToolUsage, bind, gets, modify, whenL, _updateGraphics, draw, ret, onMap.
  cbn [fst snd]. rewrite Ht, Hc. cbn [fst snd truthyId].
  apply String.eqb_neq in Hid. rewrite Hid. cbn [negb paintSelection].
  cbn [_heightMap setPendingTool setPendingChanges].
  destruct (paintCells _ _ _ _ _ _) as [[[|]|x] hm]; reflexivity.
Qed.

Lemma mouseUp_stroke (l : TerrainHeightLayer) (tool : Tool) :
  _pendingTool l = Some tool ->
  let l' := snd (handle fuel paintCellsNaN fillCellsNaN (MouseUp 0) l) in
  _pendingChanges l' = []
  /\ _pendingTool l' = None
  /\ _heightMap l' = _heightMap (snd (commitPendingToolUsage paintCellsNaN l)).
Proof.
  intro Ht. cbv zeta.
  assert (E : handle fuel paintCellsNaN fillCellsNaN (MouseUp 0) l
              = bind (commitPendingToolUsage paintCellsNaN)
                  (fun _ => modify (setPendingTool None)) l).
  { unfold handle. unfold bind at 1. unfold gets. cbn [fst snd]. now rewrite Ht. }
  rewrite E. unfold bind, modify.
  destruct (commit_resets l) as [Hp Hn].
  destruct (commitPendingToolUsage paintCellsNaN l) as [[u|x] l1]; cbn [fst snd] in *.
  - split; [exact Hp|]. split; reflexivity.
  - split; [exact Hp|]. split; [exact Hn | reflexivity].
Qed.

(** *** The pending cells *)

Lemma pendingInvariant_idle (l : TerrainHeightLayer) :
  pendingInvariant l ->
  _pendingTool l <> Some Paint -> _pendingTool l <> Some Erase ->
  _pendingChanges l = [].
Proof.
  intros [_ H] Hp He. destruct (_pendingChanges l) as [|c cs]; [reflexivity|].
  destruct H as [H|H]; [discriminate | contradiction | contradiction].
Qed.

Lemma pendingInvariant_nil (l : TerrainHeightLayer) :
  _pendingChanges l = [] -> pendingInvariant l.
Proof. intro H. unfold pendingInvariant. rewrite H. split; [constructor | now intros []]. Qed.

Lemma useTool_pendingInvariant (cell : Position) (l : TerrainHeightLayer) :
  pendingInvariant l ->
  pendingInvariant (snd (useTool fuel fillCellsNaN cell None l)).
Proof.
  intro Hinv. destruct (useTool_pending cell l) as [[Hp [Ht|(Ht & Hn1 & Hn2)]]|(Hp & Hn & Ht & Hk)].
  - destruct Hinv as [Hnd Hk]. split; rewrite Hp, ?Ht; assumption.
  - apply pendingInvariant_nil. rewrite Hp. now apply pendingInvariant_idle.
  - destruct Hinv as [Hnd _]. split; rewrite Hp, ?Ht.
    + now apply NoDup_snoc.
    + intros _. exact Hk.
Qed.

Lemma handle_pendingInvariant (event : PointerEvent) (l : TerrainHeightLayer) :
  pendingInvariant l ->
  pendingInvariant (snd (handle fuel paintCellsNaN fillCellsNaN event l)).
Proof.
  intro Hinv. destruct event as [button cell activeTool|cell|button]; unfold handle.
  - destruct (negb (button =? 0)%Z); [exact Hinv|].
    destruct (_pendingTool l) as [tool|] eqn:Ht.
    + unfold beginTool. unfold bind at 1. unfold gets. cbn [fst snd]. now rewrite Ht.
    + destruct (beginTool_idle cell activeTool l Ht) as (l1 & -> & _ & _ & Hp & _).
      apply useTool_pendingInvariant. apply pendingInvariant_nil. rewrite Hp.
      apply pendingInvariant_idle; [exact Hinv | rewrite Ht; discriminate..].
  - unfold bind at 1. unfold gets. cbn [fst snd].
    destruct (_pendingTool l); [now apply useTool_pendingInvariant | exact Hinv].
  - destruct (_pendingTool l) as [tool|] eqn:Ht.
    2:{ unfold bind at 1. unfold gets. cbn [fst snd]. now rewrite Ht. }
    destruct (button =? 0)%Z eqn:Eb.
    + apply Z.eqb_eq in Eb. subst button.
      destruct (mouseUp_stroke l tool Ht) as (Hp & _ & _).
      apply pendingInvariant_nil. exact Hp.
    + unfold bind at 1. unfold gets. cbn [fst snd]. now rewrite Ht.
Qed.

(** X22. Whatever the pointer does, no cell is pending twice, and cells are
    pending only while a paint or an erase stroke is under way: a fill, an
    erasing fill, the pipette and a button going up leave none. *)
Theorem handleAll_keeps_pendingInvariant (events : list PointerEvent)
  (l : TerrainHeightLayer) :
  pendingInvariant l ->
  pendingInvariant (handleAll fuel paintCellsNaN fillCellsNaN events l).
Proof.
  revert l. induction events as [|event events IH]; intros l H; [exact H|].
  cbn [handleAll fold_left]. apply IH. now apply handle_pendingInvariant.
Qed.

(** *** Strokes *)

Lemma handleAll_app (events events' : list PointerEvent) (l : TerrainHeightLayer) :
  handleAll fuel paintCellsNaN fillCellsNaN (events ++ events') l
  = handleAll fuel paintCellsNaN fillCellsNaN events'
      (handleAll fuel paintCellsNaN fillCellsNaN events l).
Proof. unfold handleAll. apply fold_left_app. Qed.

Lemma mouseMove_dragging (cell : Position) (l : TerrainHeightLayer) (tool : Tool) :
  _pendingTool l = Some tool ->
  handle fuel paintCellsNaN fillCellsNaN (MouseMove cell) l
  = useTool fuel fillCellsNaN cell None l.
Proof.
  intro Ht. unfold handle. unfold bind at 1. unfold gets. cbn [fst snd]. now rewrite Ht.
Qed.

Lemma mouseDown_idle (cell : Position) (tool : Tool) (l : TerrainHeightLayer) :
  _pendingTool l = None ->
  exists l1,
    snd (handle fuel paintCellsNaN fillCellsNaN (MouseDown 0 cell tool) l)
    = snd (handle fuel paintCellsNaN fillCellsNaN (MouseMove cell) l1)
    /\ _heightMap l1 = _heightMap l
    /\ _pendingTool l1 = Some tool
    /\ _pendingChanges l1 = _pendingChanges l
    /\ paintingConfig l1 = paintingConfig l.
Proof.
  intro Ht. destruct (beginTool_idle cell tool l Ht) as (l1 & E & H1 & H2 & H3 & H4).
  exists l1. rewrite (mouseMove_dragging cell l1 tool H2).
  split; [|now repeat split]. cbn [handle Z.eqb negb]. now rewrite E.
Qed.

Lemma drag_erase (cells : list Position) (l : TerrainHeightLayer) :
  _pendingTool l = Some Erase ->
  let l' := handleAll fuel paintCellsNaN fillCellsNaN (map MouseMove cells) l in
  _heightMap l' = _heightMap l
  /\ _pendingTool l' = Some Erase
  /\ forall q, In q (_pendingChanges l')
               <-> In q (_pendingChanges l)
                   \/ (In q cells /\ get (data (_heightMap l)) q <> None).
Proof.
  revert l. induction cells as [|cell cells IH]; intros l Ht; cbv zeta.
  - split; [reflexivity|]. split; [exact Ht|]. intro q. cbn. tauto.
  - cbn [map handleAll fold_left].
    rewrite (mouseMove_dragging cell l Erase Ht), (useTool_erase cell l Ht). cbn [snd].
    destruct (negb (cellIsPending l cell)
              && match get (data (_heightMap l)) cell with
                 | Some _ => true
                 | None => false
                 end) eqn:Eq.
    + destruct (IH (logCall (Highlight cell) (logCall (SetColor 0) (pushPending cell l))) Ht)
        as (H1 & H2 & H3).
      split; [exact H1|]. split; [exact H2|]. intro q. rewrite H3.
      cbn [_pendingChanges logCall pushPending setPendingChanges _heightMap].
      rewrite in_app_iff. apply andb_true_iff in Eq. destruct Eq as [_ Eg]. cbn [In].
      split.
      * intros [[H|[<-|[]]]|[H Hg]]; [now left | right | right; split; [now right | exact Hg]].
        split; [now left|]. destruct (get (data (_heightMap l)) cell); [discriminate|].
        discriminate.
      * intros [H|[[<-|H] Hg]]; [left; now left | left; right; now left | right; now split].
    + destruct (IH l Ht) as (H1 & H2 & H3).
      split; [exact H1|]. split; [exact H2|]. intro q. rewrite H3. cbn [In]. split.
      * intros [H|[H Hg]]; [now left | right; split; [now right | exact Hg]].
      * intros [H|[[<-|H] Hg]]; [now left | | right; now split].
        left. apply cellIsPending_In.
        destruct (cellIsPending l cell); [reflexivity|]. cbn [negb andb] in Eq.
        destruct (get (data (_heightMap l)) cell); [discriminate | now destruct Hg].
Qed.

Lemma drag_paint (cells : list Position) (l : TerrainHeightLayer) :
  _pendingTool l = Some Paint ->
  truthyId (fst (fst (paintingConfig l))) = true ->
  let l' := handleAll fuel paintCellsNaN fillCellsNaN (map MouseMove cells) l in
  _heightMap l' = _heightMap l
  /\ _pendingTool l' = Some Paint
  /\ paintingConfig l' = paintingConfig l
  /\ forall q, In q (_pendingChanges l')
               <-> In q (_pendingChanges l)
                   \/ (In q cells
                       /\ differsFromSelection (get (data (_heightMap l)) q)
                            (paintingConfig l) = true).
Proof.
  revert l. induction cells as [|cell cells IH]; intros l Ht Hid; cbv zeta.
  - split; [reflexivity|]. split; [exact Ht|]. split; [reflexivity|]. intro q. cbn. tauto.
  - cbn [map handleAll fold_left].
    rewrite (mouseMove_dragging cell l Paint Ht), (useTool_paint cell l Ht). cbn [snd].
    rewrite Hid, andb_true_r.
    destruct (negb (cellIsPending l cell)
              && differsFromSelection (get (data (_heightMap l)) cell) (paintingConfig l))
      eqn:Eq.
    + destruct (IH (logCall (Highlight cell) (pushPending cell l)) Ht Hid)
        as (H1 & H2 & H3 & H4).
      split; [exact H1|]. split; [exact H2|]. split; [exact H3|]. intro q. rewrite H4.
      cbn [_pendingChanges logCall pushPending setPendingChanges _heightMap].
      change (paintingConfig (logCall (Highlight cell) (pushPending cell l)))
        with (paintingConfig l).
      rewrite in_app_iff. apply andb_true_iff in Eq. destruct Eq as [_ Eg]. cbn [In].
      split.
      * intros [[H|[<-|[]]]|[H Hg]]; [now left | right | right; split; [now right | exact Hg]].
        split; [now left | exact Eg].
      * intros [H|[[<-|H] Hg]]; [left; now left | left; right; now left | right; now split].
    + destruct (IH l Ht Hid) as (H1 & H2 & H3 & H4).
      split; [exact H1|]. split; [exact H2|]. split; [exact H3|]. intro q. rewrite H4.
      cbn [In]. split.
      * intros [H|[H Hg]]; [now left | right; split; [now right | exact Hg]].
      * intros [H|[[<-|H] Hg]]; [now left | | right; now split].
        left. apply cellIsPending_In.
        destruct (cellIsPending l cell); [reflexivity|]. cbn [negb andb] in Eq. congruence.
Qed.

(** What a stroke leaves: the map after the commit of the cells queued by
    the button going down and by the drag. *)
Lemma stroke_commits (tool : Tool) (first : Position) (more : list Position)
  (l : TerrainHeightLayer) :
  _pendingTool l = None ->
  exists l1,
    _heightMap l1 = _heightMap l
    /\ _pendingTool l1 = Some tool
    /\ _pendingChanges l1 = _pendingChanges l
    /\ paintingConfig l1 = paintingConfig l
    /\ handleAll fuel paintCellsNaN fillCellsNaN (stroke tool first more) l
       = snd (handle fuel paintCellsNaN fillCellsNaN (MouseUp 0)
                (handleAll fuel paintCellsNaN fillCellsNaN
                   (map MouseMove (first :: more)) l1)).
Proof.
  intro Ht. destruct (mouseDown_idle first tool l Ht) as (l1 & E & H1 & H2 & H3 & H4).
  exists l1. repeat (split; [assumption|]).
  unfold stroke. cbn [handleAll fold_left]. fold (handleAll fuel paintCellsNaN fillCellsNaN).
  rewrite E. cbn [map].
  change (fold_left _ (map MouseMove more ++ [MouseUp 0]) ?x)
    with (handleAll fuel paintCellsNaN fillCellsNaN (map MouseMove more ++ [MouseUp 0]) x).
  rewrite handleAll_app. reflexivity.
Qed.

(** X23. An erase stroke of a layer at rest, over a store with one cell per
    position: when the button has gone up, no cell the pointer went over has
    terrain, every other position whose cell has a terrain type of the
    catalogue reads as before, and the layer is at rest again. *)
Theorem erase_stroke_erases (first : Position) (more : list Position)
  (l : TerrainHeightLayer) (q : Position) :
  _pendingTool l = None ->
  _pendingChanges l = [] ->
  onePerPosition (data (_heightMap l)) ->
  let l' := handleAll fuel paintCellsNaN fillCellsNaN (stroke Erase first more) l in
  (In q (first :: more) -> get (data (_heightMap l')) q = None)
  /\ (~ In q (first :: more) ->
      (forall c, get (data (_heightMap l)) q = Some c -> available c = true) ->
      get (data (_heightMap l')) q = get (data (_heightMap l)) q)
  /\ _pendingTool l' = None
  /\ _pendingChanges l' = [].
Proof.
  intros Ht Hp Hnd. cbv zeta.
  destruct (stroke_commits Erase first more l Ht) as (l1 & H1 & H2 & H3 & _ & ->).
  destruct (drag_erase (first :: more) l1 H2) as (D1 & D2 & D3).
  set (l2 := handleAll fuel paintCellsNaN fillCellsNaN (map MouseMove (first :: more)) l1) in *.
  destruct (mouseUp_stroke l2 Erase D2) as (U1 & U2 & U3).
  rewrite U3, (commit_erase l2 D2), D1, H1.
  destruct (eraseCells_get (_pendingChanges l2) (_heightMap l) q Hnd) as [Hin Hout].
  assert (Hq : In q (_pendingChanges l2)
               <-> In q (first :: more) /\ get (data (_heightMap l)) q <> None).
  { rewrite D3, H3, Hp, H1. cbn [In]. tauto. }
  split; [|split; [|split; assumption]].
  - intro Hv. destruct (get (data (_heightMap l)) q) as [c|] eqn:Eg.
    + apply Hin. apply Hq. split; [exact Hv | discriminate].
    + apply Hout; [|discriminate].
      intro Hc. apply Hq in Hc. destruct Hc as [_ Hc]. now apply Hc.
  - intros Hv Hav. apply Hout; [|exact Hav].
    intro Hc. apply Hq in Hc. now apply Hv.
Qed.

(** X24. A paint stroke of a layer at rest whose selection is a terrain
    type of the catalogue with a height and an elevation that pass the
    validation: when the button has gone up, every cell the pointer went
    over has the selected terrain type, height and elevation, every other
    position whose cell has a terrain type of the catalogue reads as before,
    and the layer is at rest again. *)
Theorem paint_stroke_paints (first : Position) (more : list Position)
  (l : TerrainHeightLayer) (id : string) (h e : Q) (terrainType : TerrainType)
  (q : Position) :
  _pendingTool l = None ->
  _pendingChanges l = [] ->
  paintingConfig l = (Some id, Some h, Some e) ->
  id <> ""%string ->
  getTerrainType id = Some terrainType ->
  validPaint terrainType h e ->
  let l' := handleAll fuel paintCellsNaN fillCellsNaN (stroke Paint first more) l in
  (In q (first :: more) -> readsPainted id h e (data (_heightMap l')) q)
  /\ (~ In q (first :: more) ->
      (forall c, get (data (_heightMap l)) q = Some c -> available c = true) ->
      get (data (_heightMap l')) q = get (data (_heightMap l)) q)
  /\ _pendingTool l' = None
  /\ _pendingChanges l' = [].
Proof.
  intros Ht Hp Hc Hid Hget Hvalid. cbv zeta.
  destruct (stroke_commits Paint first more l Ht) as (l1 & H1 & H2 & H3 & H4 & ->).
  assert (Htruthy : truthyId (fst (fst (paintingConfig l1))) = true).
  { rewrite H4, Hc. cbn [fst truthyId]. apply String.eqb_neq in Hid. now rewrite Hid. }
  destruct (drag_paint (first :: more) l1 H2 Htruthy) as (D1 & D2 & D3 & D4).
  set (l2 := handleAll fuel paintCellsNaN fillCellsNaN (map MouseMove (first :: more)) l1) in *.
  destruct (mouseUp_stroke l2 Paint D2) as (U1 & U2 & U3).
  assert (Hc2 : paintingConfig l2 = (Some id, Some h, Some e)) by now rewrite D3, H4.
  rewrite U3, (commit_paint l2 id h e D2 Hc2 Hid), D1, H1.
  assert (Hq : In q (_pendingChanges l2)
               <-> In q (first :: more)
                   /\ differsFromSelection (get (data (_heightMap l)) q)
                        (Some id, Some h, Some e) = true).
  { rewrite D4, H3, Hp, H1, H4, Hc. cbn [In]. tauto. }
  split; [|split; [|split; assumption]].
  - intro Hv.
    destruct (differsFromSelection (get (data (_heightMap l)) q) (Some id, Some h, Some e))
      eqn:Ed.
    + apply (paintCells_readsPainted _ id h e terrainType _ q Hget Hvalid).
      apply Hq. now split.
    + unfold differsFromSelection in Ed. cbn [fst snd] in Ed.
      destruct (get (data (_heightMap l)) q) as [c|] eqn:Eg; [|discriminate].
      apply orb_false_iff in Ed. destruct Ed as [Ed Ee].
      apply orb_false_iff in Ed. destruct Ed as [Et Eh].
      apply negb_false_iff in Et.
      assert (Hpainted : paintedAs id h e c = true).
      { unfold paintedAs. rewrite Et. unfold differs in Eh, Ee.
        destruct (height c) as [p|]; [|discriminate].
        destruct (elevation c) as [p'|]; [|discriminate].
        apply negb_false_iff in Eh, Ee. cbn [strict_eq]. now rewrite Eh, Ee. }
      exists c. split; [|exact Hpainted].
      rewrite <- Eg. apply paintCells_get_other.
      * intro Hin. apply Hq in Hin. destruct Hin as [_ Hin]. discriminate Hin.
      * intros c' Hc'. rewrite Eg in Hc'. inversion Hc'; subst c'.
        apply (getTerrainType_available id terrainType); [exact Hget|].
        now apply String.eqb_eq.
  - intros Hv Hav. apply paintCells_get_other; [|exact Hav].
    intro Hin. apply Hq in Hin. now apply Hv.
Qed.

(** X25. The fill tool on a cell that already has the selected terrain type
    and height: the map stays as it is, and the graphics are updated all the
    same, because the array that [fillCells] hands back is truthy. *)
Theorem fill_tool_redraws_unchanged_map (cell : Position) (l : TerrainHeightLayer)
  (id : string) (h e : Q) (c : Cell) :
  _pendingTool l = None ->
  paintingConfig l = (Some id, Some h, Some e) ->
  id <> ""%string ->
  get (data (_heightMap l)) cell = Some c ->
  terrainTypeId c = id ->
  strict_eq (height c) (Some h) = true ->
  let l' := snd (handle fuel paintCellsNaN fillCellsNaN (MouseDown 0 cell Fill) l) in
  _heightMap l' = _heightMap l
  /\ graphicsCalls l' = graphicsCalls l ++ [UpdateGraphics]
  /\ _pendingTool l' = None
  /\ _pendingChanges l' = _pendingChanges l.
Proof.
  intros Ht Hc Hid Hg Htid Hh. cbv zeta.
  assert (Hfill : fillCells fuel cell id h e (_heightMap l) = (Ok (VArray []), _heightMap l)).
  { unfold fillCells, bind, gets. cbn [fst snd]. rewrite Hg. cbn [option_map].
    now rewrite Htid, String.eqb_refl, Hh. }
  assert (E : handle fuel paintCellsNaN fillCellsNaN (MouseDown 0 cell Fill) l
              = (Ok tt, logCall UpdateGraphics (setPendingTool None (setPendingTool (Some Fill) l)))).
  { cbn [handle Z.eqb negb]. unfold beginTool. unfold bind at 1. unfold gets. cbn [fst snd].
    rewrite Ht. unfold bind at 1. unfold modify at 1. cbn [fst snd].
    unfold bind at 1. unfold ret at 1. cbn [fst snd].
    unfold useTool. unfold bind at 1. unfold gets at 1. cbn [fst snd].
    cbn [_pendingTool setPendingTool].
    unfold bind at 1. unfold modify at 1. cbn [fst snd].
    unfold bind at 1. unfold gets at 1. cbn [fst snd].
    change (paintingConfig (setPendingTool None (setPendingTool (Some Fill) l)))
      with (paintingConfig l).
    rewrite Hc. cbn [fst snd truthyId]. apply String.eqb_neq in Hid. rewrite Hid.
    cbn [negb]. unfold bind, onMap. cbn [fillSelection _heightMap setPendingTool].
    rewrite Hfill. reflexivity. }
  rewrite E. cbn [snd]. repeat split.
Qed.

(** X26. [canUndo] holds exactly when [undo] of the layer reports a change;
    [undo] of the layer updates no graphics and leaves the pending cells and
    the pending tool as they are. *)
Theorem canUndo_iff_undo_changes (l : TerrainHeightLayer) :
  (canUndo l = true <-> fst (layerUndo l) = Ok true)
  /\ graphicsCalls (snd (layerUndo l)) = graphicsCalls l
  /\ _pendingChanges (snd (layerUndo l)) = _pendingChanges l
  /\ _pendingTool (snd (layerUndo l)) = _pendingTool l.
Proof.
  unfold layerUndo, onMap, canUndo. split.
  - destruct (_history (_heightMap l)) as [|first h] eqn:Eh.
    + assert (E : undo (_heightMap l) = (Ok false, _heightMap l)).
      { unfold undo. unfold bind at 1. unfold gets. cbn [fst snd]. now rewrite Eh. }
      rewrite E. cbn. split; discriminate.
    + assert (Hne : first :: h <> []) by discriminate.
      destruct (exists_last Hne) as [h' [entry E]]. rewrite <- Eh in E.
      rewrite (undo_unfold (_heightMap l) h' entry E). cbn. split; reflexivity.
  - destruct (undo (_heightMap l)) as [r hm]. repeat split.
Qed.

End LayerProperties.

Module LayerExamples.
Import SquareWorld.

Lemma handleAll_keeps_pendingInvariant_witness :
  pendingInvariant
    (handleAll 489 noPaint noFill
       [MouseDown 0 (0, 0)%Z Paint; MouseMove (0, 1)%Z; MouseMove (0, 1)%Z;
        MouseMove (2, 2)%Z] idleLayer)
  /\ _pendingChanges
       (handleAll 489 noPaint noFill
          [MouseDown 0 (0, 0)%Z Paint; MouseMove (0, 1)%Z; MouseMove (0, 1)%Z;
           MouseMove (2, 2)%Z] idleLayer)
     = [(0, 0); (0, 1); (2, 2)]%Z.
Proof.
  split; [|reflexivity].
  apply handleAll_keeps_pendingInvariant.
  split; [constructor | intro H; now destruct H].
Defined.

Lemma erase_stroke_erases_witness :
  get (data (_heightMap
               (handleAll 489 noPaint noFill
                  (stroke Erase (0, 0)%Z [(0, 1); (5, 5)]%Z) idleLayer))) (0, 1)%Z
  = None.
Proof.
  apply (erase_stroke_erases 489 noPaint noFill (0, 0)%Z [(0, 1); (5, 5)]%Z idleLayer
           (0, 1)%Z eq_refl eq_refl PaintedBlock.painted_onePerPosition).
  right. left. reflexivity.
Defined.

Lemma paint_stroke_paints_witness :
  readsPainted "rock" 2 3
    (data (_heightMap
             (handleAll 489 noPaint noFill
                (stroke Paint (0, 0)%Z [(2, 2)%Z]) idleLayer))) (2, 2)%Z.
Proof.
  apply (paint_stroke_paints 489 noPaint noFill (0, 0)%Z [(2, 2)%Z] idleLayer
           "rock" 2 3 {| tt_id := "rock"; usesHeight := true |} (2, 2)%Z).
  - reflexivity.
  - reflexivity.
  - reflexivity.
  - discriminate.
  - reflexivity.
  - intros _. split; [reflexivity | discriminate].
  - right. left. reflexivity.
Defined.

Lemma fill_tool_redraws_unchanged_map_witness :
  _heightMap (snd (handle 489 noPaint noFill (MouseDown 0 (0, 0)%Z Fill) blockLayer))
  = painted
  /\ graphicsCalls (snd (handle 489 noPaint noFill (MouseDown 0 (0, 0)%Z Fill) blockLayer))
     = [UpdateGraphics].
Proof.
  destruct (fill_tool_redraws_unchanged_map 489 noPaint noFill (0, 0)%Z blockLayer
              "rock" 1 5
              {| position := (0, 0)%Z; terrainTypeId := "rock";
                 height := Some 1; elevation := Some 0 |})
    as (H1 & H2 & _).
  - reflexivity.
  - reflexivity.
  - discriminate.
  - cbn [_heightMap blockLayer]. rewrite PaintedBlock.painted_data. reflexivity.
  - reflexivity.
  - reflexivity.
  - split; [exact H1 | exact H2].
Defined.

Lemma canUndo_iff_undo_changes_witness :
  canUndo idleLayer = true /\ fst (layerUndo idleLayer) = Ok true.
Proof.
  assert (H : canUndo idleLayer = true) by reflexivity.
  split; [exact H|].
  exact (proj1 (proj1 (canUndo_iff_undo_changes idleLayer)) H).
Defined.

End LayerExamples.

(** * Paint, then erase *)

Section PaintThenErase.
Context {TC : TerrainCatalog} {GE : Geometry} {GR : Grid}.

Lemma recalculateShapes_empty (s : HeightMap) :
  data s = [] -> shapes (snd (_recalculateShapes s)) = [].
Proof.
  intro H. unfold _recalculateShapes, bind, modify, gets. cbn [fst snd].
  destruct gridless; [reflexivity|]. cbn [data setShapes]. rewrite H. reflexivity.
Qed.

Lemma commit_shapes_empty (history : HistoryEntry) (s : HeightMap) :
  data (snd (commit history s)) = [] ->
  (history = [] -> shapes s = []) ->
  shapes (snd (commit history s)) = [].
Proof.
  destruct history as [|i history]; intros Hd Hs.
  - pose proof (commit_history [] s) as E. cbv beta iota in E. rewrite E. cbn [snd].
    now apply Hs.
  - rewrite commit_nonempty in *.
    pose proof (recalculateShapes_frame (committed (i :: history) s)) as [Hf _].
    pose proof (recalculateShapes_empty (committed (i :: history) s)) as He.
    destruct (_recalculateShapes _) as [[u|x] s1]; cbn [snd] in *;
      apply He; now rewrite <- Hf.
Qed.

Lemma eraseCell_step (d : list Cell) (history : HistoryEntry) (cell : Position) :
  eraseCell (d, history) cell = (d, history)
  \/ exists d' item, eraseCell (d, history) cell = (d', history ++ [item]).
Proof.
  unfold eraseCell. destruct (findIndex (samePosition cell) d) as [i|]; [|now left].
  destruct (nth_error d i) as [c|]; [|now left]. right. eauto.
Qed.

Lemma eraseCells_fold_nothing (cells : list Position) (d : list Cell)
  (history : HistoryEntry) :
  snd (fold_left eraseCell cells (d, history)) = [] ->
  history = [] /\ fst (fold_left eraseCell cells (d, history)) = d.
Proof.
  revert d history. induction cells as [|cell cells IH]; intros d history H;
    [split; [exact H | reflexivity]|].
  cbn [fold_left] in *.
  destruct (eraseCell_step d history cell) as [E|(d' & item & E)]; rewrite E in *.
  - now apply IH.
  - destruct (IH d' (history ++ [item]) H) as [Hh _]. destruct history; discriminate.
Qed.

Lemma no_cell_anywhere (d : list Cell) :
  (forall q, get d q = None) -> d = [].
Proof.
  intro H. destruct d as [|c d]; [reflexivity|].
  specialize (H (position c)). unfold get in H. cbn [find] in H.
  unfold samePosition in H. now rewrite position_eqb_refl in H.
Qed.

(** X27. Painting cells on a map without cells and shapes and then erasing
    the same cells leaves no cell and no shape, whatever the arguments of
    the paint are. *)
Theorem paint_then_erase_is_empty (cells : list Position) (tid : string) (h e : Q)
  (overwrite : bool) (s : HeightMap) :
  data s = [] ->
  shapes s = [] ->
  data (snd (eraseCells cells (snd (paintCells cells tid h e overwrite s)))) = []
  /\ shapes (snd (eraseCells cells (snd (paintCells cells tid h e overwrite s)))) = [].
Proof.
  intros Hd Hs.
  set (s1 := snd (paintCells cells tid h e overwrite s)).
  assert (Hnd : onePerPosition (data s1)).
  { apply paintCells_onePerPosition. unfold onePerPosition. rewrite Hd. constructor. }
  assert (Hnone : forall q, ~ In q cells -> get (data s1) q = None).
  { intros q Hq. unfold s1. rewrite paintCells_get_other; [now rewrite Hd | exact Hq|].
    rewrite Hd. discriminate. }
  assert (Hdata : data (snd (eraseCells cells s1)) = []).
  { apply no_cell_anywhere. intro q.
    destruct (eraseCells_get cells s1 q Hnd) as [Hin Hout].
    destruct (in_dec position_eq_dec q cells) as [Hq|Hq]; [now apply Hin|].
    rewrite Hout; [now apply Hnone | exact Hq|]. rewrite (Hnone q Hq). discriminate. }
  split; [exact Hdata|].
  rewrite eraseCells_unfold in *.
  pose proof (eraseCells_fold_nothing cells (data s1) []) as Hnothing.
  destruct (fold_left eraseCell cells _) as [d' history].
  cbn [fst snd] in Hnothing.
  apply commit_shapes_empty; [exact Hdata|].
  intro Hh. subst history. destruct (Hnothing eq_refl) as [_ Hd']. subst d'.
  pose proof (commit_history [] (setData (data s1) s1)) as E. cbv beta iota in E.
  rewrite E in Hdata. cbn [snd data setData] in Hdata.
  cbn [shapes setData]. unfold s1 in *.
  destruct (paintCells_cases cells tid h e overwrite s) as [[x Ep]|(history & d1 & Ep)];
    rewrite Ep in *; cbn [snd] in *; [exact Hs|].
  apply commit_shapes_empty; [exact Hdata|]. intros _. exact Hs.
Qed.

End PaintThenErase.

Module PaintThenEraseExamples.
Import SquareWorld.

Lemma paint_then_erase_is_empty_witness :
  data (snd (eraseCells (block 0 0 2 2) painted)) = []
  /\ shapes (snd (eraseCells (block 0 0 2 2) painted)) = []
  /\ List.length (_history (snd (eraseCells (block 0 0 2 2) painted))) = 2%nat.
Proof.
  destruct (paint_then_erase_is_empty (block 0 0 2 2) "rock" 1 0 true emptyMap
              eq_refl eq_refl) as [H1 H2].
  split; [exact H1|]. split; [exact H2 | reflexivity].
Defined.

End PaintThenEraseExamples.
